(** * movUtil: a shallow embedding of [video_player.py]

    The development follows the Python source class by class:

    - [Float64]: IEEE 754 binary64, the arithmetic behind Python's [float]
      and NumPy's [float64], taken from the Standard Library's executable
      specification [SpecFloat] (precision 53, maximal exponent 1024);
    - [Numpy]: the fragment of [numpy.ndarray] the player relies on
      (element types, shapes, top-left slices, element-wise arithmetic,
      [astype(np.uint8)], [np.clip]) and an object store for arrays;
    - [OverlayManager.blend_frames] and [VideoPlayerWindow.display_frame];
    - [SyncGroup], [VideoPlayerWindow], [OverlayManager] as state passing
      over a store of objects;
    - [Loader]: the producer of [VideoLoaderThread] as an interleaving
      step relation, for the stop/join protocol. *)

From Stdlib Require Import ZArith Lia Bool.
From Stdlib Require Import Floats.SpecFloat.
From stdpp Require Import base list strings.

Open Scope Z_scope.

(* ===================================================================== *)
(** * IEEE 754 binary64 *)
(* ===================================================================== *)

Module Float64.

Definition prec : Z := 53.
Definition emax : Z := 1024.

Definition float : Type := spec_float.

(** Conversion of an integer, correctly rounded (exact below 2^53). *)
Definition of_Z (z : Z) : float := binary_normalize prec emax z 0 false.

Definition add : float -> float -> float := SFadd prec emax.
Definition sub : float -> float -> float := SFsub prec emax.
Definition mul : float -> float -> float := SFmul prec emax.
Definition div : float -> float -> float := SFdiv prec emax.
Definition ltb : float -> float -> bool := SFltb.

(** The integer part, rounding toward zero (a C cast to an integer type). *)
Definition trunc (x : float) : Z :=
  match x with
  | S754_finite s m e =>
      let a := match e with
               | Zneg p => Z.shiftr (Zpos m) (Zpos p)
               | _ => Z.shiftl (Zpos m) e
               end in
      if s then - a else a
  | _ => 0
  end.

End Float64.

(* ===================================================================== *)
(** * NumPy arrays *)
(* ===================================================================== *)

Module Numpy.
Import Float64.

(** Element types. The video loader yields [uint8] frames (OpenCV); a
    TIFF stack yields what the file stores, of which the model keeps the
    integer pages: unsigned of 8 and 16 bits, signed of 16 and 32 bits.
    (Pages of floating-point samples are not modelled.) *)
Inductive dtype := uint8 | uint16 | int16 | int32.

#[global] Instance dtype_eq_dec : EqDecision dtype.
Proof. solve_decision. Defined.

Definition bits (d : dtype) : Z :=
  match d with uint8 => 8 | uint16 => 16 | int16 => 16 | int32 => 32 end.

Definition signed (d : dtype) : bool :=
  match d with int16 | int32 => true | uint8 | uint16 => false end.

(** The least and the greatest value of an element type. *)
Definition dtype_min (d : dtype) : Z :=
  if signed d then - 2 ^ (bits d - 1) else 0.
Definition dtype_max (d : dtype) : Z :=
  if signed d then 2 ^ (bits d - 1) - 1 else 2 ^ bits d - 1.

(** Integer arithmetic inside an array of type [d] wraps around: modulo
    [2 ^ bits d], into [dtype_min d .. dtype_max d] (two's complement for
    the signed types). *)
Definition wrap (d : dtype) (z : Z) : Z :=
  if signed d
  then (z + 2 ^ (bits d - 1)) mod 2 ^ bits d - 2 ^ (bits d - 1)
  else z mod 2 ^ bits d.

(** [np.promote_types] on the two element types. *)
Definition promote (a b : dtype) : dtype :=
  match a, b with
  | uint8, uint8 => uint8
  | uint8, uint16 | uint16, uint8 | uint16, uint16 => uint16
  | uint8, int16 | int16, uint8 | int16, int16 => int16
  | _, _ => int32
  end.

(** A pixel is the list of its channel samples; a row is a list of
    pixels. A two-dimensional array [(h, w)] has [ndim = 2] and
    one-sample pixels; a three-dimensional one [(h, w, c)] has [ndim = 3]
    and [c]-sample pixels. *)
Abbreviation pixel := (list Z) (only parsing).

Record ndarray := mk_ndarray {
  arr_dtype : dtype;
  ndim : nat;
  rows : list (list pixel)
}.

(** [shape[:2]]: height and width (the width of an array without rows
    is read as 0). *)
Definition height (a : ndarray) : nat := length (rows a).
Definition width (a : ndarray) : nat :=
  match rows a with [] => 0%nat | r :: _ => length r end.

(** The number of samples of a pixel, [shape[2]] when [ndim = 3]. It is
    read off the first pixel: an array without pixels, whose [shape[2]]
    the model does not keep, counts as having no channels. *)
Definition channels (a : ndarray) : nat :=
  match rows a with (p :: _) :: _ => length p | _ => 0%nat end.

Definition pixel_at (rs : list (list pixel)) (i j : nat) : option pixel :=
  r ← rs !! i; r !! j.

Definition sample_at (rs : list (list pixel)) (i j k : nat) : option Z :=
  p ← pixel_at rs i j; p !! k.

(** [a[:h, :w]]. *)
Definition slice2 (h w : nat) (rs : list (list pixel)) : list (list pixel) :=
  take w <$> take h rs.

(** [a[:h, :w] = new], for [new] of shape [(h, w)]: the rectangle is
    overwritten in place, everything else is kept. *)
Fixpoint assign_row (w : nat) (row new : list pixel) : list pixel :=
  match w, row, new with
  | S w', _ :: row', p :: new' => p :: assign_row w' row' new'
  | _, _, _ => row
  end.

Fixpoint assign_slice2 (h w : nat) (rs new : list (list pixel))
  : list (list pixel) :=
  match h, rs, new with
  | S h', r :: rs', n :: new' => assign_row w r n :: assign_slice2 h' w rs' new'
  | _, _, _ => rs
  end.

(** An element-wise binary operation on two arrays of the same shape. *)
Definition elementwise (f : Z -> Z -> Z) (a b : list (list pixel))
  : list (list pixel) :=
  zip_with (zip_with (zip_with f)) a b.

Definition map_samples (f : Z -> Z) (a : list (list pixel))
  : list (list pixel) :=
  (fun r : list pixel => (fun p : pixel => f <$> p) <$> r) <$> a.

(** [x.astype(np.uint8)] on a [float64] sample, a C cast: the fraction is
    dropped (rounding toward zero). Values outside 0..255 are not defined
    by C; the model takes what NumPy does on x86-64, where the value is
    converted to a 32-bit integer of which the low 8 bits are kept, and a
    value that does not fit 32 bits, like NaN and the infinities, gives
    0. *)
Definition astype_uint8 (x : float) : Z :=
  let t := trunc x in
  if (- 2 ^ 31 <=? t) && (t <? 2 ^ 31) then t mod 256 else 0.

(** [np.clip(x, 0, 255)] on a [float64] sample (NaN passes through). *)
Definition clip_0_255 (x : float) : float :=
  if ltb x (of_Z 0) then of_Z 0
  else if ltb (of_Z 255) x then of_Z 255
  else x.

(** ** The object store

    Arrays are Python objects: a reference is an index into the store,
    [copy()] allocates, slice assignment overwrites in place. *)
Abbreviation ref := nat (only parsing).
Abbreviation heap := (list ndarray) (only parsing).

(** State and failure: [None] is a raised exception. *)
Definition M (A : Type) : Type := heap -> option (A * heap).

Definition ret {A} (x : A) : M A := fun h => Some (x, h).
Definition bind {A B} (m : M A) (k : A -> M B) : M B :=
  fun h => match m h with Some (x, h') => k x h' | None => None end.
Definition raise {A} : M A := fun _ => None.

Definition read (r : ref) : M ndarray :=
  fun h => match h !! r with Some a => Some (a, h) | None => None end.
Definition copy (r : ref) : M ref :=
  fun h => match h !! r with
           | Some a => Some (length h, h ++ [a])
           | None => None
           end.
Definition assign_slice (r : ref) (hh ww : nat) (new : list (list pixel))
  : M unit :=
  fun h => match h !! r with
           | Some a =>
               Some (tt, <[r := mk_ndarray (arr_dtype a) (ndim a)
                                 (assign_slice2 hh ww (rows a) new)]> h)
           | None => None
           end.

#[global] Instance M_ret : MRet M := @ret.
#[global] Instance M_bind : MBind M := fun A B k m => bind m k.

End Numpy.

(* ===================================================================== *)
(** * OverlayManager.blend_frames *)
(* ===================================================================== *)

Module Blend.
Import Float64 Numpy.

(** The per-sample arithmetic of each mode. [m] is a sample of
    [result[:visible_h, :visible_w]] (element type [dm]), [o] the sample
    of [overlay_visible] at the same place (element type [dov]); an
    integer array combined with the Python float [opacity] is computed
    in [float64]. *)
Section Kernels.
Variable opacity : float.
Variables dm dov : dtype.

(** [((1 - opacity) * result + opacity * overlay).astype(np.uint8)] *)
Definition normal (m o : Z) : Z :=
  astype_uint8
    (add (mul (sub (of_Z 1) opacity) (of_Z m)) (mul opacity (of_Z o))).

(** [np.clip(result + overlay * opacity, 0, 255).astype(np.uint8)] *)
Definition additive (m o : Z) : Z :=
  astype_uint8 (clip_0_255 (add (of_Z m) (mul (of_Z o) opacity))).

(** [np.clip(result * (1 - opacity + opacity * overlay / 255), 0, 255)
     .astype(np.uint8)] *)
Definition multiply (m o : Z) : Z :=
  astype_uint8
    (clip_0_255
       (mul (of_Z m)
          (add (sub (of_Z 1) opacity)
             (div (mul opacity (of_Z o)) (of_Z 255))))).

(** [inverted_main = 255 - result], [inverted_overlay = 255 - overlay]
    stay in the arrays' integer types;
    [screened = 255 - inverted_main *
                (1 - opacity + opacity * inverted_overlay / 255)]. *)
Definition screen (m o : Z) : Z :=
  let inverted_main := wrap dm (255 - m) in
  let inverted_overlay := wrap dov (255 - o) in
  astype_uint8
    (clip_0_255
       (sub (of_Z 255)
          (mul (of_Z inverted_main)
             (add (sub (of_Z 1) opacity)
                (div (mul opacity (of_Z inverted_overlay)) (of_Z 255)))))).

(** [diff = np.abs(result - overlay)]: the subtraction and [np.abs] are
    done in the promoted integer type and wrap around (in an unsigned
    type [np.abs] changes nothing);
    [(result * (1 - opacity) + diff * opacity).astype(np.uint8)]. *)
Definition difference (m o : Z) : Z :=
  let d := promote dm dov in
  let diff := wrap d (Z.abs (wrap d (m - o))) in
  astype_uint8
    (add (mul (of_Z m) (sub (of_Z 1) opacity)) (mul (of_Z diff) opacity)).
End Kernels.

(** The branch taken for a mode string, [None] when no branch matches. *)
Definition kernel (blend_mode : string) (opacity : float) (dm dov : dtype)
  : option (Z -> Z -> Z) :=
  if decide (blend_mode = "Normal") then Some (normal opacity)
  else if decide (blend_mode = "Add") then Some (additive opacity)
  else if decide (blend_mode = "Multiply") then Some (multiply opacity)
  else if decide (blend_mode = "Screen") then Some (screen opacity dm dov)
  else if decide (blend_mode = "Difference")
       then Some (difference opacity dm dov)
  else None.

(** Two operands combine element-wise when they have the same rank and
    the same number of channels. (For other pairs NumPy raises
    [ValueError], or broadcasts along an axis of length one; neither is
    modelled, and [blend_frames] fails there.) *)
Definition same_layout (a b : ndarray) : bool :=
  bool_decide (ndim a = ndim b) && bool_decide (channels a = channels b).

Definition blend_frames (main_frame overlay_frame : ref)
    (blend_mode : string) (opacity : float) : M ref :=
  (* result = main_frame.copy() *)
  result ← copy main_frame;
  m ← read main_frame;
  o ← read overlay_frame;
  let '(main_h, main_w) := (height m, width m) in
  let '(overlay_h, overlay_w) := (height o, width o) in
  let visible_h := Nat.min main_h overlay_h in
  let visible_w := Nat.min main_w overlay_w in
  let overlay_visible := slice2 visible_h visible_w (rows o) in
  match kernel blend_mode opacity (arr_dtype m) (arr_dtype o) with
  | Some f =>
      r ← read result;
      (if same_layout m o then mret tt else raise);;
      assign_slice result visible_h visible_w
        (elementwise f (slice2 visible_h visible_w (rows r)) overlay_visible);;
      mret result
  | None => mret result
  end.

(** The mode names the branches test for. *)
Definition blend_modes : list string :=
  ["Normal"; "Add"; "Multiply"; "Screen"; "Difference"].

(** ** The 1x1 example: main [[100]], overlay [[200]], opacity 0.5 *)

Definition half : float := div (of_Z 1) (of_Z 2).

Definition px (d : dtype) (v : Z) : ndarray := mk_ndarray d 2 [[[v]]].

(** The sample at (0, 0) of the blended frame. *)
Definition blend_1x1 (blend_mode : string) : option Z :=
  '(r, h) ← blend_frames 0%nat 1%nat blend_mode half [px uint8 100; px uint8 200];
  a ← h !! r;
  sample_at (rows a) 0 0 0.

(** A frame of [h] rows and [w] columns, every pixel [p]. *)
Definition uniform (d : dtype) (h w : nat) (p : list Z) : ndarray :=
  mk_ndarray d 3 (replicate h (replicate w p)).

End Blend.

Import Blend.

(* ===================================================================== *)
(** * VideoPlayerWindow.display_frame *)
(* ===================================================================== *)

Module Display.
Import Float64 Numpy.

(** All samples of a frame, row by row. *)
Definition samples (a : ndarray) : list Z := mjoin (mjoin (rows a)).

(** [frame.min()] and [frame.max()]; NumPy raises on an array without
    elements. *)
Definition arr_min (a : ndarray) : option Z :=
  match samples a with
  | [] => None
  | v :: vs => Some (foldr Z.min v vs)
  end.

Definition arr_max (a : ndarray) : option Z :=
  match samples a with
  | [] => None
  | v :: vs => Some (foldr Z.max v vs)
  end.

(** One sample of
    [((frame - frame.min()) / (frame.max() - frame.min()) * 255)
       .astype(np.uint8)]:
    both differences are taken in the frame's integer type, the quotient
    and the product in float64. *)
Definition rescale (d : dtype) (mn mx v : Z) : Z :=
  astype_uint8
    (mul (div (of_Z (wrap d (v - mn))) (of_Z (wrap d (mx - mn)))) (of_Z 255)).

(** The first step of [display_frame]: a frame that is not [uint8] is
    rescaled, or replaced by zeros when all its samples are equal. *)
Definition normalize (frame : ndarray) : option ndarray :=
  if decide (arr_dtype frame <> uint8) then
    mx ← arr_max frame;
    mn ← arr_min frame;
    if decide (mx <> mn) then
      Some (mk_ndarray uint8 (ndim frame)
              (map_samples (rescale (arr_dtype frame) mn mx) (rows frame)))
    else
      (* np.zeros_like(frame, dtype=np.uint8) *)
      Some (mk_ndarray uint8 (ndim frame)
              (map_samples (fun _ => 0) (rows frame)))
  else Some frame.

(** OpenCV's colour conversions, as documented: [COLOR_GRAY2RGB] repeats
    the gray sample in the three channels, [COLOR_RGBA2RGB] drops the
    fourth channel. Both refuse an image without pixels. *)
Definition gray2rgb (p : list Z) : list Z :=
  match p with v :: _ => [v; v; v] | [] => [] end.

Definition rgba2rgb (p : list Z) : list Z := take 3 p.

Definition cvtColor (conv : list Z -> list Z) (frame : ndarray)
  : option ndarray :=
  match samples frame with
  | [] => None
  | _ :: _ =>
      Some (mk_ndarray (arr_dtype frame) 3
              ((fun r : list (list Z) => conv <$> r) <$> rows frame))
  end.

(** The second step: bring the frame to three channels. *)
Definition to_rgb (frame : ndarray) : option ndarray :=
  if decide (ndim frame = 2%nat) then cvtColor gray2rgb frame
  else if decide (channels frame = 1%nat) then cvtColor gray2rgb frame
  else if decide (channels frame = 4%nat) then cvtColor rgba2rgb frame
  else Some frame.

(** [display_frame] up to the image handed to Qt: the frame that
    [QImage(frame.data, w, h, bytes_per_line, Format_RGB888)] shows, or
    [None] when an exception was caught and nothing is shown. *)
Definition display_frame (frame : ndarray) : option ndarray :=
  frame ← normalize frame;
  to_rgb frame.

(** What becomes of one pixel in each of the two steps. *)
Definition normalized_pixel (frame : ndarray) (mn mx : Z) (p : list Z)
  : list Z :=
  if decide (arr_dtype frame <> uint8) then
    if decide (mx <> mn) then rescale (arr_dtype frame) mn mx <$> p
    else (fun _ => 0) <$> p
  else p.

Definition rgb_pixel (frame : ndarray) (p : list Z) : list Z :=
  if decide (ndim frame = 2%nat) then gray2rgb p
  else if decide (channels frame = 1%nat) then gray2rgb p
  else if decide (channels frame = 4%nat) then rgba2rgb p
  else p.

(** Every sample fits the frame's element type. *)
Definition in_range (a : ndarray) : Prop :=
  Forall (fun v => dtype_min (arr_dtype a) <= v <= dtype_max (arr_dtype a))
    (samples a).

(** A 16-bit gray page of one row: samples 1000 and 3000. *)
Definition gray16_example : ndarray := mk_ndarray uint16 2 [[[1000]; [3000]]].

(** A signed 16-bit gray page of one row: samples -30000, 10000, 30000. *)
Definition signed16_example : ndarray :=
  mk_ndarray int16 2 [[[-30000]; [10000]; [30000]]].

End Display.

(* ===================================================================== *)
(** * SyncGroup *)
(* ===================================================================== *)

Module SyncGroup.

(** Player windows are Python objects compared by identity; a window is
    named by its index in the store of windows. *)
Record t := mk {
  players : list nat;
  master : option nat
}.

(** [__init__] *)
Definition init : t := mk [] None.

Definition set_master (g : t) (player : nat) : t :=
  mk (players g) (Some player).

Definition add_player (g : t) (player : nat) : t :=
  let g := mk (players g ++ [player]) (master g) in
  match master g with
  | None => set_master g player
  | Some _ => g
  end.

(** [list.remove]: the first occurrence goes. *)
Fixpoint list_remove (x : nat) (l : list nat) : list nat :=
  match l with
  | [] => []
  | y :: l' => if decide (y = x) then l' else y :: list_remove x l'
  end.

Definition remove_player (g : t) (player : nat) : t :=
  let ps := if decide (player ∈ players g)
            then list_remove player (players g) else players g in
  match ps with
  | first :: _ =>
      if decide (master g = Some player)
      then set_master (mk ps (master g)) first
      else mk ps (master g)
  | [] => mk ps None
  end.

Definition is_master (g : t) (player : nat) : bool :=
  bool_decide (master g = Some player).

(** Membership changes, and the group they lead to from a new one. *)
Inductive op := Add (player : nat) | Remove (player : nat).

Definition step (g : t) (o : op) : t :=
  match o with
  | Add p => add_player g p
  | Remove p => remove_player g p
  end.

Definition run (ops : list op) : t := foldl step init ops.

(** No member: no master; some member: the master is one of them. *)
Definition master_ok (g : t) : Prop :=
  match players g with
  | [] => master g = None
  | _ :: _ => exists m, master g = Some m /\ m ∈ players g
  end.

End SyncGroup.

(* ===================================================================== *)
(** * VideoPlayerWindow *)
(* ===================================================================== *)

Module Player.
Import Float64.

(** The two slots of a window that a loader's [loading_finished] signal
    can be connected to. *)
Inductive slot := slot_on_loading_finished | slot_preserve_position.

(** A [VideoLoaderThread] as the window sees it: what it was built with
    and the slots connected to its [loading_finished] signal. *)
Record VideoLoaderThread := mk_loader {
  loader_path : string;
  start_frame : Z;
  loading_finished_slots : list slot
}.

(** [QSlider]: range and value. *)
Record QSlider := mk_slider {
  minimum : Z;
  maximum : Z;
  value : Z
}.

(** The state of a window. [sync_group] tells whether the attribute holds
    the application's group or [None]; [timer] is the interval of the
    running [QTimer], if it runs; the labels are kept by the numbers they
    print. *)
Record VideoPlayerWindow := mk_window {
  file_path : option string;
  sync_group : bool;
  current_frame_index : Z;
  total_frames : Z;
  fps : Z;
  is_playing : bool;
  loader_thread : option VideoLoaderThread;
  timer : option Z;
  frame_slider : QSlider;
  fps_spinbox : Z;
  current_frame_display : Z;
  total_frames_display : Z;
  frame_label : Z * Z
}.

(** [__init__] and [init_ui], before any file is loaded. *)
Definition new_window (sg : bool) : VideoPlayerWindow :=
  mk_window None sg 0 0 30 false None None (mk_slider 0 100 0) 30 0 0 (0, 0).

Definition set_file_path (v : option string) (x : VideoPlayerWindow) :=
  mk_window v (sync_group x) (current_frame_index x) (total_frames x) (fps x)
    (is_playing x) (loader_thread x) (timer x) (frame_slider x) (fps_spinbox x)
    (current_frame_display x) (total_frames_display x) (frame_label x).
Definition set_current_frame_index (v : Z) (x : VideoPlayerWindow) :=
  mk_window (file_path x) (sync_group x) v (total_frames x) (fps x)
    (is_playing x) (loader_thread x) (timer x) (frame_slider x) (fps_spinbox x)
    (current_frame_display x) (total_frames_display x) (frame_label x).
Definition set_total_frames (v : Z) (x : VideoPlayerWindow) :=
  mk_window (file_path x) (sync_group x) (current_frame_index x) v (fps x)
    (is_playing x) (loader_thread x) (timer x) (frame_slider x) (fps_spinbox x)
    (current_frame_display x) (total_frames_display x) (frame_label x).
Definition set_fps (v : Z) (x : VideoPlayerWindow) :=
  mk_window (file_path x) (sync_group x) (current_frame_index x)
    (total_frames x) v
    (is_playing x) (loader_thread x) (timer x) (frame_slider x) (fps_spinbox x)
    (current_frame_display x) (total_frames_display x) (frame_label x).
Definition set_is_playing (v : bool) (x : VideoPlayerWindow) :=
  mk_window (file_path x) (sync_group x) (current_frame_index x)
    (total_frames x) (fps x)
    v (loader_thread x) (timer x) (frame_slider x) (fps_spinbox x)
    (current_frame_display x) (total_frames_display x) (frame_label x).
Definition set_loader_thread (v : option VideoLoaderThread)
    (x : VideoPlayerWindow) :=
  mk_window (file_path x) (sync_group x) (current_frame_index x)
    (total_frames x) (fps x)
    (is_playing x) v (timer x) (frame_slider x) (fps_spinbox x)
    (current_frame_display x) (total_frames_display x) (frame_label x).
Definition set_timer (v : option Z) (x : VideoPlayerWindow) :=
  mk_window (file_path x) (sync_group x) (current_frame_index x)
    (total_frames x) (fps x)
    (is_playing x) (loader_thread x) v (frame_slider x) (fps_spinbox x)
    (current_frame_display x) (total_frames_display x) (frame_label x).
Definition set_frame_slider (v : QSlider) (x : VideoPlayerWindow) :=
  mk_window (file_path x) (sync_group x) (current_frame_index x)
    (total_frames x) (fps x)
    (is_playing x) (loader_thread x) (timer x) v (fps_spinbox x)
    (current_frame_display x) (total_frames_display x) (frame_label x).
Definition set_fps_spinbox (v : Z) (x : VideoPlayerWindow) :=
  mk_window (file_path x) (sync_group x) (current_frame_index x)
    (total_frames x) (fps x)
    (is_playing x) (loader_thread x) (timer x) (frame_slider x) v
    (current_frame_display x) (total_frames_display x) (frame_label x).
Definition set_current_frame_display (v : Z) (x : VideoPlayerWindow) :=
  mk_window (file_path x) (sync_group x) (current_frame_index x)
    (total_frames x) (fps x)
    (is_playing x) (loader_thread x) (timer x) (frame_slider x) (fps_spinbox x)
    v (total_frames_display x) (frame_label x).
Definition set_total_frames_display (v : Z) (x : VideoPlayerWindow) :=
  mk_window (file_path x) (sync_group x) (current_frame_index x)
    (total_frames x) (fps x)
    (is_playing x) (loader_thread x) (timer x) (frame_slider x) (fps_spinbox x)
    (current_frame_display x) v (frame_label x).
Definition set_frame_label (v : Z * Z) (x : VideoPlayerWindow) :=
  mk_window (file_path x) (sync_group x) (current_frame_index x)
    (total_frames x) (fps x)
    (is_playing x) (loader_thread x) (timer x) (frame_slider x) (fps_spinbox x)
    (current_frame_display x) (total_frames_display x) v.

(** What the window asks of its collaborators. *)
Inductive event :=
| LoaderStopped (window : nat) (l : VideoLoaderThread)
| LoaderStarted (window : nat) (l : VideoLoaderThread)
| SingleShotUpdateAfterSeek (window : nat).

(** The application: its windows, its synchronisation group, and the
    calls made so far. *)
Record world := mk_world {
  windows : list VideoPlayerWindow;
  group : SyncGroup.t;
  events : list event
}.

(** State and failure: [None] is a raised exception. *)
Definition W (A : Type) : Type := world -> option (A * world).

#[global] Instance W_ret : MRet W := fun A x w => Some (x, w).
#[global] Instance W_bind : MBind W :=
  fun A B k m w => match m w with Some (x, w') => k x w' | None => None end.

Definition raise {A} : W A := fun _ => None.

Definition get (id : nat) : W VideoPlayerWindow :=
  fun w => match windows w !! id with Some x => Some (x, w) | None => None end.

Definition modify (id : nat) (f : VideoPlayerWindow -> VideoPlayerWindow)
  : W unit :=
  fun w => match windows w !! id with
           | Some x => Some (tt, mk_world (<[id := f x]> (windows w))
                                   (group w) (events w))
           | None => None
           end.

Definition the_group : W SyncGroup.t := fun w => Some (group w, w).

Definition emit (e : event) : W unit :=
  fun w => Some (tt, mk_world (windows w) (group w) (events w ++ [e])).

Definition when (b : bool) (m : W unit) : W unit := if b then m else mret tt.

Fixpoint for_each {A} (l : list A) (body : A -> W unit) : W unit :=
  match l with
  | [] => mret tt
  | x :: l' => body x;; for_each l' body
  end.

(** [self.playback_speed], never changed after [__init__]. *)
Definition playback_speed : float := of_Z 1.

(** [int(1000 / (self.fps * self.playback_speed))]; a float division by
    zero raises. *)
Definition timer_interval (fps : Z) : W Z :=
  let d := mul (of_Z fps) playback_speed in
  match d with
  | S754_zero _ => raise
  | _ => mret (trunc (div (of_Z 1000) d))
  end.

(** [if self.sync_group and self.sync_group.is_master(self)] *)
Definition is_sync_master (id : nat) : W bool :=
  x ← get id;
  g ← the_group;
  mret (sync_group x && SyncGroup.is_master g id).

(** ** Playback *)

(** [start_playback] up to the notification of the group; [false] when it
    returned at once for want of a loader. *)
Definition start_playback_body (id : nat) : W bool :=
  x ← get id;
  match loader_thread x with
  | None => mret false
  | Some _ =>
      modify id (set_is_playing true);;
      interval ← timer_interval (fps x);
      modify id (set_timer (Some interval));;
      mret true
  end.

(** [stop_playback] up to the notification of the group. *)
Definition stop_playback_body (id : nat) : W unit :=
  modify id (set_is_playing false);;
  modify id (set_timer None).

(** [set_sync_playing] as [SyncGroup.set_playing] calls it, on a window
    that is not the master: the [start_playback] or [stop_playback] it
    calls finds [is_master(self)] false and notifies nobody. *)
Definition set_sync_playing (id : nat) (playing : bool) : W unit :=
  x ← get id;
  if playing && negb (is_playing x) then
    _ ← start_playback_body id; mret tt
  else if negb playing && is_playing x then stop_playback_body id
  else mret tt.

(** [SyncGroup.set_playing] *)
Definition set_playing (playing : bool) : W unit :=
  g ← the_group;
  for_each (SyncGroup.players g) (fun player =>
    when (negb (SyncGroup.is_master g player))
      (set_sync_playing player playing)).

Definition start_playback (id : nat) : W unit :=
  started ← start_playback_body id;
  when started (m ← is_sync_master id; when m (set_playing true)).

Definition stop_playback (id : nat) : W unit :=
  stop_playback_body id;;
  m ← is_sync_master id;
  when m (set_playing false).

(** ** Frame rate *)

(** [QSpinBox.setValue] keeps the value within the range 1..120 set by
    [init_ui], and emits [valueChanged] when the value changes. *)
Definition spinbox_bound (v : Z) : Z := Z.max 1 (Z.min 120 v).

(** [fps_changed] up to the notification of the group; returns [new_fps]. *)
Definition fps_changed_body (id : nat) : W Z :=
  x ← get id;
  let new_fps := fps_spinbox x in
  modify id (set_fps new_fps);;
  when (is_playing x)
    (interval ← timer_interval new_fps; modify id (set_timer (Some interval)));;
  mret new_fps.

(** [set_sync_fps] as [SyncGroup.set_fps] calls it, on a window that is
    not the master. *)
Definition set_sync_fps (id : nat) (fps : Z) : W unit :=
  x ← get id;
  let v := spinbox_bound fps in
  when (bool_decide (v <> fps_spinbox x))
    (modify id (set_fps_spinbox v);; _ ← fps_changed_body id; mret tt).

(** [SyncGroup.set_fps] *)
Definition group_set_fps (fps : Z) : W unit :=
  g ← the_group;
  for_each (SyncGroup.players g) (fun player =>
    when (negb (SyncGroup.is_master g player)) (set_sync_fps player fps)).

Definition fps_changed (id : nat) : W unit :=
  new_fps ← fps_changed_body id;
  m ← is_sync_master id;
  when m (group_set_fps new_fps).

(** [self.fps_spinbox.setValue(v)], with the slot [fps_changed] connected
    to [valueChanged]. *)
Definition fps_spinbox_setValue (id : nat) (v : Z) : W unit :=
  x ← get id;
  let v := spinbox_bound v in
  when (bool_decide (v <> fps_spinbox x))
    (modify id (set_fps_spinbox v);; fps_changed id).

(** ** Seeking *)

Definition _seek_to_frame (id : nat) (frame_index : Z) : W unit :=
  x ← get id;
  (* if self.loader_thread: self.loader_thread.stop() *)
  match loader_thread x with
  | Some l => emit (LoaderStopped id l)
  | None => mret tt
  end;;
  path ← match file_path x with Some p => mret p | None => raise end;
  let l := mk_loader path frame_index [slot_preserve_position] in
  modify id (set_loader_thread (Some l));;
  emit (LoaderStarted id l);;
  modify id (set_frame_label (frame_index, total_frames x - 1));;
  modify id (set_current_frame_index frame_index);;
  (* QTimer.singleShot(100, self._update_after_seek) *)
  emit (SingleShotUpdateAfterSeek id).

Definition next_frame (id : nat) : W unit :=
  x ← get id;
  match loader_thread x with
  | None => mret tt
  | Some _ =>
      let was_playing := is_playing x in
      when was_playing (stop_playback id);;
      let next_frame_index := current_frame_index x + 1 in
      let next_frame_index :=
        if total_frames x <=? next_frame_index then 0 else next_frame_index in
      _seek_to_frame id next_frame_index;;
      when was_playing (start_playback id)
  end.

Definition prev_frame (id : nat) : W unit :=
  x ← get id;
  match loader_thread x with
  | None => mret tt
  | Some _ =>
      if current_frame_index x <=? 0 then mret tt
      else
        let was_playing := is_playing x in
        when was_playing (stop_playback id);;
        let prev_frame_index := current_frame_index x - 1 in
        let prev_frame_index :=
          if prev_frame_index <? 0 then total_frames x - 1
          else prev_frame_index in
        _seek_to_frame id prev_frame_index;;
        when was_playing (start_playback id)
  end.

Definition slider_changed (id : nat) : W unit :=
  x ← get id;
  match loader_thread x with
  | None => mret tt
  | Some _ =>
      if total_frames x =? 0 then mret tt
      else
        let frame_index := value (frame_slider x) in
        modify id (set_current_frame_display frame_index);;
        when (bool_decide (frame_index <> current_frame_index x))
          (let was_playing := is_playing x in
           when was_playing (stop_playback id);;
           _seek_to_frame id frame_index;;
           when was_playing (start_playback id))
  end.

(** [QSlider.setValue] and [QSlider.setMaximum] (Qt's [QAbstractSlider]):
    the value is kept within the range, and [valueChanged], to which
    [slider_changed] is connected, is emitted when it changes; a new
    maximum below the minimum lowers the minimum too. *)
Definition slider_bound (s : QSlider) (v : Z) : Z :=
  Z.max (minimum s) (Z.min (maximum s) v).

Definition frame_slider_setValue (id : nat) (v : Z) : W unit :=
  x ← get id;
  let s := frame_slider x in
  let v := slider_bound s v in
  when (bool_decide (v <> value s))
    (modify id (set_frame_slider (mk_slider (minimum s) (maximum s) v));;
     slider_changed id).

Definition frame_slider_setMaximum (id : nat) (m : Z) : W unit :=
  x ← get id;
  let s := frame_slider x in
  let s' := mk_slider (Z.min (minimum s) m) m (value s) in
  when (bool_decide (minimum s' <> minimum s \/ maximum s' <> maximum s))
    (modify id (set_frame_slider s');;
     frame_slider_setValue id (value s)).

(** ** Loading *)

Definition on_loading_finished (id : nat) (total_frames fps : Z) : W unit :=
  modify id (set_total_frames total_frames);;
  modify id (set_fps fps);;
  fps_spinbox_setValue id fps;;
  frame_slider_setMaximum id (total_frames - 1);;
  frame_slider_setValue id 0;;
  modify id (set_total_frames_display (total_frames - 1));;
  modify id (set_current_frame_display 0).

Definition _on_loading_finished_preserve_position (id : nat)
    (total_frames fps : Z) : W unit :=
  modify id (set_total_frames total_frames);;
  modify id (set_fps fps);;
  fps_spinbox_setValue id fps;;
  frame_slider_setMaximum id (total_frames - 1);;
  modify id (set_total_frames_display (total_frames - 1)).

Definition run_slot (s : slot) : nat -> Z -> Z -> W unit :=
  match s with
  | slot_on_loading_finished => on_loading_finished
  | slot_preserve_position => _on_loading_finished_preserve_position
  end.

(** The loader of window [id] emits
    [loading_finished(total_frames, fps)]: the connected slots run. *)
Definition loading_finished (id : nat) (total_frames fps : Z) : W unit :=
  x ← get id;
  match loader_thread x with
  | Some l =>
      for_each (loading_finished_slots l) (fun s =>
        run_slot s id total_frames fps)
  | None => mret tt
  end.

Definition load_video (id : nat) (path : string) : W unit :=
  stop_playback id;;
  modify id (set_file_path (Some path));;
  let l := mk_loader path 0 [slot_preserve_position] in
  modify id (set_loader_thread (Some l));;
  emit (LoaderStarted id l);;
  start_playback id.

(** ** Synchronisation *)

Definition set_sync_frame (id : nat) (frame_index : Z) : W unit :=
  x ← get id;
  match loader_thread x with
  | None => mret tt
  | Some _ =>
      if frame_index =? current_frame_index x then mret tt
      else
        let was_playing := is_playing x in
        when was_playing (stop_playback id);;
        _seek_to_frame id frame_index;;
        (* if was_playing and self.sync_group and self.sync_group.master
              and self.sync_group.master.is_playing *)
        when (was_playing && sync_group x)
          (g ← the_group;
           match SyncGroup.master g with
           | Some m => y ← get m; when (is_playing y) (start_playback id)
           | None => mret tt
           end)
  end.

(** [SyncGroup.sync_to_frame] *)
Definition sync_to_frame (frame_index : Z) : W unit :=
  g ← the_group;
  for_each (SyncGroup.players g) (fun player =>
    when (negb (SyncGroup.is_master g player))
      (set_sync_frame player frame_index)).

(** ** What a call leaves alone *)

(** The position a window shows: its frame index, the slider's value and
    the number on the label next to the slider. *)
Definition position (x : VideoPlayerWindow) : Z * Z * Z :=
  (current_frame_index x, value (frame_slider x), current_frame_display x).

(** The whole slider, with the index and the label: what the calls before
    [setMaximum] keep. *)
Definition view (x : VideoPlayerWindow) : Z * QSlider * Z :=
  (current_frame_index x, frame_slider x, current_frame_display x).

(** A call keeps [proj] when it returns with every window's [proj] as it
    was. *)
Definition keeps {A B : Type} (proj : VideoPlayerWindow -> B) (m : W A)
  : Prop :=
  forall (w : world) (a : A) (w' : world),
    m w = Some (a, w') -> proj <$> windows w' = proj <$> windows w.

(** ** Example worlds *)

(** A window playing the 10-frame file "a.mp4" at 30 frames per second,
    showing frame [index]. *)
Definition loaded_window (sg playing : bool) (index : Z) : VideoPlayerWindow :=
  mk_window (Some "a.mp4") sg index 10 30 playing
    (Some (mk_loader "a.mp4" 0 [slot_preserve_position]))
    (if playing then Some 33 else None)
    (mk_slider 0 9 index) 30 index 9 (index, 9).

(** One window outside any group. *)
Definition single (x : VideoPlayerWindow) : world :=
  mk_world [x] SyncGroup.init [].

(** Two synchronised windows, window 0 the master. *)
Definition synced (x y : VideoPlayerWindow) : world :=
  mk_world [x; y] (SyncGroup.run [SyncGroup.Add 0; SyncGroup.Add 1]) [].

(** The window [id] of the world a call leaves behind. *)
Definition window_after (m : W unit) (w : world) (id : nat)
  : option VideoPlayerWindow :=
  '(_, w') ← m w; windows w' !! id.

Definition events_after (m : W unit) (w : world) : option (list event) :=
  '(_, w') ← m w; Some (events w').

End Player.

(* ===================================================================== *)
(** * OverlayManager: settings and activation *)
(* ===================================================================== *)

Module Overlay.
Import Float64.

(** The manager, together with the connections made from a window's
    [frame_updated] signal to [update_overlay]: one entry, the window, per
    connection. *)
Record OverlayManager := mk_manager {
  main_player : option nat;
  overlay_player : option nat;
  blend_mode : string;
  opacity : float;
  is_active : bool;
  frame_updated_connections : list nat
}.

(** [__init__]: mode Normal, opacity 0.5, inactive. *)
Definition init : OverlayManager :=
  mk_manager None None "Normal" (div (of_Z 1) (of_Z 2)) false [].

Definition set_main_player (player : option nat) (m : OverlayManager) :=
  mk_manager player (overlay_player m) (blend_mode m) (opacity m)
    (is_active m) (frame_updated_connections m).

Definition set_overlay_player (player : option nat) (m : OverlayManager) :=
  mk_manager (main_player m) player (blend_mode m) (opacity m)
    (is_active m) (frame_updated_connections m).

Definition set_blend_mode (mode : string) (m : OverlayManager) :=
  mk_manager (main_player m) (overlay_player m) mode (opacity m)
    (is_active m) (frame_updated_connections m).

(** [max(0.0, min(1.0, opacity))] with Python's [min] and [max]. *)
Definition set_opacity (o : float) (m : OverlayManager) :=
  let lo := if ltb o (of_Z 1) then o else of_Z 1 in
  let hi := if ltb (of_Z 0) lo then lo else of_Z 0 in
  mk_manager (main_player m) (overlay_player m) (blend_mode m) hi
    (is_active m) (frame_updated_connections m).

Definition activate (m : OverlayManager) : OverlayManager :=
  (* self.is_active = True *)
  let m := mk_manager (main_player m) (overlay_player m) (blend_mode m)
             (opacity m) true (frame_updated_connections m) in
  (* if self.main_player and self.overlay_player: *)
  match main_player m, overlay_player m with
  | Some main, Some _ =>
      (* self.main_player.frame_updated.connect(self.update_overlay) *)
      mk_manager (main_player m) (overlay_player m) (blend_mode m)
        (opacity m) (is_active m) (frame_updated_connections m ++ [main])
  | _, _ => m
  end.

(** [update_overlay], the slot: what it has the main player display, if
    anything. [current_frame] gives each window's [current_frame]. *)
Definition update_overlay (m : OverlayManager)
    (current_frame : nat -> option nat) : Numpy.M (option Numpy.ndarray) :=
  match is_active m, main_player m, overlay_player m with
  | true, Some main, Some overlay =>
      match current_frame main, current_frame overlay with
      | Some main_frame, Some overlay_frame =>
          blended_frame ← Blend.blend_frames main_frame overlay_frame
                            (blend_mode m) (opacity m);
          frame ← Numpy.read blended_frame;
          mret (Display.display_frame frame)
      | _, _ => mret None
      end
  | _, _, _ => mret None
  end.

End Overlay.

(* ===================================================================== *)
(** * VideoLoaderThread: the producer and [stop] *)
(* ===================================================================== *)

Module Loader.

(** What [run] dispatches on: [_load_video] or [_load_tiff]. *)
Inductive kind := Video | Tiff.

(** Where the thread that runs the producing loop stands. For a video the
    loop runs in the [QThread] itself ([run] calls [_load_video]); for a
    TIFF stack [run] calls [_load_tiff], which hands the loop
    ([load_frames]) to a [threading.Thread] and returns. *)
Inductive pc :=
| NotStarted   (* TIFF: load_frames is not spawned yet *)
| LoopTest     (* while not self.stopped: *)
| BreakTest    (* TIFF: if self.stopped: break *)
| Read         (* cap.read() / tiff.pages[i].asarray() *)
| WaitTest     (* while not self.stopped and self.frame_queue.full(): sleep *)
| PutTest      (* if not self.stopped: *)
| Put          (* self.frame_queue.put(...); advance the index *)
| Done.        (* the loop is left *)

(** Where a caller of [stop] stands. *)
Inductive stop_pc :=
| NotCalled
| Waiting      (* self.stopped = True is done, self.wait() is pending *)
| Returned.

Record state := mk_state {
  kd : kind;
  total_frames : Z;
  buffer_size : nat;
  stopped : bool;
  frame_queue : list Z;          (* the indices of the queued frames *)
  current_frame_index : Z;       (* self.current_frame_index *)
  cap_pos : Z;                   (* video: the decoder's read position *)
  local_i : Z;                   (* TIFF: the variable i of load_frames *)
  producer : pc;
  run_returned : bool;           (* the QThread has finished *)
  stop_call : stop_pc;
  pushed_after_stop : nat        (* history: puts made after stop returned *)
}.

(** The loader as [start()] leaves it, [loading_finished] emitted. A
    video's decoder is moved to the start frame only when that is
    positive ([if self.current_frame_index > 0: cap.set(...)]). *)
Definition init (k : kind) (total : Z) (size : nat) (start : Z) : state :=
  mk_state k total size false [] start (if 0 <? start then start else 0) start
    (match k with Video => LoopTest | Tiff => NotStarted end)
    false NotCalled 0.

Definition set_producer (p : pc) (s : state) : state :=
  mk_state (kd s) (total_frames s) (buffer_size s) (stopped s) (frame_queue s)
    (current_frame_index s) (cap_pos s) (local_i s) p
    (* a video loader's QThread ends with the loop *)
    (match kd s, p with Video, Done => true | _, _ => run_returned s end)
    (stop_call s) (pushed_after_stop s).

Definition full (s : state) : bool :=
  (buffer_size s <=? length (frame_queue s))%nat.

(** One step of the thread that runs the loop. [None]: it cannot move. *)
Definition producer_step (s : state) : option state :=
  match producer s with
  | NotStarted => None
  | LoopTest =>
      if stopped s then Some (set_producer Done s)
      else Some (set_producer
                   (match kd s with Video => Read | Tiff => BreakTest end) s)
  | BreakTest =>
      if stopped s then Some (set_producer Done s)
      else Some (set_producer Read s)
  | Read =>
      match kd s with
      | Video =>
          if cap_pos s <? total_frames s then
            (* ret is True: one more frame is decoded *)
            Some (set_producer WaitTest
                    (mk_state (kd s) (total_frames s) (buffer_size s)
                       (stopped s) (frame_queue s) (current_frame_index s)
                       (cap_pos s + 1) (local_i s) (producer s)
                       (run_returned s) (stop_call s) (pushed_after_stop s)))
          else
            (* the end: rewind, self.current_frame_index = 0, continue *)
            Some (set_producer LoopTest
                    (mk_state (kd s) (total_frames s) (buffer_size s)
                       (stopped s) (frame_queue s) 0 0 (local_i s)
                       (producer s) (run_returned s) (stop_call s)
                       (pushed_after_stop s)))
      | Tiff =>
          (* tiff.pages[i].asarray() and the conversion, when they go
             through; [read_error_step] below is the other outcome, and
             the only one when the stack has no page of index [i] *)
          if (0 <? total_frames s) && (local_i s <? total_frames s)
          then Some (set_producer WaitTest s)
          else Some (set_producer Done s)   (* IndexError ends the thread *)
      end
  | WaitTest =>
      if negb (stopped s) && full s then Some s   (* time.sleep(0.01) *)
      else Some (set_producer PutTest s)
  | PutTest =>
      if negb (stopped s) then Some (set_producer Put s)
      else Some (set_producer LoopTest s)
  | Put =>
      if full s then None                          (* put blocks *)
      else
        let advance (i : Z) : Z :=
          if total_frames s =? 0 then i else (i + 1) mod total_frames s in
        let s' :=
          match kd s with
          | Video =>
              (* self.frame_queue.put((frame, self.current_frame_index));
                 self.current_frame_index = (... + 1) % self.total_frames *)
              mk_state (kd s) (total_frames s) (buffer_size s) (stopped s)
                (frame_queue s ++ [current_frame_index s])
                (advance (current_frame_index s))
                (cap_pos s) (local_i s) (producer s) (run_returned s)
                (stop_call s)
                (match stop_call s with
                 | Returned => S (pushed_after_stop s)
                 | _ => pushed_after_stop s
                 end)
          | Tiff =>
              (* self.frame_queue.put((frame, i));
                 i = (i + 1) % self.total_frames *)
              mk_state (kd s) (total_frames s) (buffer_size s) (stopped s)
                (frame_queue s ++ [local_i s])
                (current_frame_index s)
                (cap_pos s) (advance (local_i s)) (producer s)
                (run_returned s) (stop_call s)
                (match stop_call s with
                 | Returned => S (pushed_after_stop s)
                 | _ => pushed_after_stop s
                 end)
          end in
        (* a modulus of zero raises and ends the thread *)
        Some (set_producer
                (if total_frames s =? 0 then Done else LoopTest) s')
  | Done => None
  end.

(** The read of a TIFF page, or the colour conversion of the page, raises
    ([tiff.pages[i].asarray()], [cv2.cvtColor]): [load_frames] has no
    handler, so the exception ends its thread, and the loop is left with
    the flag as it is. *)
Definition read_error_step (s : state) : option state :=
  match kd s, producer s with
  | Tiff, Read => Some (set_producer Done s)
  | _, _ => None
  end.

(** [run] of a TIFF loader: spawn [load_frames], which starts with
    [i = self.current_frame_index], and return. *)
Definition run_step (s : state) : option state :=
  match kd s, producer s with
  | Tiff, NotStarted =>
      Some (mk_state (kd s) (total_frames s) (buffer_size s) (stopped s)
              (frame_queue s) (current_frame_index s) (cap_pos s)
              (current_frame_index s) LoopTest
              true (stop_call s) (pushed_after_stop s))
  | _, _ => None
  end.

(** [stop]: set the flag, then [wait()] until the QThread has finished. *)
Definition stop_step (s : state) : option state :=
  match stop_call s with
  | NotCalled =>
      Some (mk_state (kd s) (total_frames s) (buffer_size s) true
              (frame_queue s) (current_frame_index s) (cap_pos s) (local_i s)
              (producer s) (run_returned s) Waiting (pushed_after_stop s))
  | Waiting =>
      if run_returned s then
        Some (mk_state (kd s) (total_frames s) (buffer_size s) (stopped s)
                (frame_queue s) (current_frame_index s) (cap_pos s)
                (local_i s) (producer s) (run_returned s) Returned
                (pushed_after_stop s))
      else None
  | Returned => None
  end.

(** [get_frame]: take the oldest frame, if there is one. *)
Definition get_frame_step (s : state) : option state :=
  Some (mk_state (kd s) (total_frames s) (buffer_size s) (stopped s)
          (tail (frame_queue s)) (current_frame_index s) (cap_pos s)
          (local_i s) (producer s) (run_returned s) (stop_call s)
          (pushed_after_stop s)).

(** The threads, with the failure of a page read as an event of its own,
    and an interleaving of their steps. *)
Inductive actor := Run | Producer | Stop | Consumer | ReadError.

#[global] Instance actor_eq_dec : EqDecision actor.
Proof. solve_decision. Defined.

Definition step (a : actor) (s : state) : option state :=
  match a with
  | Run => run_step s
  | Producer => producer_step s
  | Stop => stop_step s
  | Consumer => get_frame_step s
  | ReadError => read_error_step s
  end.

Fixpoint exec (schedule : list actor) (s : state) : option state :=
  match schedule with
  | [] => Some s
  | a :: rest => s' ← step a s; exec rest s'
  end.

(** What holds of a video loader at every moment: its QThread has
    finished only when the loop is left, [stop] has returned only when the
    QThread has finished, and no put was made after that. *)
Definition video_inv (s : state) : Prop :=
  kd s = Video /\
  (run_returned s = true -> producer s = Done) /\
  (stop_call s = Returned -> run_returned s = true) /\
  pushed_after_stop s = 0%nat.

(** The interleaving in which a TIFF loader's [load_frames] has passed
    [if not self.stopped] when [stop] is called and returns. *)
Definition tiff_race : list actor :=
  [Run; Producer; Producer; Producer; Producer; Producer; Stop; Stop; Producer].

End Loader.

(* ===================================================================== *)
(** * VideoLoaderThread: what every interleaving keeps *)
(* ===================================================================== *)

Module LoaderInv.
Import Loader.

(** The queue has room whenever the loop is about to put. *)
Definition room_inv (s : state) : Prop :=
  (length (frame_queue s) <= buffer_size s)%nat /\
  (producer s = Put -> (length (frame_queue s) < buffer_size s)%nat) /\
  (producer s = PutTest -> stopped s = false ->
   (length (frame_queue s) < buffer_size s)%nat).

(** [q] holds consecutive indices modulo [total], oldest first, and the
    index after its last one is [next]. *)
Fixpoint chain (total : Z) (q : list Z) (next : Z) : Prop :=
  match q with
  | [] => True
  | a :: q' =>
      0 <= a < total /\
      match q' with [] => next | b :: _ => b end = (a + 1) mod total /\
      chain total q' next
  end.

(** Where a video's decoder stands relative to the index, by the place of
    the loop: level with it before a read (or at the end of the file, the
    index already back at 0), one ahead while a decoded frame is in hand. *)
Definition cap_inv (s : state) : Prop :=
  match kd s, producer s with
  | Video, (LoopTest | BreakTest | NotStarted) =>
      cap_pos s = current_frame_index s \/
      (cap_pos s = total_frames s /\ current_frame_index s = 0) \/
      (stopped s = true /\ cap_pos s = current_frame_index s + 1)
  | Video, Read =>
      cap_pos s = current_frame_index s \/
      (cap_pos s = total_frames s /\ current_frame_index s = 0)
  | Video, (WaitTest | PutTest | Put) =>
      cap_pos s = current_frame_index s + 1
  | _, _ => True
  end.

(** The index the loop puts next: the attribute for a video, the local
    variable for a TIFF stack. *)
Definition next_index (s : state) : Z :=
  match kd s with
  | Video => current_frame_index s
  | Tiff => local_i s
  end.

Definition index_inv (s : state) : Prop :=
  0 < total_frames s /\
  0 <= current_frame_index s < total_frames s /\
  0 <= next_index s < total_frames s /\
  chain (total_frames s) (frame_queue s) (next_index s) /\
  cap_inv s /\
  (producer s = NotStarted -> local_i s = current_frame_index s).

(** The loop is left with the flag set. *)
Definition done_stopped (s : state) : Prop :=
  producer s = Done -> stopped s = true.

(** After [stop] has set the flag at most one more frame is put. *)
Definition late_push_inv (s : state) : Prop :=
  (stop_call s <> NotCalled -> stopped s = true) /\
  (pushed_after_stop s = 0%nat \/
   (pushed_after_stop s = 1%nat /\ stopped s = true /\ producer s <> Put)).

(** How many steps the loop is from its end once the flag is set. *)
Definition rank (s : state) : nat :=
  match producer s with
  | Done => 0
  | LoopTest | BreakTest => 1
  | PutTest | Put | NotStarted => 2
  | WaitTest => 3
  | Read => 4
  end.

(** A video loop's QThread has finished once the loop is left. *)
Definition done_inv (s : state) : Prop :=
  producer s <> NotStarted /\
  (producer s = Done -> run_returned s = true).

(** Two turns of the loop, the consumer taking the first frame between
    them. *)
Definition two_turns : list actor :=
  [Producer; Producer; Producer; Producer; Producer; Consumer;
   Producer; Producer; Producer; Producer; Producer].

End LoaderInv.

(* ===================================================================== *)
(** * Checks over a range of integers *)
(* ===================================================================== *)

Module Range.

(** [f] holds of the [n] integers from [z] on. *)
Fixpoint all_from (n : nat) (z : Z) (f : Z -> bool) : bool :=
  match n with
  | O => true
  | S n' => f z && all_from n' (z + 1) f
  end.

End Range.

(* ===================================================================== *)
(** * MainApplication: the windows and the synchronisation check box *)
(* ===================================================================== *)

Module App.
Import Player.

(** [player.sync_group = self.sync_group] or [= None]. *)
Definition set_sync_group (v : bool) (x : VideoPlayerWindow) :=
  mk_window (file_path x) v (current_frame_index x) (total_frames x) (fps x)
    (is_playing x) (loader_thread x) (timer x) (frame_slider x) (fps_spinbox x)
    (current_frame_display x) (total_frames_display x) (frame_label x).

(** A call on, or an assignment to, [self.sync_group]. *)
Definition modify_group (f : SyncGroup.t -> SyncGroup.t) : W unit :=
  fun w => Some (tt, mk_world (windows w) (f (group w)) (events w)).

(** [self.players]: every window made by [create_player], in the order
    they were made; a window stays in the list when it is closed. *)
Definition players : W (list nat) :=
  fun w => Some (seq 0 (length (windows w)), w).

(** [Qt.Checked] *)
Definition Qt_Checked : Z := 2.

Definition toggle_sync (state : Z) : W unit :=
  ps ← players;
  if state =? Qt_Checked then
    for_each ps (fun player =>
      modify player (set_sync_group true);;
      modify_group (fun g => SyncGroup.add_player g player))
  else
    for_each ps (fun player => modify player (set_sync_group false));;
    modify_group (fun _ => SyncGroup.init).

End App.

(* ===================================================================== *)
(** * Part II: theorems *)
(* ===================================================================== *)

Section BlendFacts.
Import Float64 Numpy Blend.

Lemma assign_row_length (w : nat) (row new : list (list Z)) :
  length (assign_row w row new) = length row.
Proof.
  revert row new; induction w as [|w IH]; intros [|p row] [|q new]; simpl; auto.
Qed.

Lemma assign_row_lookup_ge (w : nat) (row new : list (list Z)) (j : nat) :
  (w <= j)%nat -> assign_row w row new !! j = row !! j.
Proof.
  revert row new j; induction w as [|w IH]; intros [|p row] [|q new] j Hj;
    simpl; auto.
  destruct j as [|j]; [lia|]. simpl. apply IH. lia.
Qed.

Lemma assign_slice2_length (h w : nat) (rs new : list (list (list Z))) :
  length (assign_slice2 h w rs new) = length rs.
Proof.
  revert rs new; induction h as [|h IH]; intros [|r rs] [|n new]; simpl; auto.
Qed.

(** Slice assignment touches nothing outside the rectangle. *)
Lemma assign_slice2_pixel_outside (h w : nat) (rs new : list (list (list Z)))
    (i j : nat) :
  (h <= i)%nat \/ (w <= j)%nat ->
  pixel_at (assign_slice2 h w rs new) i j = pixel_at rs i j.
Proof.
  revert rs new i; induction h as [|h IH]; intros [|r rs] [|n new] i Hij;
    simpl; auto.
  destruct i as [|i].
  - destruct Hij as [Hi|Hj]; [lia|].
    unfold pixel_at; simpl. now apply assign_row_lookup_ge.
  - unfold pixel_at in *; simpl. apply IH. lia.
Qed.

(** What [blend_frames] does to the store, step by step. *)
Lemma blend_frames_run (h : heap) (main ov : ref) (m o : ndarray)
    (mode : string) (op : float) :
  h !! main = Some m -> h !! ov = Some o ->
  blend_frames main ov mode op h =
    match kernel mode op (arr_dtype m) (arr_dtype o) with
    | Some f =>
        if same_layout m o then
          let vh := Nat.min (height m) (height o) in
          let vw := Nat.min (width m) (width o) in
          Some (length h,
                h ++ [mk_ndarray (arr_dtype m) (ndim m)
                        (assign_slice2 vh vw (rows m)
                           (elementwise f (slice2 vh vw (rows m))
                              (slice2 vh vw (rows o))))])
        else None
    | None => Some (length h, h ++ [m])
    end.
Proof.
  intros Hm Ho.
  assert (Hm' : (h ++ [m]) !! main = Some m) by now apply lookup_app_l_Some.
  assert (Ho' : (h ++ [m]) !! ov = Some o) by now apply lookup_app_l_Some.
  assert (Hr : (h ++ [m]) !! length h = Some m) by apply list_lookup_middle, eq_refl.
  unfold blend_frames, mbind, M_bind, bind, copy, read, mret, M_ret, ret.
  rewrite Hm, Hm', Ho'.
  destruct (kernel mode op (arr_dtype m) (arr_dtype o)) as [f|]; [|reflexivity].
  rewrite Hr.
  destruct (same_layout m o); [|reflexivity].
  unfold assign_slice. rewrite Hr.
  do 3 f_equal.
  replace (length h) with (length h + 0)%nat at 1 by lia.
  now rewrite insert_app_r.
Qed.

Lemma kernel_unknown_mode (mode : string) (op : float) (dm dov : dtype) :
  mode ∉ blend_modes -> kernel mode op dm dov = None.
Proof.
  intros Hn. unfold kernel.
  repeat (case_decide as He;
          [exfalso; apply Hn; rewrite He; apply list_elem_of_In; simpl; tauto
          |clear He]).
  reflexivity.
Qed.

(** C1 (as amended). Main [[100]], overlay [[200]], both 8-bit, opacity
    0.5: Normal gives 150, Add gives 200, Multiply gives 89 and Screen
    gives 160. Each is the per-channel formula evaluated in float64 and
    cut to its integer part: 89 is the integer part of
    100*(255+200)/510 = 89.2..., 160 that of
    (255*510 - 155*(255+55))/510 = 160.7... (not the nearest integer,
    161). *)
Theorem blend_1x1_values :
  blend_1x1 "Normal" = Some 150 /\
  blend_1x1 "Add" = Some 200 /\
  blend_1x1 "Multiply" = Some 89 /\
  blend_1x1 "Multiply" = Some (100 * (255 + 200) / 510) /\
  blend_1x1 "Screen" = Some 160 /\
  blend_1x1 "Screen" = Some ((255 * 510 - 155 * (255 + 55)) / 510).
Proof. vm_compute. repeat split. Qed.

(** C1 as the specification states it fails on the code: the Multiply
    sample is not within 1 of 128, nor the Screen sample within 1 of 216,
    nor is the Difference sample 100. *)
Lemma blend_1x1_not_as_specified :
  ~ (blend_1x1 "Normal" = Some 150 /\
     blend_1x1 "Add" = Some 200 /\
     (exists v, blend_1x1 "Multiply" = Some v /\ Z.abs (v - 128) <= 1) /\
     (exists v, blend_1x1 "Screen" = Some v /\ Z.abs (v - 216) <= 1) /\
     blend_1x1 "Difference" = Some 100).
Proof.
  intros (_ & _ & (v & Hv & Hb) & _).
  vm_compute in Hv. injection Hv as <-. vm_compute in Hb. now apply Hb.
Qed.

(** On 8-bit frames [result - overlay] wraps around: 100 - 200 is 156, and
    Difference gives 0.5*100 + 0.5*156 = 128. *)
Lemma blend_1x1_difference_wraps : blend_1x1 "Difference" = Some 128.
Proof. vm_compute. reflexivity. Qed.

(** C8. Blending writes only into the top-left rectangle whose sides are
    the smaller of the two heights and the smaller of the two widths:
    for every mode and opacity the call returns a frame of the main
    frame's height in which every pixel at a row or column outside the
    rectangle is the main frame's pixel. *)
Theorem blend_frames_outside_overlap_unchanged (h : heap) (main ov : ref)
    (m o : ndarray) (mode : string) (op : float) :
  h !! main = Some m -> h !! ov = Some o -> same_layout m o = true ->
  exists (r : ref) (h' : heap) (res : ndarray),
    blend_frames main ov mode op h = Some (r, h') /\
    h' !! r = Some res /\
    height res = height m /\
    forall i j : nat,
      (Nat.min (height m) (height o) <= i)%nat \/
      (Nat.min (width m) (width o) <= j)%nat ->
      pixel_at (rows res) i j = pixel_at (rows m) i j.
Proof.
  intros Hm Ho Hl.
  rewrite (blend_frames_run h main ov m o mode op Hm Ho), Hl.
  destruct (kernel mode op (arr_dtype m) (arr_dtype o)) as [f|].
  - eexists _, _, _. split; [reflexivity|].
    split; [apply list_lookup_middle; reflexivity|].
    split; [apply assign_slice2_length|].
    intros i j Hij. simpl. now apply assign_slice2_pixel_outside.
  - exists (length h), (h ++ [m]), m.
    repeat split. apply list_lookup_middle; reflexivity.
Qed.

(** A 10x10 main frame under a 4x4 overlay, mode Add, opacity 0.5: pixel
    (7, 2) -- row 7 is outside the overlap -- is unchanged. *)
Lemma blend_frames_outside_overlap_unchanged_witness :
  exists (r : ref) (h' : heap) (res : ndarray),
    blend_frames 0%nat 1%nat "Add" half
      [uniform uint8 10 10 [10; 20; 30]; uniform uint8 4 4 [200; 200; 200]]
    = Some (r, h') /\
    h' !! r = Some res /\
    pixel_at (rows res) 7 2 = Some [10; 20; 30].
Proof.
  destruct (blend_frames_outside_overlap_unchanged
              [uniform uint8 10 10 [10; 20; 30]; uniform uint8 4 4 [200; 200; 200]]
              0%nat 1%nat _ _ "Add" half eq_refl eq_refl eq_refl)
    as (r & h' & res & Hrun & Hres & _ & Hout).
  exists r, h', res. split; [exact Hrun|]. split; [exact Hres|].
  rewrite (Hout 7%nat 2%nat); [reflexivity|].
  left. vm_compute. lia.
Defined.

(** C10. A mode string that is none of the five names leaves the frame as
    it is: the call returns a new object holding a copy of the main frame.
    For every mode, when the call returns, its result is an object that
    did not exist before and every object of the store, the main frame
    among them, holds what it held; and the call does return when the mode
    is unknown or the two frames have the same layout. *)
Theorem blend_frames_unknown_mode_and_main_untouched (h : heap)
    (main ov : ref) (m o : ndarray) (mode : string) (op : float) :
  h !! main = Some m -> h !! ov = Some o ->
  (mode ∉ blend_modes ->
   exists (r : ref) (h' : heap),
     blend_frames main ov mode op h = Some (r, h') /\ h' !! r = Some m) /\
  (forall (r : ref) (h' : heap),
     blend_frames main ov mode op h = Some (r, h') ->
     h !! r = None /\ h' !! main = Some m /\
     forall (i : ref) (a : ndarray), h !! i = Some a -> h' !! i = Some a) /\
  (same_layout m o = true -> is_Some (blend_frames main ov mode op h)).
Proof.
  intros Hm Ho.
  rewrite (blend_frames_run h main ov m o mode op Hm Ho).
  split; [|split].
  - intros Hmode. rewrite (kernel_unknown_mode _ _ _ _ Hmode).
    exists (length h), (h ++ [m]). split; [reflexivity|].
    apply list_lookup_middle; reflexivity.
  - intros r h' Hrun.
    assert (Hrh : r = length h /\ exists a, h' = h ++ [a]).
    { destruct (kernel mode op (arr_dtype m) (arr_dtype o)) as [f|].
      - destruct (same_layout m o); [|discriminate].
        injection Hrun as <- <-. eauto.
      - injection Hrun as <- <-. eauto. }
    destruct Hrh as (-> & a & ->).
    split; [apply lookup_ge_None; lia|].
    split; [now apply lookup_app_l_Some|].
    intros i b Hi. now apply lookup_app_l_Some.
  - intros ->. destruct (kernel mode op (arr_dtype m) (arr_dtype o)); eauto.
Qed.

(** The 1x1 frames under the unknown mode "Overlay". *)
Lemma blend_frames_unknown_mode_witness :
  (exists (r : ref) (h' : heap),
     blend_frames 0%nat 1%nat "Overlay" half [px uint8 100; px uint8 200]
       = Some (r, h') /\
     h' !! r = Some (px uint8 100)) /\
  blend_1x1 "Overlay" = Some 100.
Proof.
  split; [|reflexivity].
  refine (proj1 (blend_frames_unknown_mode_and_main_untouched
            [px uint8 100; px uint8 200] 0%nat 1%nat _ _ "Overlay" half
            eq_refl eq_refl) _).
  unfold blend_modes. intros Hin.
  repeat (apply elem_of_cons in Hin as [Hin|Hin]; [discriminate Hin|]).
  now apply elem_of_nil in Hin.
Defined.

End BlendFacts.

Section Float64Facts.
Import Float64.

(** A mantissa of 53 digits with an exponent in range is already rounded. *)
Lemma binary_round_aux_canonical (s : bool) (m : positive) (e : Z) :
  Zpos (digits2_pos m) = 53 -> -1074 <= e <= 971 ->
  binary_round_aux prec emax s (Zpos m) e loc_Exact = S754_finite s m e.
Proof.
  intros Hd He.
  assert (Hf : fexp prec emax (Zdigits2 (Zpos m) + e) - e = 0).
  { unfold fexp, emin, prec, emax, Zdigits2. lia. }
  unfold binary_round_aux, shr_fexp.
  rewrite Hf. cbn [shr shr_record_of_loc shr_m loc_of_shr_record round_nearest_even].
  rewrite Hf. cbn [shr shr_record_of_loc shr_m loc_of_shr_record round_nearest_even].
  assert (Hle : (e <=? emax - prec) = true) by (apply Z.leb_le; unfold emax, prec; lia).
  now rewrite Hle.
Qed.

Lemma digits2_pos_iter_xO (p d : positive) :
  digits2_pos (Pos.iter xO p d) = (digits2_pos p + d)%positive.
Proof.
  induction d as [|d IH] using Pos.peano_ind.
  - simpl. lia.
  - rewrite Pos.iter_succ. simpl. rewrite IH. lia.
Qed.

Lemma digits2_pos_bound (n : nat) (p : positive) :
  Zpos p < 2 ^ Z.of_nat n -> Zpos (digits2_pos p) <= Z.of_nat n.
Proof.
  revert n. induction p as [p IH|p IH|]; intros n Hp.
  - destruct n as [|n]; [simpl in Hp; lia|].
    rewrite Nat2Z.inj_succ, Z.pow_succ_r in Hp by lia.
    specialize (IH n). simpl. lia.
  - destruct n as [|n]; [simpl in Hp; lia|].
    rewrite Nat2Z.inj_succ, Z.pow_succ_r in Hp by lia.
    specialize (IH n). simpl. lia.
  - destruct n as [|n]; [simpl in Hp; lia|]. simpl. lia.
Qed.

Lemma of_Z_pos_finite (p : positive) :
  Zpos (digits2_pos p) <= 53 ->
  exists m e, of_Z (Zpos p) = S754_finite false m e.
Proof.
  intros Hd.
  unfold of_Z, binary_normalize, binary_round.
  assert (Hfexp : fexp prec emax (Zpos (digits2_pos p) + 0) = Zpos (digits2_pos p) - 53).
  { unfold fexp, emin, prec, emax. lia. }
  rewrite Hfexp.
  unfold shl_align.
  destruct (Zpos (digits2_pos p) - 53 - 0) as [|q|q] eqn:Hq; [|lia|].
  - rewrite binary_round_aux_canonical by lia. eauto.
  - rewrite binary_round_aux_canonical; eauto; [|lia].
    rewrite digits2_pos_iter_xO. lia.
Qed.

Lemma div_self (s : bool) (m : positive) (e : Z) :
  div (S754_finite s m e) (S754_finite s m e) = of_Z 1.
Proof.
  unfold div, SFdiv, SFdiv_core_binary.
  replace (Zdigits2 (Zpos m) + e - (Zdigits2 (Zpos m) + e)) with 0 by lia.
  replace (e - e) with 0 by lia.
  change (Z.min (fexp prec emax 0) 0) with (-53).
  change (0 - -53) with 53.
  cbv iota beta.
  assert (Hdiv : Z.div_eucl (Z.shiftl (Zpos m) 53) (Zpos m) = (2 ^ 53, 0)).
  { rewrite Z.shiftl_mul_pow2 by lia.
    pose proof (Z_div_mod (Zpos m * 2 ^ 53) (Zpos m) eq_refl) as H.
    destruct (Z.div_eucl (Zpos m * 2 ^ 53) (Zpos m)) as [q r].
    destruct H as [H1 H2].
    remember (2 ^ 53) as P eqn:HP. clear HP.
    assert (q = P) as -> by nia.
    assert (r = 0) as -> by lia. reflexivity. }
  rewrite Hdiv.
  destruct s, (Z.even (Zpos m)) eqn:Hev; unfold new_location; rewrite Hev;
    reflexivity.
Qed.

Lemma of_Z_small_finite (z : Z) :
  0 < z < 2 ^ 53 -> exists m e, of_Z z = S754_finite false m e.
Proof.
  intros Hz. destruct z as [|p|p]; try lia.
  apply of_Z_pos_finite.
  apply (digits2_pos_bound 53). exact (proj2 Hz).
Qed.

Lemma of_Z_neg_finite (p : positive) :
  Zpos (digits2_pos p) <= 53 ->
  exists m e, of_Z (Zneg p) = S754_finite true m e.
Proof.
  intros Hd.
  unfold of_Z, binary_normalize, binary_round.
  assert (Hfexp : fexp prec emax (Zpos (digits2_pos p) + 0) = Zpos (digits2_pos p) - 53).
  { unfold fexp, emin, prec, emax. lia. }
  rewrite Hfexp.
  unfold shl_align.
  destruct (Zpos (digits2_pos p) - 53 - 0) as [|q|q] eqn:Hq; [|lia|].
  - rewrite binary_round_aux_canonical by lia. eauto.
  - rewrite binary_round_aux_canonical; eauto; [|lia].
    rewrite digits2_pos_iter_xO. lia.
Qed.

(** An integer other than 0 and below 2^53 in magnitude is a finite float. *)
Lemma of_Z_nonzero_finite (z : Z) :
  z <> 0 -> - 2 ^ 53 < z < 2 ^ 53 ->
  exists s m e, of_Z z = S754_finite s m e.
Proof.
  intros Hne Hz. destruct z as [|p|p]; [congruence| |].
  - destruct (of_Z_small_finite (Zpos p)) as (m & e & ->); [lia|eauto].
  - destruct (of_Z_neg_finite p) as (m & e & ->); [|eauto].
    apply (digits2_pos_bound 53). lia.
Qed.

End Float64Facts.

Section DisplayFacts.
Import Float64 Numpy Display.

(** A value of the element type is not changed by wrapping. *)
Lemma wrap_fits (d : dtype) (z : Z) :
  dtype_min d <= z <= dtype_max d -> wrap d z = z.
Proof.
  unfold wrap, dtype_min, dtype_max. intros Hz.
  destruct d; cbn [signed bits] in *; cbn in Hz |- *.
  - apply Z.mod_small. lia.
  - apply Z.mod_small. lia.
  - rewrite Z.mod_small by lia. lia.
  - rewrite Z.mod_small by lia. lia.
Qed.

(** A difference of two distinct values of the element type does not wrap
    to 0, whether or not it fits the type. *)
Lemma wrap_span (d : dtype) (z : Z) :
  0 < z <= dtype_max d - dtype_min d ->
  wrap d z <> 0 /\ - 2 ^ 53 < wrap d z < 2 ^ 53.
Proof.
  unfold wrap, dtype_min, dtype_max. intros Hz.
  destruct d; cbn [signed bits] in *; cbn in Hz |- *.
  - rewrite Z.mod_small by lia. lia.
  - rewrite Z.mod_small by lia. lia.
  - Z.div_mod_to_equations. lia.
  - Z.div_mod_to_equations. lia.
Qed.

Lemma wrap_0 (d : dtype) : wrap d 0 = 0.
Proof. destruct d; reflexivity. Qed.

(** The largest sample is sent to 255: the two differences are equal, also
    when they wrap. *)
Lemma rescale_max (d : dtype) (mn mx : Z) :
  dtype_min d <= mn -> mn < mx -> mx <= dtype_max d ->
  rescale d mn mx mx = 255.
Proof.
  intros H0 Hlt Hmx. unfold rescale.
  destruct (wrap_span d (mx - mn)) as (Hne & Hb); [lia|].
  destruct (of_Z_nonzero_finite _ Hne Hb) as (s & m & e & ->).
  rewrite div_self. reflexivity.
Qed.

(** The smallest sample is sent to 0. *)
Lemma rescale_min (d : dtype) (mn mx : Z) :
  dtype_min d <= mn -> mn < mx -> mx <= dtype_max d ->
  rescale d mn mx mn = 0.
Proof.
  intros H0 Hlt Hmx. unfold rescale.
  destruct (wrap_span d (mx - mn)) as (Hne & Hb); [lia|].
  destruct (of_Z_nonzero_finite _ Hne Hb) as (s & m & e & ->).
  rewrite Z.sub_diag, wrap_0. destruct s; reflexivity.
Qed.

(** Where neither difference wraps, the rescaling is the linear one. *)
Lemma rescale_linear (d : dtype) (mn mx v : Z) :
  mn <= v <= mx -> mx - mn <= dtype_max d ->
  rescale d mn mx v
  = astype_uint8 (mul (div (of_Z (v - mn)) (of_Z (mx - mn))) (of_Z 255)).
Proof.
  intros Hv Hspan. unfold rescale.
  assert (Hmin : dtype_min d <= 0) by (destruct d; cbn; lia).
  now rewrite !wrap_fits by lia.
Qed.

(** In an unsigned type the span of the samples fits the type. *)
Lemma unsigned_span (d : dtype) (mn mx : Z) :
  signed d = false -> dtype_min d <= mn -> mx <= dtype_max d ->
  mx - mn <= dtype_max d.
Proof. unfold dtype_min. intros ->. lia. Qed.

Lemma foldr_min_spec (v : Z) (vs : list Z) :
  foldr Z.min v vs ∈ v :: vs /\ forall x, x ∈ v :: vs -> foldr Z.min v vs <= x.
Proof.
  induction vs as [|w vs [IHin IHle]]; simpl.
  - split; [left|]. intros x Hx. apply list_elem_of_singleton in Hx. lia.
  - split.
    + destruct (Z.min_spec w (foldr Z.min v vs)) as [[_ ->]|[_ ->]].
      * right; left.
      * apply elem_of_cons in IHin as [->|Hin]; [left|right; now right].
    + intros x Hx.
      assert (Hc : x = w \/ x ∈ v :: vs).
      { apply elem_of_cons in Hx as [->|Hx]; [right; left|].
        apply elem_of_cons in Hx as [->|Hx]; [now left|right; now right]. }
      destruct Hc as [->|Hc]; [lia|]. specialize (IHle x Hc). lia.
Qed.

Lemma foldr_max_spec (v : Z) (vs : list Z) :
  foldr Z.max v vs ∈ v :: vs /\ forall x, x ∈ v :: vs -> x <= foldr Z.max v vs.
Proof.
  induction vs as [|w vs [IHin IHle]]; simpl.
  - split; [left|]. intros x Hx. apply list_elem_of_singleton in Hx. lia.
  - split.
    + destruct (Z.max_spec w (foldr Z.max v vs)) as [[_ ->]|[_ ->]].
      * apply elem_of_cons in IHin as [->|Hin]; [left|right; now right].
      * right; left.
    + intros x Hx.
      assert (Hc : x = w \/ x ∈ v :: vs).
      { apply elem_of_cons in Hx as [->|Hx]; [right; left|].
        apply elem_of_cons in Hx as [->|Hx]; [now left|right; now right]. }
      destruct Hc as [->|Hc]; [lia|]. specialize (IHle x Hc). lia.
Qed.

(** A sample of a pixel of the frame is one of the frame's samples. *)
Lemma pixel_samples (a : ndarray) (i j : nat) (p : list Z) (v : Z) :
  pixel_at (rows a) i j = Some p -> v ∈ p -> v ∈ samples a.
Proof.
  unfold pixel_at, samples. intros Hp Hv.
  destruct (rows a !! i) as [r|] eqn:Hr; [|discriminate]. simpl in Hp.
  apply list_elem_of_join. exists p. split; [exact Hv|].
  apply list_elem_of_join. exists r. split.
  - eapply list_elem_of_lookup_2, Hp.
  - eapply list_elem_of_lookup_2, Hr.
Qed.

Lemma pixel_at_map_samples (f : Z -> Z) (rs : list (list (list Z))) (i j : nat) :
  pixel_at (map_samples f rs) i j = fmap (M:=list) f <$> pixel_at rs i j.
Proof.
  unfold pixel_at, map_samples. rewrite list_lookup_fmap.
  destruct (rs !! i) as [r|]; simpl; [|reflexivity].
  now rewrite list_lookup_fmap.
Qed.

Lemma pixel_at_map_pixels (conv : list Z -> list Z)
    (rs : list (list (list Z))) (i j : nat) :
  pixel_at ((fun r : list (list Z) => conv <$> r) <$> rs) i j
  = conv <$> pixel_at rs i j.
Proof.
  unfold pixel_at. rewrite list_lookup_fmap.
  destruct (rs !! i) as [r|]; simpl; [|reflexivity].
  now rewrite list_lookup_fmap.
Qed.

Lemma channels_map_samples (d d' : dtype) (n : nat) (f : Z -> Z)
    (rs : list (list (list Z))) :
  channels (mk_ndarray d' n (map_samples f rs)) = channels (mk_ndarray d n rs).
Proof.
  unfold channels; simpl. destruct rs as [|[|p r] rs]; simpl; auto.
  now rewrite length_fmap.
Qed.

Lemma mjoin_cons {A : Type} (x : list A) (l : list (list A)) :
  mjoin (x :: l) = x ++ mjoin l.
Proof. reflexivity. Qed.

Lemma join_fmap_fmap (f : Z -> Z) (r : list (list Z)) :
  mjoin ((fun p : list Z => f <$> p) <$> r) = f <$> mjoin r.
Proof.
  induction r as [|p r IH]; [reflexivity|].
  now rewrite fmap_cons, !mjoin_cons, fmap_app, IH.
Qed.

Lemma samples_map_samples (d d' : dtype) (n : nat) (f : Z -> Z)
    (rs : list (list (list Z))) :
  samples (mk_ndarray d' n (map_samples f rs)) = f <$> samples (mk_ndarray d n rs).
Proof.
  unfold samples, map_samples; cbn [rows].
  induction rs as [|r rs IH]; [reflexivity|].
  now rewrite fmap_cons, !mjoin_cons, !join_app, fmap_app, IH, join_fmap_fmap.
Qed.

Lemma to_rgb_pixel (b : ndarray) (i j : nat) (q : list Z) :
  pixel_at (rows b) i j = Some q -> samples b <> [] ->
  exists out : ndarray,
    to_rgb b = Some out /\ arr_dtype out = arr_dtype b /\
    pixel_at (rows out) i j = Some (rgb_pixel b q).
Proof.
  intros Hq Hs.
  assert (Hcvt : forall conv : list Z -> list Z,
            exists out, cvtColor conv b = Some out /\
                        arr_dtype out = arr_dtype b /\
                        pixel_at (rows out) i j = Some (conv q)).
  { intros conv. unfold cvtColor.
    destruct (samples b) as [|v vs]; [congruence|].
    eexists; split; [reflexivity|]. split; [reflexivity|].
    cbn [rows]. now rewrite pixel_at_map_pixels, Hq. }
  unfold to_rgb, rgb_pixel.
  repeat case_decide; try apply Hcvt.
  exists b. auto.
Qed.

Lemma normalize_pixel (a : ndarray) (i j : nat) (p : list Z) (mn mx : Z) :
  arr_min a = Some mn -> arr_max a = Some mx ->
  pixel_at (rows a) i j = Some p ->
  exists b : ndarray,
    normalize a = Some b /\ arr_dtype b = uint8 /\
    ndim b = ndim a /\ channels b = channels a /\
    (samples a <> [] -> samples b <> []) /\
    pixel_at (rows b) i j = Some (normalized_pixel a mn mx p).
Proof.
  intros Hmn Hmx Hp. unfold normalize, normalized_pixel.
  rewrite Hmn, Hmx. cbn [mbind option_bind].
  destruct a as [d n rs]. cbn [arr_dtype ndim rows] in *.
  case_decide as Hd.
  - case_decide as Hne; eexists; (split; [reflexivity|]);
      (split; [reflexivity|]); (split; [reflexivity|]);
      (split; [apply channels_map_samples|]);
      (split; [rewrite (samples_map_samples d); intros Hs Hs';
               apply fmap_nil_inv in Hs'; contradiction|]);
      cbn [rows]; now rewrite pixel_at_map_samples, Hp.
  - subst d. exists (mk_ndarray uint8 n rs). repeat split; auto.
Qed.




End DisplayFacts.

Section SyncGroupFacts.
Import SyncGroup.

Lemma list_remove_other (x y : nat) (l : list nat) :
  y ∈ l -> y <> x -> y ∈ list_remove x l.
Proof.
  induction l as [|z l IH]; simpl; intros Hy Hne; [exact Hy|].
  case_decide as Hz.
  - subst z. apply elem_of_cons in Hy as [->|Hy]; [contradiction|exact Hy].
  - apply elem_of_cons in Hy as [->|Hy]; [left|right; auto].
Qed.

Lemma list_remove_length (x : nat) (l : list nat) :
  x ∈ l -> S (length (list_remove x l)) = length l.
Proof.
  induction l as [|z l IH]; simpl; intros Hx; [now apply elem_of_nil in Hx|].
  case_decide as Hz; [reflexivity|].
  apply elem_of_cons in Hx as [->|Hx]; [contradiction|].
  simpl. now rewrite IH.
Qed.

Lemma add_player_ok (g : t) (p : nat) : master_ok g -> master_ok (add_player g p).
Proof.
  unfold master_ok, add_player. destruct g as [ps m]; simpl.
  destruct ps as [|q ps]; simpl.
  - intros ->. simpl. exists p. split; [reflexivity|left].
  - intros (x & -> & Hx). simpl. exists x. split; [reflexivity|].
    change (x ∈ (q :: ps) ++ [p]). apply elem_of_app. now left.
Qed.

Lemma remove_player_ok (g : t) (p : nat) :
  master_ok g -> master_ok (remove_player g p).
Proof.
  unfold master_ok, remove_player. destruct g as [ps m]; simpl. intros Hok.
  set (ps' := if decide (p ∈ ps) then list_remove p ps else ps).
  destruct ps' as [|first rest] eqn:Eps; simpl; [reflexivity|].
  case_decide as Hm; simpl.
  - exists first. split; [reflexivity|left].
  - destruct ps as [|q ps0].
    { subst ps'. case_decide as Hin; [now apply elem_of_nil in Hin|discriminate]. }
    destruct Hok as (x & -> & Hx). exists x. split; [reflexivity|].
    rewrite <- Eps. subst ps'. case_decide as Hin; [|exact Hx].
    apply list_remove_other; [exact Hx|congruence].
Qed.

Lemma run_ok (ops : list op) : master_ok (run ops).
Proof.
  unfold run. generalize init (eq_refl : master_ok init).
  induction ops as [|o ops IH]; intros g Hg; simpl; [exact Hg|].
  apply IH. destruct o; [now apply add_player_ok|now apply remove_player_ok].
Qed.

(** The master is the first of the members. *)
Lemma master_is_head_step (g : t) (o : op) :
  master g = head (players g) -> master (step g o) = head (players (step g o)).
Proof.
  destruct g as [ps m]. cbn [master players]. intros ->. destruct o as [p|p].
  - cbn [step]. unfold add_player, set_master. cbn [master players].
    destruct ps as [|q ps]; reflexivity.
  - cbn [step]. unfold remove_player, set_master. cbn [master players].
    case_decide as Hin.
    + destruct ps as [|q ps]; [now apply elem_of_nil in Hin|].
      cbn [list_remove head]. case_decide as Hq.
      * subst q. destruct ps as [|r ps]; [reflexivity|].
        case_decide; [reflexivity|congruence].
      * case_decide as Hm; [congruence|reflexivity].
    + destruct ps as [|q ps]; [reflexivity|].
      cbn [head]. case_decide as Hm; [|reflexivity].
      exfalso. apply Hin. injection Hm as ->. left.
Qed.

Lemma master_is_head (ops : list op) :
  master (run ops) = head (players (run ops)).
Proof.
  unfold run. generalize init (eq_refl : master init = head (players init)).
  induction ops as [|o ops IH]; intros g Hg; simpl; [exact Hg|].
  apply IH. now apply master_is_head_step.
Qed.

Lemma list_remove_absent (x : nat) (l : list nat) :
  x ∉ l -> list_remove x l = l.
Proof.
  induction l as [|y l IH]; intros Hx; [reflexivity|]. simpl.
  case_decide as Hy; [exfalso; apply Hx; subst; left|].
  f_equal. apply IH. intros Hin. apply Hx. now right.
Qed.

Lemma run_adds (l : list nat) (g : t) :
  players (foldl step g (Add <$> l)) = players g ++ l.
Proof.
  revert g. induction l as [|p l IH]; intros g; simpl.
  - now rewrite app_nil_r.
  - rewrite IH.
    assert (Hp : players (add_player g p) = players g ++ [p])
      by (unfold add_player, set_master; destruct (master g); reflexivity).
    rewrite Hp, <- app_assoc. reflexivity.
Qed.

(** C5. For the group [g] reached from a new one by any sequence of
    additions and removals, and any player [p]: if [g] has members its
    master is one of them, and without members it has no master; removing
    the master [p] from [g] of two or more members leaves the members
    without the first occurrence of [p], and the first of them, the
    earliest-added one, is the master; removing the only member leaves no
    member and no master; adding [p] to [g] without a master makes [p] the
    master. The list of members is in the order of addition: a player
    added is placed after all the members, a removal takes one occurrence
    away and keeps the others in their order, and the master is always the
    first of the list. In particular, when [p], [q] and then the players
    of [rest] were added to a new group, [p] is the master and removing it
    makes [q], the earliest-added of those who remain, the master. *)
Theorem sync_group_master_promotion (ops : list op) (p : nat) :
  let g := run ops in
  (players g <> [] -> exists m, master g = Some m /\ m ∈ players g) /\
  (players g = [] -> master g = None) /\
  (master g = Some p -> (2 <= length (players g))%nat ->
     players (remove_player g p) = list_remove p (players g) /\
     exists first, head (players (remove_player g p)) = Some first /\
                   master (remove_player g p) = Some first) /\
  (players g = [p] ->
     players (remove_player g p) = [] /\ master (remove_player g p) = None) /\
  (master g = None -> master (add_player g p) = Some p) /\
  (forall q, players (add_player g q) = players g ++ [q]) /\
  (forall q, players (remove_player g q) = list_remove q (players g)) /\
  master g = head (players g) /\
  (forall q, master (remove_player g q) = head (players (remove_player g q))) /\
  (forall (q : nat) (rest : list nat),
     ops = Add <$> p :: q :: rest ->
     players g = p :: q :: rest /\ master g = Some p /\
     players (remove_player g p) = q :: rest /\
     master (remove_player g p) = Some q).
Proof.
  intros g. pose proof (run_ok ops) as Hok. fold g in Hok.
  unfold master_ok in Hok.
  assert (Hrem : forall q, players (remove_player g q)
                           = list_remove q (players g)).
  { intros q. unfold remove_player.
    case_decide as Hin.
    - destruct (list_remove q (players g)); [reflexivity|].
      case_decide; reflexivity.
    - rewrite (list_remove_absent q (players g) Hin).
      destruct (players g); [reflexivity|]. case_decide; reflexivity. }
  assert (Hhead : forall q, master (remove_player g q)
                            = head (players (remove_player g q))).
  { intros q. change (remove_player g q) with (step g (Remove q)).
    apply master_is_head_step, master_is_head. }
  split; [|split; [|split; [|split; [|split; [|split; [|split;
    [|split; [|split]]]]]]]].
  - intros Hne. destruct (players g); [congruence|exact Hok].
  - intros Hnil. now rewrite Hnil in Hok.
  - intros Hm Hlen.
    assert (Hin : p ∈ players g).
    { destruct (players g); [simpl in Hlen; lia|].
      destruct Hok as (x & Hx & Hxin). congruence. }
    pose proof (list_remove_length p (players g) Hin) as Hl.
    unfold remove_player. case_decide; [|contradiction].
    destruct (list_remove p (players g)) as [|first rest] eqn:Er;
      [simpl in Hl; lia|].
    case_decide; [|contradiction]. simpl. split; [reflexivity|]. eauto.
  - intros Hp. unfold remove_player. rewrite Hp.
    case_decide as Hin; [|exfalso; apply Hin; left].
    simpl. case_decide; [|congruence]. now split.
  - intros Hm. unfold add_player. now rewrite Hm.
  - intros q. unfold add_player, set_master.
    destruct (master g); reflexivity.
  - exact Hrem.
  - apply master_is_head.
  - exact Hhead.
  - intros q rest Hops.
    assert (Hps : players g = p :: q :: rest).
    { unfold g, run. rewrite Hops. now rewrite run_adds. }
    assert (Hm : master g = Some p).
    { pose proof (master_is_head ops) as Hh. fold g in Hh. now rewrite Hh, Hps. }
    assert (Hps' : players (remove_player g p) = q :: rest).
    { rewrite Hrem, Hps. cbn [list_remove]. case_decide; [reflexivity|congruence]. }
    split; [exact Hps|]. split; [exact Hm|]. split; [exact Hps'|].
    now rewrite Hhead, Hps'.
Qed.

(** Three players 1, 2, 3 are added and the master 1 is removed: 2 is the
    master; after 2 and 3 are removed too there is none. *)
Lemma sync_group_master_promotion_example :
  master (run [Add 1; Add 2; Add 3]) = Some 1%nat /\
  master (run [Add 1; Add 2; Add 3; Remove 1]) = Some 2%nat /\
  players (run [Add 1; Add 2; Add 3; Remove 1]) = [2; 3]%nat /\
  master (run [Add 1; Add 2; Add 3; Remove 1; Remove 2; Remove 3]) = None.
Proof. vm_compute. repeat split. Qed.

End SyncGroupFacts.

Section PlayerFacts.
Import Player.

(** At the first frame [prev_frame] returns at once: nothing is paused,
    nothing is sought, the world is as it was. (C2 asks for a step to the
    last frame; the branch of [prev_frame] that would take it is never
    reached.) *)
Theorem prev_frame_at_first_frame_returns (w : world) (id : nat)
    (x : VideoPlayerWindow) :
  windows w !! id = Some x -> current_frame_index x <= 0 ->
  prev_frame id w = Some (tt, w).
Proof.
  intros Hx Hi. unfold prev_frame, mbind, W_bind, get. rewrite Hx.
  destruct (loader_thread x); [|reflexivity].
  assert (Hle : (current_frame_index x <=? 0) = true) by now apply Z.leb_le.
  now rewrite Hle.
Qed.

(** A playing window at frame 0 of a 10-frame file: [prev_frame] changes
    nothing, although frame 9 is the frame before. *)
Lemma prev_frame_at_first_frame_witness :
  prev_frame 0 (single (loaded_window false true 0))
  = Some (tt, single (loaded_window false true 0)) /\
  window_after (prev_frame 0) (single (loaded_window false true 0)) 0
  = Some (loaded_window false true 0).
Proof.
  assert (H := prev_frame_at_first_frame_returns
                 (single (loaded_window false true 0)) 0
                 (loaded_window false true 0) eq_refl).
  split; [apply H; simpl; lia|].
  unfold window_after. rewrite H; [reflexivity|simpl; lia].
Defined.

(** [next_frame] at the last frame of a playing master: it is paused, a
    loader is started at frame 0, and it plays again; the follower is
    paused and resumed with it. *)
Lemma next_frame_wraps_example :
  window_after (next_frame 0)
    (synced (loaded_window true true 9) (loaded_window true true 9)) 0
  = Some (mk_window (Some "a.mp4") true 0 10 30 true
            (Some (mk_loader "a.mp4" 0 [slot_preserve_position]))
            (Some 33) (mk_slider 0 9 9) 30 9 9 (0, 9)) /\
  events_after (next_frame 0)
    (synced (loaded_window true true 9) (loaded_window true true 9))
  = Some [LoaderStopped 0 (mk_loader "a.mp4" 0 [slot_preserve_position]);
          LoaderStarted 0 (mk_loader "a.mp4" 0 [slot_preserve_position]);
          SingleShotUpdateAfterSeek 0].
Proof. vm_compute. split; reflexivity. Qed.

(** A window shows frame 7 of "a.mp4" and a second file of 20 frames is
    opened in it with [load_video]. The loader's [loading_finished] is
    connected to the position-preserving slot, so when the loader reports
    20 frames the index, the slider and the label still show 7: nothing is
    reset to 0. (C3 asks for a reset on a first-open load; the slot that
    resets, [on_loading_finished], is connected by no path of the code.)
    Run on the same window, [on_loading_finished] does reset all three. *)
Lemma load_video_first_open_example :
  let w := single (loaded_window false false 7) in
  let shown (x : VideoPlayerWindow) :=
    (current_frame_index x, value (frame_slider x), current_frame_display x,
     total_frames_display x, maximum (frame_slider x)) in
  (loader_thread <$>
     window_after (load_video 0 "b.mp4") w 0)
  = Some (Some (mk_loader "b.mp4" 0 [slot_preserve_position])) /\
  (shown <$> window_after (load_video 0 "b.mp4";; loading_finished 0 20 30) w 0)
  = Some (7, 7, 7, 19, 19) /\
  (shown <$> window_after (load_video 0 "b.mp4";; on_loading_finished 0 20 30) w 0)
  = Some (0, 0, 0, 19, 19).
Proof. vm_compute. repeat split. Qed.

(** A seek-triggered reload keeps the position as well: after
    [_seek_to_frame 0 4] the report of the loader leaves index 4. *)
Lemma seek_reload_keeps_position_example :
  (current_frame_index <$>
     window_after (_seek_to_frame 0 4;; loading_finished 0 10 30)
       (single (loaded_window false false 7)) 0)
  = Some 4.
Proof. vm_compute. reflexivity. Qed.

Lemma for_each_noop {A : Type} (l : list A) (body : A -> W unit) (w : world) :
  (forall a, a ∈ l -> body a w = Some (tt, w)) ->
  for_each l body w = Some (tt, w).
Proof.
  induction l as [|a l IH]; intros Hb; [reflexivity|].
  simpl. unfold mbind, W_bind. rewrite (Hb a) by left.
  apply IH. intros b Hbl. apply Hb. now right.
Qed.

Lemma modify_modify (id : nat) (f g : VideoPlayerWindow -> VideoPlayerWindow)
    (w : world) (x : VideoPlayerWindow) :
  windows w !! id = Some x ->
  (modify id f;; modify id g) w
  = Some (tt, mk_world (<[id := g (f x)]> (windows w)) (group w) (events w)).
Proof.
  intros Hx. unfold mbind, W_bind, modify. rewrite Hx. simpl.
  assert (Hlt : (id < length (windows w))%nat) by (eapply lookup_lt_Some, Hx).
  rewrite list_lookup_insert_eq by exact Hlt.
  now rewrite list_insert_insert_eq.
Qed.

(** On a window that is not the master of its group [stop_playback] and
    [start_playback] notify nobody: they are their bodies, which is how
    [set_sync_playing] runs them. *)
Lemma stop_playback_not_master (w : world) (id : nat) (x : VideoPlayerWindow) :
  windows w !! id = Some x ->
  sync_group x && SyncGroup.is_master (group w) id = false ->
  stop_playback id w = stop_playback_body id w.
Proof.
  intros Hx Hm.
  assert (Hlt : (id < length (windows w))%nat) by (eapply lookup_lt_Some, Hx).
  unfold stop_playback, stop_playback_body, is_sync_master, the_group.
  unfold mbind, W_bind, modify, get, mret, W_ret. rewrite Hx.
  cbn [windows group events].
  repeat (rewrite list_lookup_insert_eq by (rewrite ?length_insert; exact Hlt);
          cbn [windows group events sync_group set_is_playing set_timer]).
  now rewrite Hm.
Qed.

Lemma start_playback_not_master (w : world) (id : nat) (x : VideoPlayerWindow) :
  windows w !! id = Some x ->
  sync_group x && SyncGroup.is_master (group w) id = false ->
  start_playback id w
  = (_ ← start_playback_body id; mret tt) w.
Proof.
  intros Hx Hm.
  assert (Hlt : (id < length (windows w))%nat) by (eapply lookup_lt_Some, Hx).
  unfold start_playback, start_playback_body, is_sync_master, the_group.
  unfold timer_interval, raise.
  unfold mbind, W_bind, modify, get, mret, W_ret. rewrite Hx.
  destruct (loader_thread x); [|reflexivity].
  rewrite Hx. cbn [windows group events].
  destruct (Float64.mul (Float64.of_Z (fps x)) playback_speed); try reflexivity;
    repeat (cbn [windows group events sync_group set_is_playing set_timer when];
            rewrite list_lookup_insert_eq by (rewrite ?length_insert; exact Hlt));
    cbn [windows group events sync_group set_is_playing set_timer when];
    now rewrite Hm.
Qed.

End PlayerFacts.

(** Calls that keep a projection of the windows, for a projection that
    does not look at the playing flag, the timer, the rate, its spin box,
    the total and its label. *)
Section Keeps.
Import Player.
Context {B : Type} (proj : VideoPlayerWindow -> B).
Hypothesis proj_is_playing : forall v x, proj (set_is_playing v x) = proj x.
Hypothesis proj_timer : forall v x, proj (set_timer v x) = proj x.
Hypothesis proj_fps : forall v x, proj (set_fps v x) = proj x.
Hypothesis proj_fps_spinbox : forall v x, proj (set_fps_spinbox v x) = proj x.

Lemma keeps_ret {A : Type} (a : A) : keeps proj (mret a).
Proof. intros w b w' H. now injection H as <- <-. Qed.

Lemma keeps_raise {A : Type} : keeps proj (@raise A).
Proof. intros w b w' H. discriminate H. Qed.

Lemma keeps_bind {A C : Type} (m : W A) (k : A -> W C) :
  keeps proj m -> (forall a, keeps proj (k a)) -> keeps proj (m ≫= k).
Proof.
  intros Hm Hk w c w' H. unfold mbind, W_bind in H.
  destruct (m w) as [[a w1]|] eqn:E; [|discriminate].
  rewrite (Hk a w1 c w' H). exact (Hm w a w1 E).
Qed.

Lemma keeps_get (id : nat) : keeps proj (get id).
Proof.
  intros w x w' H. unfold get in H.
  destruct (windows w !! id); [|discriminate]. now injection H as <- <-.
Qed.

Lemma keeps_the_group : keeps proj the_group.
Proof. intros w g w' H. now injection H as <- <-. Qed.

Lemma keeps_emit (e : event) : keeps proj (emit e).
Proof. intros w u w' H. now injection H as <- <-. Qed.

Lemma keeps_modify (id : nat) (f : VideoPlayerWindow -> VideoPlayerWindow) :
  (forall x, proj (f x) = proj x) -> keeps proj (modify id f).
Proof.
  intros Hf w u w' H. unfold modify in H.
  destruct (windows w !! id) as [x|] eqn:Hx; [|discriminate].
  injection H as <- <-. cbn [windows].
  rewrite list_fmap_insert, Hf. apply list_insert_id.
  now rewrite list_lookup_fmap, Hx.
Qed.

Lemma keeps_when (b : bool) (m : W unit) :
  keeps proj m -> keeps proj (when b m).
Proof. intros Hm. destruct b; [exact Hm|apply keeps_ret]. Qed.

Lemma keeps_for_each {A : Type} (l : list A) (body : A -> W unit) :
  (forall a, keeps proj (body a)) -> keeps proj (for_each l body).
Proof.
  intros Hb. induction l as [|a l IH]; simpl; [apply keeps_ret|].
  apply keeps_bind; [apply Hb|intros _; exact IH].
Qed.

Lemma keeps_timer_interval (fps : Z) : keeps proj (timer_interval fps).
Proof.
  unfold timer_interval.
  destruct (Float64.mul (Float64.of_Z fps) playback_speed);
    first [apply keeps_raise|apply keeps_ret].
Qed.

Lemma keeps_is_sync_master (id : nat) : keeps proj (is_sync_master id).
Proof.
  unfold is_sync_master.
  apply keeps_bind; [apply keeps_get|intros x].
  apply keeps_bind; [apply keeps_the_group|intros g]. apply keeps_ret.
Qed.

Lemma keeps_start_playback_body (id : nat) : keeps proj (start_playback_body id).
Proof.
  unfold start_playback_body.
  apply keeps_bind; [apply keeps_get|intros x].
  destruct (loader_thread x); [|apply keeps_ret].
  apply keeps_bind; [now apply keeps_modify|intros _].
  apply keeps_bind; [apply keeps_timer_interval|intros i].
  apply keeps_bind; [now apply keeps_modify|intros _]. apply keeps_ret.
Qed.

Lemma keeps_stop_playback_body (id : nat) : keeps proj (stop_playback_body id).
Proof.
  unfold stop_playback_body.
  apply keeps_bind; [now apply keeps_modify|intros _]. now apply keeps_modify.
Qed.

Lemma keeps_set_playing (playing : bool) : keeps proj (set_playing playing).
Proof.
  unfold set_playing.
  apply keeps_bind; [apply keeps_the_group|intros g].
  apply keeps_for_each. intros q. apply keeps_when. unfold set_sync_playing.
  apply keeps_bind; [apply keeps_get|intros x].
  destruct (playing && negb (is_playing x)).
  - apply keeps_bind; [apply keeps_start_playback_body|intros _; apply keeps_ret].
  - destruct (negb playing && is_playing x);
      [apply keeps_stop_playback_body|apply keeps_ret].
Qed.

Lemma keeps_start_playback (id : nat) : keeps proj (start_playback id).
Proof.
  unfold start_playback.
  apply keeps_bind; [apply keeps_start_playback_body|intros started].
  apply keeps_when.
  apply keeps_bind; [apply keeps_is_sync_master|intros m].
  apply keeps_when, keeps_set_playing.
Qed.

Lemma keeps_stop_playback (id : nat) : keeps proj (stop_playback id).
Proof.
  unfold stop_playback.
  apply keeps_bind; [apply keeps_stop_playback_body|intros _].
  apply keeps_bind; [apply keeps_is_sync_master|intros m].
  apply keeps_when, keeps_set_playing.
Qed.

Lemma keeps_fps_changed_body (id : nat) : keeps proj (fps_changed_body id).
Proof.
  unfold fps_changed_body.
  apply keeps_bind; [apply keeps_get|intros x].
  apply keeps_bind; [now apply keeps_modify|intros _].
  apply keeps_bind; [|intros _; apply keeps_ret].
  apply keeps_when.
  apply keeps_bind; [apply keeps_timer_interval|intros i].
  now apply keeps_modify.
Qed.

Lemma keeps_fps_spinbox_setValue (id : nat) (v : Z) :
  keeps proj (fps_spinbox_setValue id v).
Proof.
  unfold fps_spinbox_setValue.
  apply keeps_bind; [apply keeps_get|intros x]. apply keeps_when.
  apply keeps_bind; [now apply keeps_modify|intros _].
  unfold fps_changed.
  apply keeps_bind; [apply keeps_fps_changed_body|intros n].
  apply keeps_bind; [apply keeps_is_sync_master|intros m].
  apply keeps_when. unfold group_set_fps.
  apply keeps_bind; [apply keeps_the_group|intros g].
  apply keeps_for_each. intros q. apply keeps_when. unfold set_sync_fps.
  apply keeps_bind; [apply keeps_get|intros y]. apply keeps_when.
  apply keeps_bind; [now apply keeps_modify|intros _].
  apply keeps_bind; [apply keeps_fps_changed_body|intros _; apply keeps_ret].
Qed.

End Keeps.

Section LoadingFacts.
Import Player.

Lemma bind_inv {A C : Type} (m : W A) (k : A -> W C) (w w' : world) (c : C) :
  (m ≫= k) w = Some (c, w') ->
  exists (a : A) (w1 : world), m w = Some (a, w1) /\ k a w1 = Some (c, w').
Proof.
  unfold mbind, W_bind. destruct (m w) as [[a w1]|]; [|discriminate]. eauto.
Qed.

Lemma get_inv (id : nat) (w w' : world) (x : VideoPlayerWindow) :
  get id w = Some (x, w') -> windows w !! id = Some x /\ w' = w.
Proof.
  unfold get. destruct (windows w !! id); [|discriminate].
  intros H. now injection H as <- <-.
Qed.

Lemma emit_inv (e : event) (w w' : world) (u : unit) :
  emit e w = Some (u, w') ->
  w' = mk_world (windows w) (group w) (events w ++ [e]).
Proof. intros H. now injection H as _ <-. Qed.

Lemma modify_inv (id : nat) (f : VideoPlayerWindow -> VideoPlayerWindow)
    (w w' : world) (u : unit) :
  modify id f w = Some (u, w') ->
  exists x, windows w !! id = Some x /\
            w' = mk_world (<[id := f x]> (windows w)) (group w) (events w).
Proof.
  unfold modify. destruct (windows w !! id) as [x|]; [|discriminate].
  intros H. injection H as _ <-. eauto.
Qed.

Lemma lookup_of_fmap_eq {B : Type} (proj : VideoPlayerWindow -> B)
    (l l' : list VideoPlayerWindow) (id : nat) (x : VideoPlayerWindow) :
  proj <$> l' = proj <$> l -> l !! id = Some x ->
  exists x', l' !! id = Some x' /\ proj x' = proj x.
Proof.
  intros Hl Hx.
  assert (H : (proj <$> l') !! id = Some (proj x))
    by now rewrite Hl, list_lookup_fmap, Hx.
  rewrite list_lookup_fmap in H.
  destruct (l' !! id) as [x'|]; [|discriminate]. injection H as H. eauto.
Qed.

Lemma position_of_view (x y : VideoPlayerWindow) :
  view x = view y -> position x = position y.
Proof. unfold view, position. intros H. injection H as -> -> ->. reflexivity. Qed.

Lemma position_of_views (l l' : list VideoPlayerWindow) :
  view <$> l' = view <$> l -> position <$> l' = position <$> l.
Proof.
  revert l. induction l' as [|x' l' IH]; intros [|x l] H; try discriminate H;
    [reflexivity|].
  rewrite !fmap_cons in *.
  assert (Hx : Some (view x') = Some (view x)) by exact (f_equal head H).
  assert (Hl : view <$> l' = view <$> l) by exact (f_equal tail H).
  apply (inj Some) in Hx.
  f_equal; [now apply position_of_view|now apply IH].
Qed.

Lemma keeps_view_position {A : Type} (m : W A) :
  keeps view m -> keeps position m.
Proof. intros Hm w a w' H. apply position_of_views, (Hm w a w' H). Qed.

(** A new maximum that leaves the slider's value inside the range moves
    only the range. *)
Lemma frame_slider_setMaximum_in_range (id : nat) (m : Z) (w w' : world)
    (x : VideoPlayerWindow) :
  windows w !! id = Some x ->
  Z.min (minimum (frame_slider x)) m <= value (frame_slider x) <= m ->
  frame_slider_setMaximum id m w = Some (tt, w') ->
  w' = mk_world
         (<[id := set_frame_slider
                    (mk_slider (Z.min (minimum (frame_slider x)) m) m
                       (value (frame_slider x))) x]> (windows w))
         (group w) (events w).
Proof.
  intros Hx Hr. unfold frame_slider_setMaximum, mbind, W_bind, get.
  rewrite Hx. cbn [minimum maximum value].
  assert (Hlt : (id < length (windows w))%nat) by (eapply lookup_lt_Some, Hx).
  case_bool_decide as Hch; cbn [when].
  - unfold modify. rewrite Hx. cbn [windows group events].
    unfold frame_slider_setValue, mbind, W_bind, get. cbn [windows].
    rewrite list_lookup_insert_eq by exact Hlt.
    cbn [frame_slider set_frame_slider minimum maximum value].
    unfold slider_bound. cbn [minimum maximum value].
    case_bool_decide as Hv; [lia|]. cbn [when]. intros H. now injection H as <-.
  - intros H. injection H as <-. destruct w as [ws g ev]. cbn in *. f_equal.
    symmetry. apply list_insert_id. rewrite Hx. f_equal.
    destruct x as [? ? ? ? ? ? ? ? [mn mx v] ? ? ? ?]. cbn in *.
    unfold set_frame_slider; cbn. do 2 f_equal; lia.
Qed.

(** The position-preserving slot: the position of every window is kept,
    and the window shows the new total and has the new range. *)
Lemma preserve_position_run (id : nat) (total fps : Z) (w w' : world)
    (x : VideoPlayerWindow) :
  windows w !! id = Some x ->
  Z.min (minimum (frame_slider x)) (total - 1) <= value (frame_slider x)
    <= total - 1 ->
  _on_loading_finished_preserve_position id total fps w = Some (tt, w') ->
  position <$> windows w' = position <$> windows w /\
  exists x', windows w' !! id = Some x' /\
             total_frames_display x' = total - 1 /\
             maximum (frame_slider x') = total - 1.
Proof.
  intros Hx Hr Hrun. unfold _on_loading_finished_preserve_position in Hrun.
  apply bind_inv in Hrun as (u1 & w1 & H1 & Hrun).
  apply bind_inv in Hrun as (u2 & w2 & H2 & Hrun).
  apply bind_inv in Hrun as (u3 & w3 & H3 & Hrun).
  apply bind_inv in Hrun as ([] & w4 & H4 & H5).
  assert (Hview : view <$> windows w3 = view <$> windows w).
  { assert (K3 : keeps view (fps_spinbox_setValue id fps))
      by (apply keeps_fps_spinbox_setValue; reflexivity).
    rewrite (K3 w2 u3 w3 H3).
    rewrite (keeps_modify view id (set_fps fps) (fun _ => eq_refl) w1 u2 w2 H2).
    exact (keeps_modify view id (set_total_frames total) (fun _ => eq_refl)
             w u1 w1 H1). }
  destruct (lookup_of_fmap_eq view _ _ id x Hview Hx) as (x3 & Hx3 & Hv3).
  assert (Hs3 : frame_slider x3 = frame_slider x)
    by (unfold view in Hv3; now injection Hv3).
  rewrite <- Hs3 in Hr.
  pose proof (frame_slider_setMaximum_in_range id (total - 1) w3 w4 x3 Hx3 Hr H4)
    as Hw4.
  apply modify_inv in H5 as (x4 & Hx4 & ->).
  assert (Hlt : (id < length (windows w3))%nat) by (eapply lookup_lt_Some, Hx3).
  subst w4. cbn [windows group events] in *.
  rewrite list_lookup_insert_eq in Hx4 by exact Hlt. injection Hx4 as <-.
  rewrite list_insert_insert_eq. split.
  - rewrite list_fmap_insert.
    transitivity (position <$> windows w3).
    + apply list_insert_id. rewrite list_lookup_fmap, Hx3. reflexivity.
    + now apply position_of_views.
  - eexists. split; [apply list_lookup_insert_eq; exact Hlt|].
    split; reflexivity.
Qed.

(** [load_video] keeps the position of every window and leaves the window
    with a loader connected to the position-preserving slot. *)
Lemma load_video_run (id : nat) (path : string) (w w' : world) :
  load_video id path w = Some (tt, w') ->
  position <$> windows w' = position <$> windows w /\
  loader_thread <$> windows w' !! id
  = Some (Some (mk_loader path 0 [slot_preserve_position])).
Proof.
  intros Hrun. unfold load_video in Hrun.
  apply bind_inv in Hrun as (u1 & w1 & H1 & Hrun).
  apply bind_inv in Hrun as (u2 & w2 & H2 & Hrun).
  apply bind_inv in Hrun as (u3 & w3 & H3 & Hrun).
  apply bind_inv in Hrun as (u4 & w4 & H4 & H5).
  split.
  - assert (K5 : keeps position (start_playback id))
      by (apply keeps_start_playback; reflexivity).
    assert (K1 : keeps position (stop_playback id))
      by (apply keeps_stop_playback; reflexivity).
    rewrite (K5 w4 tt w' H5).
    rewrite (keeps_emit position _ w3 u4 w4 H4).
    rewrite (keeps_modify position id (set_loader_thread _)
               (fun _ => eq_refl) w2 u3 w3 H3).
    rewrite (keeps_modify position id (set_file_path _)
               (fun _ => eq_refl) w1 u2 w2 H2).
    exact (K1 w u1 w1 H1).
  - assert (K5 : keeps loader_thread (start_playback id))
      by (apply keeps_start_playback; reflexivity).
    assert (Hl : loader_thread <$> windows w' = loader_thread <$> windows w3).
    { rewrite (K5 w4 tt w' H5).
      exact (keeps_emit loader_thread _ w3 u4 w4 H4). }
    apply modify_inv in H3 as (x2 & Hx2 & ->).
    assert (H : (loader_thread <$> windows w') !! id
                = Some (Some (mk_loader path 0 [slot_preserve_position]))).
    { rewrite Hl. cbn [windows]. rewrite list_lookup_fmap.
      rewrite list_lookup_insert_eq by (eapply lookup_lt_Some, Hx2).
      reflexivity. }
    rewrite list_lookup_fmap in H. exact H.
Qed.

(** [_seek_to_frame] leaves the window at the frame sought, with a loader
    connected to the position-preserving slot. *)
Lemma seek_to_frame_run (id : nat) (k : Z) (w w' : world) :
  _seek_to_frame id k w = Some (tt, w') ->
  exists (x x' : VideoPlayerWindow) (path : string),
    windows w !! id = Some x /\ windows w' !! id = Some x' /\
    current_frame_index x' = k /\
    frame_slider x' = frame_slider x /\
    loader_thread x' = Some (mk_loader path k [slot_preserve_position]).
Proof.
  intros Hrun. unfold _seek_to_frame in Hrun.
  apply bind_inv in Hrun as (x & w0 & Hget & Hrun).
  apply get_inv in Hget as (Hx & ->).
  apply bind_inv in Hrun as (u1 & w1 & H1 & Hrun).
  assert (Hw1 : windows w1 = windows w).
  { destruct (loader_thread x); [apply emit_inv in H1|injection H1 as _ <-];
      now subst. }
  apply bind_inv in Hrun as (path & w2 & H2 & Hrun).
  assert (Hw2 : w2 = w1).
  { destruct (file_path x); [now injection H2 as _ <-|discriminate H2]. }
  subst w2.
  apply bind_inv in Hrun as (u3 & w3 & H3 & Hrun).
  apply bind_inv in Hrun as (u4 & w4 & H4 & Hrun).
  apply bind_inv in Hrun as (u5 & w5 & H5 & Hrun).
  apply bind_inv in Hrun as (u6 & w6 & H6 & H7).
  apply modify_inv in H3 as (x3 & Hx3 & ->).
  apply emit_inv in H4 as ->. apply emit_inv in H7 as ->.
  apply modify_inv in H5 as (x5 & Hx5 & ->).
  apply modify_inv in H6 as (x6 & Hx6 & ->).
  cbn [windows group events] in *.
  assert (Hlt : (id < length (windows w))%nat) by (eapply lookup_lt_Some, Hx).
  rewrite Hw1 in *. rewrite Hx in Hx3. injection Hx3 as <-.
  rewrite list_lookup_insert_eq in Hx5 by exact Hlt. injection Hx5 as <-.
  rewrite list_lookup_insert_eq in Hx6 by (rewrite ?length_insert; exact Hlt).
  injection Hx6 as <-.
  exists x. eexists _, path. split; [exact Hx|].
  split; [apply list_lookup_insert_eq; rewrite ?length_insert; exact Hlt|].
  repeat split.
Qed.

End LoadingFacts.

Section PlayerSyncFacts.
Import Player.

(** C7. In every world and for every frame index [X]:
    [set_sync_frame X] on a window whose [current_frame_index] is [X]
    returns the world as it was, no loader stopped or started, no field
    changed; [sync_to_frame X], when every member other than the master
    is at [X], returns the world as it was; and the update is applied when
    it differs: on a paused window with a loader at another index,
    [set_sync_frame X] stops the loader, starts one at [X] and sets the
    index to [X]. *)
Theorem set_sync_frame_same_index_noop (w : world) (X : Z) :
  (forall (id : nat) (x : VideoPlayerWindow),
     windows w !! id = Some x -> current_frame_index x = X ->
     set_sync_frame id X w = Some (tt, w)) /\
  ((forall p : nat,
      p ∈ SyncGroup.players (group w) ->
      SyncGroup.is_master (group w) p = false ->
      exists x, windows w !! p = Some x /\ current_frame_index x = X) ->
   sync_to_frame X w = Some (tt, w)) /\
  (forall (id : nat) (x : VideoPlayerWindow) (l : VideoLoaderThread)
          (path : string),
     windows w !! id = Some x -> current_frame_index x <> X ->
     is_playing x = false -> loader_thread x = Some l ->
     file_path x = Some path ->
     let l' := mk_loader path X [slot_preserve_position] in
     set_sync_frame id X w
     = Some (tt, mk_world
                   (<[id := set_current_frame_index X
                              (set_frame_label (X, total_frames x - 1)
                                 (set_loader_thread (Some l') x))]> (windows w))
                   (group w)
                   (events w ++ [LoaderStopped id l; LoaderStarted id l';
                                 SingleShotUpdateAfterSeek id]))).
Proof.
  assert (Hsame : forall (id : nat) (x : VideoPlayerWindow),
            windows w !! id = Some x -> current_frame_index x = X ->
            set_sync_frame id X w = Some (tt, w)).
  { intros id x Hx Hi. unfold set_sync_frame, mbind, W_bind, get. rewrite Hx.
    destruct (loader_thread x); [|reflexivity].
    now rewrite Hi, Z.eqb_refl. }
  split; [exact Hsame|]. split.
  - intros Hall. unfold sync_to_frame, mbind, W_bind, the_group.
    apply for_each_noop. intros p Hp.
    destruct (SyncGroup.is_master (group w) p) eqn:Hm; [reflexivity|].
    destruct (Hall p Hp Hm) as (x & Hx & Hi). simpl. now apply (Hsame p x).
  - intros id x l path Hx Hne Hplay Hl Hpath l'.
    assert (Hlt : (id < length (windows w))%nat) by (eapply lookup_lt_Some, Hx).
    unfold set_sync_frame, mbind, W_bind, get. rewrite Hx, Hl.
    assert (Hneq : (X =? current_frame_index x) = false) by (apply Z.eqb_neq; congruence).
    rewrite Hneq, Hplay. cbn [when andb mret W_ret].
    unfold _seek_to_frame, mbind, W_bind, get. rewrite Hx, Hl, Hpath.
    unfold emit, modify, mret, W_ret. cbn [windows group events].
    rewrite Hx. cbn [windows group events].
    repeat (rewrite list_lookup_insert_eq by (rewrite ?length_insert; exact Hlt);
            cbn [windows group events]; rewrite ?list_insert_insert_eq).
    cbn [when negb]. rewrite <- !app_assoc. reflexivity.
Qed.

(** A paused follower at frame 3 is sent frame 3, then frame 5. *)
Lemma set_sync_frame_same_index_witness :
  let w := synced (loaded_window true false 3) (loaded_window true false 3) in
  set_sync_frame 1 3 w = Some (tt, w) /\
  sync_to_frame 3 w = Some (tt, w) /\
  (current_frame_index <$> window_after (set_sync_frame 1 5) w 1) = Some 5.
Proof.
  intros w.
  destruct (set_sync_frame_same_index_noop w 3) as (Hsame & Hall & _).
  destruct (set_sync_frame_same_index_noop w 5) as (_ & _ & Hdiff).
  split; [apply (Hsame 1%nat (loaded_window true false 3)); reflexivity|].
  split.
  - apply Hall. intros p Hp Hm.
    apply elem_of_cons in Hp as [->|Hp]; [discriminate Hm|].
    apply list_elem_of_singleton in Hp as ->.
    exists (loaded_window true false 3). split; reflexivity.
  - unfold window_after.
    rewrite (Hdiff 1%nat (loaded_window true false 3)
               (mk_loader "a.mp4" 0 [slot_preserve_position]) "a.mp4");
      try reflexivity.
    simpl. lia.
Defined.

End PlayerSyncFacts.

Section OverlayFacts.
Import Overlay.

(** C4 (as amended). With the main or the overlay player unset,
    [activate] makes no connection to a frame-update signal and leaves
    both references as they are; it does set [is_active]; and
    [update_overlay] then displays nothing and changes no frame. *)
Theorem activate_with_missing_ref_sets_active (m : OverlayManager)
    (current_frame : nat -> option nat) (h : list Numpy.ndarray) :
  main_player m = None \/ overlay_player m = None ->
  is_active (activate m) = true /\
  frame_updated_connections (activate m) = frame_updated_connections m /\
  main_player (activate m) = main_player m /\
  overlay_player (activate m) = overlay_player m /\
  update_overlay (activate m) current_frame h = Some (None, h).
Proof.
  intros Hmiss. unfold update_overlay, activate; simpl.
  destruct (main_player m) as [a|], (overlay_player m) as [b|]; simpl;
    [destruct Hmiss; discriminate| | |]; repeat split; reflexivity.
Qed.

(** A new manager, and one with only the main player set. *)
Lemma activate_with_missing_ref_witness :
  is_active (activate init) = true /\
  is_active (activate (set_main_player (Some 0%nat) init)) = true /\
  frame_updated_connections (activate (set_main_player (Some 0%nat) init)) = [].
Proof.
  destruct (activate_with_missing_ref_sets_active init (fun _ => None) []
              (or_introl eq_refl)) as (H1 & _).
  destruct (activate_with_missing_ref_sets_active
              (set_main_player (Some 0%nat) init) (fun _ => None) []
              (or_intror eq_refl))
    as (H2 & H3 & _).
  split; [exact H1|]. split; [exact H2|exact H3].
Defined.

(** C4 as the specification states it fails on the code: a new manager,
    both references unset, is active after [activate]. *)
Lemma activate_with_missing_ref_is_not_rejected :
  ~ (is_active (activate init) = false /\
     frame_updated_connections (activate init) = []).
Proof. intros (H & _). discriminate H. Qed.

(** With both players set [activate] makes one connection, on the main
    player. *)
Lemma activate_with_both_refs (m : OverlayManager) (a b : nat) :
  main_player m = Some a -> overlay_player m = Some b ->
  is_active (activate m) = true /\
  frame_updated_connections (activate m) = frame_updated_connections m ++ [a].
Proof. intros Ha Hb. unfold activate; simpl. now rewrite Ha, Hb. Qed.

End OverlayFacts.

Section LoaderFacts.
Import Loader.

Lemma video_inv_step (a : actor) (s s' : state) :
  video_inv s -> step a s = Some s' -> video_inv s'.
Proof.
  intros (Hk & Hrun & Hstop & Hpush) Hstep.
  destruct s as [k total size st q idx pos li p rr sc n]; simpl in *. subst k.
  destruct a; simpl in Hstep.
  - (* Run *) discriminate.
  - (* Producer *)
    unfold producer_step, set_producer, full in Hstep; simpl in Hstep.
    assert (Hrr : rr = false).
    { destruct rr; [|reflexivity]. rewrite Hrun in Hstep by reflexivity.
      discriminate. }
    subst rr.
    assert (Hsc : sc <> Returned) by (intros ->; now specialize (Hstop eq_refl)).
    destruct p; simpl in Hstep;
      repeat match type of Hstep with
             | context [if ?c then _ else _] => destruct c
             end;
      try discriminate; injection Hstep as <-;
      unfold video_inv; simpl;
      (split; [reflexivity|]);
      (split; [try reflexivity; try discriminate; auto|]);
      (split; [intros ->; now contradiction Hsc|]);
      try exact Hpush; destruct sc; try exact Hpush; now contradiction Hsc.
  - (* Stop *)
    unfold stop_step in Hstep; simpl in Hstep.
    destruct sc; [| |discriminate].
    + injection Hstep as <-. unfold video_inv; simpl.
      repeat split; auto; discriminate.
    + destruct rr; [|discriminate]. injection Hstep as <-.
      unfold video_inv; simpl. repeat split; auto.
  - (* Consumer *)
    injection Hstep as <-. unfold video_inv; simpl. repeat split; auto.
  - (* ReadError *) discriminate.
Qed.

Lemma video_inv_exec (schedule : list actor) (s s' : state) :
  video_inv s -> exec schedule s = Some s' -> video_inv s'.
Proof.
  revert s; induction schedule as [|a rest IH]; intros s Hinv Hexec; simpl in Hexec.
  - now injection Hexec as <-.
  - destruct (step a s) as [s1|] eqn:Hstep; [|discriminate]. simpl in Hexec.
    eapply IH; [eapply video_inv_step; eassumption|exact Hexec].
Qed.

(** A video loader, under every interleaving of its loop, the caller of
    [stop] and the consumer: once [stop] has returned the loop is left, no
    step of it remains, and no frame was put into the queue after the
    return. *)
Theorem video_loader_no_push_after_stop (total start : Z) (size : nat)
    (schedule : list actor) (s : state) :
  exec schedule (init Video total size start) = Some s ->
  pushed_after_stop s = 0%nat /\
  (stop_call s = Returned -> producer s = Done /\ step Producer s = None).
Proof.
  intros Hexec.
  assert (Hinit : video_inv (init Video total size start))
    by (unfold video_inv; simpl; repeat split; auto; discriminate).
  destruct (video_inv_exec _ _ _ Hinit Hexec) as (Hk & Hrun & Hstop & Hpush).
  split; [exact Hpush|]. intros Hret.
  pose proof (Hrun (Hstop Hret)) as Hdone.
  split; [exact Hdone|]. simpl. unfold producer_step. now rewrite Hdone.
Qed.

(** The loop of a 3-frame video is stopped while it waits to put frame 0:
    [stop] returns only after the loop has seen the flag and left. *)
Lemma video_loader_no_push_after_stop_witness :
  exists s : state,
    exec [Producer; Producer; Producer; Stop; Producer; Producer; Stop]
      (init Video 3 30 0) = Some s /\
    stop_call s = Returned /\ pushed_after_stop s = 0%nat /\
    producer s = Done /\ frame_queue s = [].
Proof.
  destruct (exec [Producer; Producer; Producer; Stop; Producer; Producer;
                  Stop] (init Video 3 30 0)) as [s|] eqn:E;
    [|vm_compute in E; discriminate E].
  exists s. split; [reflexivity|].
  destruct (video_loader_no_push_after_stop 3 0 30 _ s E) as (Hpush & Hdone).
  assert (Hs : stop_call s = Returned /\ frame_queue s = []).
  { vm_compute in E. injection E as <-. split; reflexivity. }
  destruct Hs as (Hret & Hq).
  split; [exact Hret|]. split; [exact Hpush|].
  split; [exact (proj1 (Hdone Hret))|exact Hq].
Defined.

(** A TIFF loader of 3 pages: [run] spawns [load_frames] and returns;
    [load_frames] reaches the put of frame 0, having found the flag
    unset; [stop] sets the flag and, the QThread having finished, returns
    at once; [load_frames] then puts frame 0 into the queue. (C6 asks
    that nothing be put after [stop] returns.) *)
Theorem tiff_loader_pushes_after_stop_returned :
  exists before after : state,
    exec (removelast tiff_race) (init Tiff 3 30 0) = Some before /\
    stop_call before = Returned /\ stopped before = true /\
    frame_queue before = [] /\
    step Producer before = Some after /\
    frame_queue after = [0] /\ pushed_after_stop after = 1%nat.
Proof. eexists _, _. vm_compute. repeat split. Qed.

End LoaderFacts.

(* ===================================================================== *)
(** * Further properties of the loader *)
(* ===================================================================== *)

Section LoaderInvFacts.
Import Loader LoaderInv.

Lemma exec_invariant (P : state -> Prop) :
  (forall a s s', P s -> step a s = Some s' -> P s') ->
  forall schedule s s', P s -> exec schedule s = Some s' -> P s'.
Proof.
  intros Hstep schedule. induction schedule as [|a rest IH]; intros s s' Hs He.
  - simpl in He. now injection He as <-.
  - simpl in He. destruct (step a s) as [s1|] eqn:E; [|discriminate].
    simpl in He. eapply IH; [eapply Hstep; eassumption|exact He].
Qed.

Ltac split_ifs H :=
  repeat match type of H with
         | context [if ?c then _ else _] => destruct c eqn:?
         end.

Lemma room_inv_step (a : actor) (s s' : state) :
  room_inv s -> step a s = Some s' -> room_inv s'.
Proof.
  intros (Hb & Hput & Htest) Hstep.
  destruct s as [k total size st q idx pos li p rr sc n]; simpl in *.
  destruct a; simpl in Hstep.
  - unfold run_step in Hstep; simpl in Hstep.
    destruct k, p; try discriminate. injection Hstep as <-.
    unfold room_inv; simpl. repeat split; auto; discriminate.
  - unfold producer_step, set_producer, full in Hstep; simpl in Hstep.
    destruct p; simpl in Hstep; try discriminate.
    all: destruct k; split_ifs Hstep; try discriminate; injection Hstep as <-;
      unfold room_inv; simpl; repeat split; auto; try discriminate;
      intros; try discriminate;
      repeat match goal with
             | H : (_ <=? _)%nat = false |- _ => apply Nat.leb_gt in H
             | H : (_ <=? _)%nat = true |- _ => apply Nat.leb_le in H
             | H : _ && _ = false |- _ => apply andb_false_iff in H as [H|H]
             | H : negb _ = false |- _ => apply negb_false_iff in H
             | H : negb _ = true |- _ => apply negb_true_iff in H
             end;
      subst; try discriminate; try rewrite length_app; simpl; try lia;
      try (specialize (Hput eq_refl); lia);
      try (specialize (Htest eq_refl eq_refl); lia).
  - unfold stop_step in Hstep; simpl in Hstep.
    destruct sc; split_ifs Hstep; try discriminate; injection Hstep as <-;
      unfold room_inv; simpl; repeat split; auto; discriminate.
  - injection Hstep as <-. unfold room_inv; simpl.
    destruct q as [|x q]; simpl in *; repeat split; auto;
      intros; try (specialize (Hput ltac:(assumption))); 
      try (specialize (Htest ltac:(assumption) ltac:(assumption))); lia.
  - unfold read_error_step in Hstep; simpl in Hstep.
    destruct k, p; try discriminate. injection Hstep as <-.
    unfold room_inv; simpl. repeat split; auto; discriminate.
Qed.

Lemma chain_snoc (total : Z) (q : list Z) (i : Z) :
  0 <= i < total -> chain total q i ->
  chain total (q ++ [i]) ((i + 1) mod total).
Proof.
  intros Hi. induction q as [|a q IH]; simpl.
  - intros _. repeat split; lia.
  - intros (Ha & Hnext & Hq). split; [exact Ha|]. split; [|now apply IH].
    destruct q as [|b q]; simpl in *; exact Hnext.
Qed.

Lemma chain_tail (total : Z) (q : list Z) (next : Z) :
  chain total q next -> chain total (tail q) next.
Proof. destruct q as [|a q]; simpl; [auto|]. now intros (_ & _ & H). Qed.

Lemma chain_in_range (total : Z) (q : list Z) (next : Z) :
  chain total q next -> Forall (fun a => 0 <= a < total) q.
Proof.
  induction q as [|a q IH]; simpl; [constructor|].
  intros (Ha & _ & Hq). constructor; auto.
Qed.

Lemma index_inv_step (a : actor) (s s' : state) :
  index_inv s -> step a s = Some s' -> index_inv s'.
Proof.
  intros (Htot & Hidx & Hnext & Hchain & Hcap & Hns) Hstep.
  destruct s as [k total size st q idx pos li p rr sc n].
  unfold cap_inv in Hcap. unfold next_index in Hnext, Hchain. simpl in *.
  destruct a; simpl in Hstep.
  - (* Run *)
    unfold run_step in Hstep; simpl in Hstep.
    destruct k, p; try discriminate. injection Hstep as <-.
    rewrite (Hns eq_refl) in Hchain.
    unfold index_inv, cap_inv, next_index; simpl.
    repeat split; auto; try lia; try discriminate.
  - (* Producer *)
    unfold producer_step, set_producer, full in Hstep; simpl in Hstep.
    destruct p; simpl in Hstep; try discriminate.
    + (* LoopTest *)
      destruct st; injection Hstep as <-;
        unfold index_inv, cap_inv, next_index; simpl;
        destruct k; repeat split; auto; try lia; try discriminate.
      all: try (destruct Hcap as [H|[H|[H _]]];
                [now left|now right|discriminate]).
    + (* BreakTest *)
      destruct st; injection Hstep as <-;
        unfold index_inv, cap_inv, next_index; simpl;
        destruct k; repeat split; auto; try lia; try discriminate.
      all: try (destruct Hcap as [H|[H|[H _]]];
                [now left|now right|discriminate]).
    + (* Read *)
      destruct k.
      * destruct (pos <? total) eqn:Hlt; injection Hstep as <-;
          unfold index_inv, cap_inv, next_index; simpl.
        -- apply Z.ltb_lt in Hlt.
           repeat split; auto; try lia; try discriminate.
        -- apply Z.ltb_ge in Hlt.
           assert (idx = 0) as -> by lia.
           repeat split; auto; try lia; try discriminate.
      * destruct ((0 <? total) && (li <? total)); injection Hstep as <-;
          unfold index_inv, cap_inv, next_index; simpl;
          repeat split; auto; try lia; discriminate.
    + (* WaitTest *)
      destruct (negb st && (size <=? length q)%nat); injection Hstep as <-;
        unfold index_inv, cap_inv, next_index; simpl;
        destruct k; repeat split; auto; try lia; discriminate.
    + (* PutTest *)
      destruct st; simpl in Hstep; injection Hstep as <-;
        unfold index_inv, cap_inv, next_index; simpl;
        destruct k; repeat split; auto; try lia; try discriminate.
      all: try (right; right; split; [reflexivity|lia]).
    + (* Put *)
      destruct (size <=? length q)%nat; [discriminate|].
      assert (Hne : (total =? 0) = false) by (apply Z.eqb_neq; lia).
      rewrite Hne in Hstep.
      destruct k; injection Hstep as <-.
      * pose proof (Z.mod_pos_bound (idx + 1) total Htot) as Hm.
        unfold index_inv, cap_inv, next_index; simpl.
        split; [exact Htot|]. split; [exact Hm|]. split; [exact Hm|].
        split; [now apply chain_snoc|]. split; [|discriminate].
        destruct (Z.eq_dec (idx + 1) total) as [He|He].
        -- right; left. split; [lia|]. rewrite He. apply Z.mod_same. lia.
        -- left. rewrite Z.mod_small by lia. lia.
      * pose proof (Z.mod_pos_bound (li + 1) total Htot) as Hm.
        unfold index_inv, cap_inv, next_index; simpl.
        split; [exact Htot|]. split; [exact Hidx|]. split; [exact Hm|].
        split; [now apply chain_snoc|]. split; [exact I|discriminate].
  - (* Stop *)
    unfold stop_step in Hstep; simpl in Hstep.
    destruct sc; [| |discriminate].
    + injection Hstep as <-. unfold index_inv, cap_inv, next_index; simpl.
      split; [exact Htot|]. split; [exact Hidx|]. split; [exact Hnext|].
      split; [exact Hchain|]. split; [|exact Hns].
      destruct k, p; auto; destruct Hcap as [H|[H|[_ H]]]; auto.
    + destruct rr; [|discriminate]. injection Hstep as <-.
      unfold index_inv, cap_inv, next_index; simpl. repeat split; auto; lia.
  - (* Consumer *)
    injection Hstep as <-. unfold index_inv, cap_inv, next_index; simpl.
    repeat split; auto; try lia. now apply chain_tail.
  - (* ReadError *)
    unfold read_error_step in Hstep; simpl in Hstep.
    destruct k, p; try discriminate. injection Hstep as <-.
    unfold index_inv, cap_inv, next_index; simpl.
    repeat split; auto; try lia; try discriminate.
Qed.

(** Without a failing read, the loop is left only with the flag set. *)
Lemma done_stopped_step (a : actor) (s s' : state) :
  a <> ReadError -> index_inv s -> done_stopped s -> step a s = Some s' ->
  done_stopped s'.
Proof.
  intros Ha (Htot & _ & Hnext & _) Hd Hstep. unfold done_stopped in *.
  destruct s as [k total size st q idx pos li p rr sc n].
  unfold next_index in Hnext. simpl in *.
  destruct a; simpl in Hstep; [| | | |now contradiction Ha].
  - unfold run_step in Hstep; simpl in Hstep.
    destruct k, p; try discriminate. injection Hstep as <-. discriminate.
  - unfold producer_step, set_producer, full in Hstep; simpl in Hstep.
    destruct p; simpl in Hstep; try discriminate.
    + destruct st; injection Hstep as <-; simpl; [reflexivity|].
      destruct k; discriminate.
    + destruct st; injection Hstep as <-; simpl; [reflexivity|discriminate].
    + destruct k.
      * destruct (pos <? total); injection Hstep as <-; discriminate.
      * destruct ((0 <? total) && (li <? total)) eqn:Hr; injection Hstep as <-;
          simpl; [discriminate|].
        exfalso. apply andb_false_iff in Hr as [Hr|Hr];
          apply Z.ltb_ge in Hr; lia.
    + destruct (negb st && (size <=? length q)%nat); injection Hstep as <-;
        discriminate.
    + destruct st; simpl in Hstep; injection Hstep as <-; discriminate.
    + destruct (size <=? length q)%nat; [discriminate|].
      assert (Hne : (total =? 0) = false) by (apply Z.eqb_neq; lia).
      rewrite Hne in Hstep. destruct k; injection Hstep as <-; discriminate.
  - unfold stop_step in Hstep; simpl in Hstep.
    destruct sc; [| |discriminate].
    + injection Hstep as <-. reflexivity.
    + destruct rr; [|discriminate]. injection Hstep as <-. exact Hd.
  - injection Hstep as <-. exact Hd.
Qed.

Lemma late_push_inv_step (a : actor) (s s' : state) :
  late_push_inv s -> step a s = Some s' -> late_push_inv s'.
Proof.
  intros (Hflag & Hpush) Hstep.
  destruct s as [k total size st q idx pos li p rr sc n]; simpl in *.
  destruct a; simpl in Hstep.
  - unfold run_step in Hstep; simpl in Hstep.
    destruct k, p; try discriminate. injection Hstep as <-.
    unfold late_push_inv; simpl. split; [exact Hflag|].
    destruct Hpush as [H|(H1 & H2 & _)]; [now left|right].
    repeat split; auto; discriminate.
  - unfold producer_step, set_producer, full in Hstep; simpl in Hstep.
    destruct p; simpl in Hstep; try discriminate.
    1-5: destruct k, st; simpl in Hstep; split_ifs Hstep; try discriminate;
      injection Hstep as <-; unfold late_push_inv; simpl;
      (split; [exact Hflag|]);
      (destruct Hpush as [H|(H1 & H2 & H3)];
       [now left|right; repeat split; auto; discriminate]).
    (* Put *)
    destruct (size <=? length q)%nat; [discriminate|].
    destruct k; injection Hstep as <-; unfold late_push_inv; simpl;
      (split; [exact Hflag|]);
      (destruct Hpush as [->|(_ & _ & H3)]; [|now contradiction H3]);
      (destruct sc; [now left|now left|right]);
      (split; [reflexivity|]); (split; [apply Hflag; discriminate|]);
      destruct (total =? 0); discriminate.
  - unfold stop_step in Hstep; simpl in Hstep.
    destruct sc; [| |discriminate].
    + injection Hstep as <-. unfold late_push_inv; simpl.
      split; [reflexivity|].
      destruct Hpush as [H|(H1 & H2 & H3)]; [now left|right; auto].
    + destruct rr; [|discriminate]. injection Hstep as <-.
      unfold late_push_inv; simpl. split; [intros _; apply Hflag; discriminate|].
      exact Hpush.
  - injection Hstep as <-. unfold late_push_inv; simpl. split; assumption.
  - unfold read_error_step in Hstep; simpl in Hstep.
    destruct k, p; try discriminate. injection Hstep as <-.
    unfold late_push_inv; simpl. split; [exact Hflag|].
    destruct Hpush as [H|(H1 & H2 & _)]; [now left|right].
    repeat split; auto; discriminate.
Qed.

Lemma done_inv_step (a : actor) (s s' : state) :
  kd s = Video -> done_inv s -> step a s = Some s' ->
  kd s' = Video /\ done_inv s'.
Proof.
  intros Hk (Hns & Hd) Hstep.
  destruct s as [k total size st q idx pos li p rr sc n]; simpl in *. subst k.
  destruct a; simpl in Hstep.
  - unfold run_step in Hstep; simpl in Hstep. destruct p; discriminate.
  - unfold producer_step, set_producer, full in Hstep; simpl in Hstep.
    destruct p; simpl in Hstep; try discriminate; try (now contradiction Hns);
      split_ifs Hstep; try discriminate; injection Hstep as <-;
      unfold done_inv; simpl; repeat split; auto; discriminate.
  - unfold stop_step in Hstep; simpl in Hstep.
    destruct sc; split_ifs Hstep; try discriminate; injection Hstep as <-;
      unfold done_inv; simpl; repeat split; auto.
  - injection Hstep as <-. unfold done_inv; simpl. repeat split; auto.
  - unfold read_error_step in Hstep; simpl in Hstep. destruct p; discriminate.
Qed.

(** The queue never holds more than [buffer_size] frames, and the loop's
    [put] never blocks: when the loop stands at the put, it can take the
    step. Under every interleaving, for both kinds of loader. *)
Theorem loader_queue_never_overflows (k : kind) (total start : Z)
    (size : nat) (schedule : list actor) (s : state) :
  (0 < size)%nat ->
  exec schedule (init k total size start) = Some s ->
  (length (frame_queue s) <= size)%nat /\
  (producer s = Put -> exists s', step Producer s = Some s').
Proof.
  intros Hsize Hexec.
  assert (Hinit : room_inv (init k total size start) /\
                  buffer_size (init k total size start) = size).
  { unfold room_inv; simpl. repeat split; auto; try lia; destruct k; discriminate. }
  assert (H : room_inv s /\ buffer_size s = size).
  { revert Hinit Hexec.
    apply (exec_invariant (fun s => room_inv s /\ buffer_size s = size)).
    intros a s0 s1 (Hr & Hb) Hstep. split; [eapply room_inv_step; eassumption|].
    destruct s0 as [k0 total0 size0 st q idx pos li p rr sc n]; simpl in *.
    destruct a; simpl in Hstep.
    - unfold run_step in Hstep; simpl in Hstep.
      destruct k0, p; try discriminate; now injection Hstep as <-.
    - unfold producer_step, set_producer, full in Hstep; simpl in Hstep.
      destruct p, k0; simpl in Hstep; split_ifs Hstep; try discriminate;
        now injection Hstep as <-.
    - unfold stop_step in Hstep; simpl in Hstep.
      destruct sc; split_ifs Hstep; try discriminate; now injection Hstep as <-.
    - now injection Hstep as <-.
    - unfold read_error_step in Hstep; simpl in Hstep.
      destruct k0, p; try discriminate; now injection Hstep as <-. }
  destruct H as ((Hb & Hput & _) & Hbs). rewrite Hbs in *.
  split; [exact Hb|]. intros Hp. specialize (Hput Hp).
  simpl. unfold producer_step, full. rewrite Hp, Hbs.
  assert (Hf : (size <=? length (frame_queue s))%nat = false)
    by (apply Nat.leb_gt; exact Hput).
  rewrite Hf. eauto.
Qed.

(** A buffer of one frame: the second turn of the loop waits at the full
    queue rather than put. *)
Lemma loader_queue_never_overflows_witness :
  exists s : state,
    exec [Producer; Producer; Producer; Producer; Producer;
          Producer; Producer; Producer; Producer; Producer]
      (init Video 3 1 0) = Some s /\
    frame_queue s = [0] /\ producer s = WaitTest.
Proof.
  destruct (exec [Producer; Producer; Producer; Producer; Producer;
                  Producer; Producer; Producer; Producer; Producer]
              (init Video 3 1 0)) as [s|] eqn:E;
    [|vm_compute in E; discriminate E].
  exists s. split; [reflexivity|].
  pose proof (loader_queue_never_overflows Video 3 0 1 _ s (Nat.lt_0_1) E)
    as (Hlen & _).
  vm_compute in E. injection E as <-. split; reflexivity.
Defined.

Lemma index_inv_init (k : kind) (total start : Z) (size : nat) :
  0 <= start < total -> index_inv (init k total size start).
Proof.
  intros Hs. unfold index_inv, cap_inv, next_index; simpl.
  assert (Hpos : (if 0 <? start then start else 0) = start).
  { destruct (0 <? start) eqn:E; [reflexivity|]. apply Z.ltb_ge in E. lia. }
  rewrite Hpos.
  destruct k; repeat split; auto; lia.
Qed.

(** What no step changes: the kind, the total, and a TIFF loader's
    [current_frame_index]. *)
Lemma fixed_step (a : actor) (s s' : state) :
  step a s = Some s' ->
  kd s' = kd s /\ total_frames s' = total_frames s /\
  (kd s = Tiff -> current_frame_index s' = current_frame_index s).
Proof.
  intros Hstep.
  destruct s as [k0 total0 size0 st q idx pos li p rr sc n]; simpl in *.
  destruct a; simpl in Hstep.
  - unfold run_step in Hstep; simpl in Hstep.
    destruct k0, p; try discriminate; now injection Hstep as <-.
  - unfold producer_step, set_producer, full in Hstep; simpl in Hstep.
    destruct p, k0; simpl in Hstep; split_ifs Hstep; try discriminate;
      injection Hstep as <-; repeat split; intros; discriminate.
  - unfold stop_step in Hstep; simpl in Hstep.
    destruct sc; split_ifs Hstep; try discriminate; now injection Hstep as <-.
  - now injection Hstep as <-.
  - unfold read_error_step in Hstep; simpl in Hstep.
    destruct k0, p; try discriminate; now injection Hstep as <-.
Qed.

(** What the runs from [init] keep. *)
Lemma index_inv_exec (k : kind) (total start : Z) (size : nat)
    (schedule : list actor) (s : state) :
  0 <= start < total ->
  exec schedule (init k total size start) = Some s ->
  index_inv s /\ kd s = k /\ total_frames s = total /\
  (k = Tiff -> current_frame_index s = start).
Proof.
  intros Hs Hexec. revert Hexec.
  apply (exec_invariant
           (fun s => index_inv s /\ kd s = k /\ total_frames s = total /\
                     (k = Tiff -> current_frame_index s = start)));
    [|split; [now apply index_inv_init|repeat split]].
  intros a s0 s1 (Hi & Hk & Ht & Hc) Hstep.
  destruct (fixed_step a s0 s1 Hstep) as (Hk1 & Ht1 & Hc1).
  split; [eapply index_inv_step; eassumption|].
  split; [congruence|]. split; [congruence|].
  intros Hkt. rewrite Hc1 by congruence. now apply Hc.
Qed.

(** With the start index inside the file, under every interleaving, with
    or without failing reads, and for both kinds: the queue holds
    consecutive indices modulo [total], oldest first, each in [0, total),
    and the index after its last one is the next index the loop puts,
    which is in [0, total). For a video that index is the loader's
    [current_frame_index]; for a TIFF stack it is the variable [i] of
    [load_frames], and the loader's [current_frame_index] stays at the
    start frame. *)
Theorem loader_queue_holds_consecutive_indices (k : kind) (total start : Z)
    (size : nat) (schedule : list actor) (s : state) :
  0 <= start < total ->
  exec schedule (init k total size start) = Some s ->
  let next := match k with
              | Video => current_frame_index s
              | Tiff => local_i s
              end in
  0 <= next < total /\
  chain total (frame_queue s) next /\
  Forall (fun a => 0 <= a < total) (frame_queue s) /\
  0 <= current_frame_index s < total /\
  (k = Tiff -> current_frame_index s = start).
Proof.
  intros Hs Hexec next.
  destruct (index_inv_exec k total start size schedule s Hs Hexec)
    as ((_ & Hidx & Hnext & Hchain & _) & Hk & Ht & Hc).
  unfold next_index in Hnext, Hchain. rewrite Hk, Ht in *. fold next in Hnext, Hchain.
  split; [exact Hnext|]. split; [exact Hchain|].
  split; [eapply chain_in_range, Hchain|]. split; [exact Hidx|exact Hc].
Qed.

(** A TIFF loader of 3 pages started at page 2: after two turns, the
    consumer having taken page 2, the queue holds page 0, the next index
    is 1, and the loader's [current_frame_index] is still 2. *)
Lemma loader_queue_holds_consecutive_indices_witness :
  exists s : state,
    exec (Run :: Producer :: two_turns ++ [Producer]) (init Tiff 3 30 2) = Some s /\
    frame_queue s = [0] /\ local_i s = 1 /\ current_frame_index s = 2 /\
    chain 3 (frame_queue s) (local_i s).
Proof.
  destruct (exec (Run :: Producer :: two_turns ++ [Producer]) (init Tiff 3 30 2))
    as [s|] eqn:E; [|vm_compute in E; discriminate E].
  exists s. split; [reflexivity|].
  destruct (loader_queue_holds_consecutive_indices Tiff 3 2 30 _ s
              ltac:(lia) E) as (_ & Hchain & _ & _ & Hc).
  split; [|split; [|split; [exact (Hc eq_refl)|exact Hchain]]];
    vm_compute in E; injection E as <-; reflexivity.
Defined.

(** A video loader, under every interleaving: while a decoded frame is in
    hand (from the read to the put) the loader's index is the decoder
    position the frame was read at, so each frame is queued with its own
    index. *)
Theorem video_frame_is_queued_with_its_index (total start : Z) (size : nat)
    (schedule : list actor) (s : state) :
  0 <= start < total ->
  exec schedule (init Video total size start) = Some s ->
  producer s = WaitTest \/ producer s = PutTest \/ producer s = Put ->
  current_frame_index s = cap_pos s - 1.
Proof.
  intros Hs Hexec Hp.
  destruct (index_inv_exec Video total start size schedule s Hs Hexec)
    as ((_ & _ & _ & _ & Hcap & _) & Hk & _).
  unfold cap_inv in Hcap. rewrite Hk in Hcap.
  destruct Hp as [Hp|[Hp|Hp]]; rewrite Hp in Hcap; lia.
Qed.

(** The second turn of a 3-frame video, stopped at its put: frame 1 is in
    hand, read at position 1 (the decoder is at 2). *)
Lemma video_frame_is_queued_with_its_index_witness :
  exists s : state,
    exec [Producer; Producer; Producer; Producer; Producer;
          Producer; Producer; Producer; Producer] (init Video 3 30 0) = Some s /\
    producer s = Put /\ current_frame_index s = 1 /\ cap_pos s = 2.
Proof.
  destruct (exec [Producer; Producer; Producer; Producer; Producer;
                  Producer; Producer; Producer; Producer] (init Video 3 30 0))
    as [s|] eqn:E; [|vm_compute in E; discriminate E].
  exists s. split; [reflexivity|].
  assert (Hp : producer s = Put /\ cap_pos s = 2)
    by (vm_compute in E; injection E as <-; split; reflexivity).
  destruct Hp as (Hp & Hc).
  pose proof (video_frame_is_queued_with_its_index 3 0 30 _ s ltac:(lia) E
                (or_intror (or_intror Hp))) as Hi.
  rewrite Hc in Hi. split; [exact Hp|]. split; [exact Hi|exact Hc].
Defined.

(** With the start index inside the file, and as long as no read of a
    TIFF page fails, the loop of either kind of loader is left only when
    the stop flag is set: it never ends on its own. A failing read of a
    TIFF page, which [load_frames] does not handle, ends the loop with the
    flag as it is, set or not. *)
Theorem loader_loop_ends_only_when_stopped (k : kind) (total start : Z)
    (size : nat) (schedule : list actor) (s : state) :
  0 <= start < total ->
  exec schedule (init k total size start) = Some s ->
  (ReadError ∉ schedule -> producer s = Done -> stopped s = true) /\
  (k = Tiff -> producer s = Read ->
   exists s', step ReadError s = Some s' /\
              producer s' = Done /\ stopped s' = stopped s).
Proof.
  intros Hs Hexec. split.
  - intros Hno.
    assert (H : index_inv s /\ done_stopped s); [|exact (proj2 H)].
    assert (Hinit : index_inv (init k total size start) /\
                    done_stopped (init k total size start)).
    { split; [now apply index_inv_init|].
      unfold done_stopped; simpl. destruct k; discriminate. }
    revert Hinit Hno Hexec. generalize (init k total size start).
    induction schedule as [|a rest IH]; intros s0 (Hi & Hd) Hno Hexec;
      simpl in Hexec.
    + injection Hexec as <-. now split.
    + destruct (step a s0) as [s1|] eqn:Hstep; [|discriminate].
      simpl in Hexec.
      assert (Ha : a <> ReadError) by (intros ->; apply Hno; left).
      apply (IH s1); [|intros Hin; apply Hno; now right|exact Hexec].
      split; [eapply index_inv_step; eassumption|].
      eapply done_stopped_step; eassumption.
  - intros Hk Hp.
    destruct (index_inv_exec k total start size schedule s Hs Hexec)
      as (_ & Hkd & _).
    unfold step, read_error_step. rewrite Hkd, Hk, Hp.
    eexists. split; [reflexivity|]. split; reflexivity.
Qed.

(** A video loop left after [stop] set the flag; and a TIFF loop of 3
    pages left by a failing read of its first page, the flag unset. *)
Lemma loader_loop_ends_only_when_stopped_witness :
  (exists s : state,
     exec [Producer; Stop; Producer; Producer; Producer; Producer]
       (init Video 3 30 0) = Some s /\
     producer s = Done /\ stopped s = true) /\
  (exists s s' : state,
     exec [Run; Producer; Producer] (init Tiff 3 30 0) = Some s /\
     step ReadError s = Some s' /\
     producer s' = Done /\ stopped s' = false).
Proof.
  split.
  - destruct (exec [Producer; Stop; Producer; Producer; Producer; Producer]
                (init Video 3 30 0)) as [s|] eqn:E;
      [|vm_compute in E; discriminate E].
    exists s. split; [reflexivity|].
    assert (Hp : producer s = Done)
      by (vm_compute in E; injection E as <-; reflexivity).
    split; [exact Hp|].
    apply (proj1 (loader_loop_ends_only_when_stopped Video 3 0 30 _ s
                    ltac:(lia) E)); [|exact Hp].
    intros Hin. apply list_elem_of_In in Hin. simpl in Hin.
    repeat (destruct Hin as [Hin|Hin]; [discriminate Hin|]). exact Hin.
  - destruct (exec [Run; Producer; Producer] (init Tiff 3 30 0))
      as [s|] eqn:E; [|vm_compute in E; discriminate E].
    assert (Hp : producer s = Read /\ stopped s = false)
      by (vm_compute in E; injection E as <-; split; reflexivity).
    destruct Hp as (Hp & Hst).
    destruct (proj2 (loader_loop_ends_only_when_stopped Tiff 3 0 30 _ s
                       ltac:(lia) E) eq_refl Hp) as (s' & Hstep & Hd & Hs').
    exists s, s'. split; [reflexivity|]. split; [exact Hstep|].
    split; [exact Hd|]. now rewrite Hs', Hst.
Defined.

(** Under every interleaving and for both kinds of loader, at most one
    frame is put into the queue after [stop] has returned. *)
Theorem loader_puts_at_most_one_frame_after_stop (k : kind) (total start : Z)
    (size : nat) (schedule : list actor) (s : state) :
  exec schedule (init k total size start) = Some s ->
  (pushed_after_stop s <= 1)%nat.
Proof.
  intros Hexec.
  assert (H : late_push_inv s).
  { revert Hexec. apply (exec_invariant late_push_inv);
      [apply late_push_inv_step|].
    unfold late_push_inv; simpl. split; [intros H; now contradiction H|now left]. }
  destruct H as (_ & [H|(H & _)]); lia.
Qed.

(** The TIFF interleaving in which one frame is put after [stop]
    returned, continued: the loop then sees the flag and ends. *)
Lemma loader_puts_at_most_one_frame_after_stop_witness :
  exists s : state,
    exec (tiff_race ++ [Producer]) (init Tiff 3 30 0) = Some s /\
    pushed_after_stop s = 1%nat /\ producer s = Done.
Proof.
  destruct (exec (tiff_race ++ [Producer]) (init Tiff 3 30 0))
    as [s|] eqn:E; [|vm_compute in E; discriminate E].
  exists s. split; [reflexivity|].
  pose proof (loader_puts_at_most_one_frame_after_stop Tiff 3 0 30 _ s E) as Hle.
  vm_compute in E. injection E as <-. split; reflexivity.
Defined.

Lemma kd_step (a : actor) (s s' : state) :
  step a s = Some s' -> kd s' = kd s /\ buffer_size s' = buffer_size s.
Proof.
  intros Hstep.
  destruct s as [k0 total0 size0 st q idx pos li p rr sc n]; simpl in *.
  destruct a; simpl in Hstep.
  - unfold run_step in Hstep; simpl in Hstep.
    destruct k0, p; try discriminate; now injection Hstep as <-.
  - unfold producer_step, set_producer, full in Hstep; simpl in Hstep.
    destruct p, k0; simpl in Hstep; split_ifs Hstep; try discriminate;
      now injection Hstep as <-.
  - unfold stop_step in Hstep; simpl in Hstep.
    destruct sc; split_ifs Hstep; try discriminate; now injection Hstep as <-.
  - now injection Hstep as <-.
  - unfold read_error_step in Hstep; simpl in Hstep.
    destruct k0, p; try discriminate; now injection Hstep as <-.
Qed.

(** Once the stop flag is set the loop, given its turns, is left within
    [rank], at most four, of its steps, none of which blocks; a video
    loader's QThread has then finished, so that a pending [wait()] of
    [stop] returns. *)
Theorem stopped_loop_ends_within_four_steps (k : kind) (total start : Z)
    (size : nat) (schedule : list actor) (s : state) :
  (0 < size)%nat ->
  exec schedule (init k total size start) = Some s ->
  stopped s = true -> producer s <> NotStarted ->
  exists (n : nat) (s' : state),
    (n <= rank s)%nat /\ (rank s <= 4)%nat /\
    exec (replicate n Producer) s = Some s' /\
    producer s' = Done /\
    (k = Video ->
     run_returned s' = true /\
     (stop_call s' = Waiting ->
      exists s'', step Stop s' = Some s'' /\ stop_call s'' = Returned)).
Proof.
  intros Hsize Hexec Hst Hns.
  assert (H : room_inv s /\ kd s = k /\ (k = Video -> done_inv s)).
  { revert Hexec.
    apply (exec_invariant
             (fun s => room_inv s /\ kd s = k /\ (k = Video -> done_inv s))).
    - intros a s0 s1 (Hr & Hk & Hd) Hstep.
      split; [eapply room_inv_step; eassumption|].
      destruct (kd_step a s0 s1 Hstep) as (Hk1 & _).
      split; [congruence|]. intros Hv.
      assert (Hv0 : kd s0 = Video) by congruence.
      exact (proj2 (done_inv_step a s0 s1 Hv0 (Hd Hv) Hstep)).
    - unfold room_inv, done_inv; simpl.
      repeat split; auto; try lia; try discriminate;
        intros; subst; try discriminate. }
  destruct H as ((_ & Hput & _) & Hk & Hd).
  destruct s as [k0 total0 size0 st q idx pos li p rr sc n]; simpl in *.
  subst k0 st.
  assert (Hfin : forall (rr' : bool) (sc' : stop_pc) q' idx' pos' li' n',
            (k = Video -> rr' = true) ->
            k = Video ->
            run_returned (mk_state k total0 size0 true q' idx' pos' li' Done rr' sc' n')
            = true /\
            (stop_call (mk_state k total0 size0 true q' idx' pos' li' Done rr' sc' n')
             = Waiting ->
             exists s'', step Stop
                 (mk_state k total0 size0 true q' idx' pos' li' Done rr' sc' n')
               = Some s'' /\ stop_call s'' = Returned)).
  { intros rr' sc' q' idx' pos' li' n' Hrr Hv. simpl. rewrite (Hrr Hv).
    split; [reflexivity|]. intros ->. unfold stop_step; simpl. eauto. }
  unfold rank; simpl.
  destruct p.
  - now contradiction Hns.
  - (* LoopTest *)
    exists 1%nat. eexists. split; [lia|]. split; [lia|].
    split; [reflexivity|]. split; [reflexivity|].
    apply Hfin. intros ->. reflexivity.
  - (* BreakTest *)
    exists 1%nat. eexists. split; [lia|]. split; [lia|].
    split; [reflexivity|]. split; [reflexivity|].
    apply Hfin. intros ->. reflexivity.
  - (* Read *)
    destruct k.
    + destruct (pos <? total0) eqn:Hlt.
      * exists 4%nat. eexists. split; [lia|]. split; [lia|].
        split; [cbn; unfold producer_step; cbn; rewrite Hlt; reflexivity|].
        split; [reflexivity|]. now apply Hfin.
      * exists 2%nat. eexists. split; [lia|]. split; [lia|].
        split; [cbn; unfold producer_step; cbn; rewrite Hlt; reflexivity|].
        split; [reflexivity|]. now apply Hfin.
    + destruct ((0 <? total0) && (li <? total0)) eqn:Hr.
      * exists 4%nat. eexists. split; [lia|]. split; [lia|].
        split; [cbn; unfold producer_step; cbn; rewrite Hr; reflexivity|].
        split; [reflexivity|]. intros; discriminate.
      * exists 1%nat. eexists. split; [lia|]. split; [lia|].
        split; [cbn; unfold producer_step; cbn; rewrite Hr; reflexivity|].
        split; [reflexivity|]. intros; discriminate.
  - (* WaitTest *)
    exists 3%nat. eexists. split; [lia|]. split; [lia|].
    split; [reflexivity|]. split; [reflexivity|].
    apply Hfin. intros ->. reflexivity.
  - (* PutTest *)
    exists 2%nat. eexists. split; [lia|]. split; [lia|].
    split; [reflexivity|]. split; [reflexivity|].
    apply Hfin. intros ->. reflexivity.
  - (* Put *)
    specialize (Hput eq_refl).
    assert (Hf : (size0 <=? length q)%nat = false) by (apply Nat.leb_gt; exact Hput).
    destruct (total0 =? 0) eqn:Ht; destruct k.
    + exists 1%nat. eexists. split; [lia|]. split; [lia|].
      split; [cbn; unfold producer_step, full; cbn; rewrite Hf, Ht; reflexivity|].
      split; [reflexivity|]. apply Hfin. intros _. reflexivity.
    + exists 1%nat. eexists. split; [lia|]. split; [lia|].
      split; [cbn; unfold producer_step, full; cbn; rewrite Hf, Ht; reflexivity|].
      split; [reflexivity|]. intros; discriminate.
    + exists 2%nat. eexists. split; [lia|]. split; [lia|].
      split; [cbn; unfold producer_step, full; cbn; rewrite Hf, Ht; reflexivity|].
      split; [reflexivity|]. apply Hfin. intros _. reflexivity.
    + exists 2%nat. eexists. split; [lia|]. split; [lia|].
      split; [cbn; unfold producer_step, full; cbn; rewrite Hf, Ht; reflexivity|].
      split; [reflexivity|]. intros; discriminate.
  - (* Done *)
    exists 0%nat. eexists. split; [lia|]. split; [lia|].
    split; [reflexivity|]. split; [reflexivity|].
    apply Hfin. intros Hv. apply (Hd Hv). reflexivity.
Qed.

(** A video loop stopped while it waits at the queue: three steps end it,
    and [stop] returns. *)
Lemma stopped_loop_ends_within_four_steps_witness :
  exists s s' : state,
    exec [Producer; Producer; Stop] (init Video 3 30 0) = Some s /\
    exec [Producer; Producer; Producer] s = Some s' /\
    producer s' = Done /\ run_returned s' = true.
Proof.
  destruct (exec [Producer; Producer; Stop] (init Video 3 30 0))
    as [s|] eqn:E; [|vm_compute in E; discriminate E].
  assert (Hs : stopped s = true /\ producer s = WaitTest)
    by (vm_compute in E; injection E as <-; split; reflexivity).
  destruct Hs as (Hst & Hp).
  destruct (stopped_loop_ends_within_four_steps Video 3 0 30 _ s
              ltac:(lia) E Hst ltac:(rewrite Hp; discriminate))
    as (n & s' & _ & _ & _ & _ & _).
  vm_compute in E. injection E as <-.
  eexists _, _. split; [reflexivity|]. split; [reflexivity|].
  split; reflexivity.
Defined.

End LoaderInvFacts.

(* ===================================================================== *)
(** * Further properties of playback, blending and display *)
(* ===================================================================== *)

Section RangeFacts.
Import Range.

Lemma all_from_spec (n : nat) (z : Z) (f : Z -> bool) :
  all_from n z f = true ->
  forall k : Z, z <= k < z + Z.of_nat n -> f k = true.
Proof.
  revert z. induction n as [|n IH]; intros z Hall k Hk; [lia|].
  simpl in Hall. apply andb_true_iff in Hall as [Hz Hrest].
  destruct (Z.eq_dec k z) as [->|Hne]; [exact Hz|].
  apply (IH (z + 1) Hrest). lia.
Qed.

End RangeFacts.

Section TimerFacts.
Import Float64 Player Range.

(** For every rate the spin box allows, 1 to 120 frames per second, the
    timer interval [int(1000 / (fps * playback_speed))] is the integer
    quotient 1000 / fps, and computing it does not raise; at rate 0 it
    raises (a float division by zero). *)
Theorem timer_interval_is_integer_quotient (fps : Z) (w : world) :
  (1 <= fps <= 120 -> timer_interval fps w = Some (1000 / fps, w)) /\
  (fps = 0 -> timer_interval fps w = None).
Proof.
  split; [|intros ->; reflexivity].
  intros Hr.
  pose (ok := fun fps : Z =>
    match mul (of_Z fps) playback_speed with
    | S754_zero _ => false
    | d => trunc (div (of_Z 1000) d) =? 1000 / fps
    end).
  assert (Hall : all_from 120 1 ok = true) by (vm_compute; reflexivity).
  pose proof (all_from_spec 120 1 ok Hall fps ltac:(lia)) as Hok.
  unfold ok in Hok. unfold timer_interval.
  destruct (mul (of_Z fps) playback_speed) eqn:Ed; try discriminate Hok;
    apply Z.eqb_eq in Hok; unfold mret, W_ret; now rewrite Hok.
Qed.

(** At 30 frames per second the timer fires every 33 ms. *)
Lemma timer_interval_is_integer_quotient_witness :
  timer_interval 30 (single (loaded_window false false 0))
  = Some (33, single (loaded_window false false 0)).
Proof.
  exact (proj1 (timer_interval_is_integer_quotient 30
                  (single (loaded_window false false 0))) ltac:(lia)).
Defined.

End TimerFacts.

Section BlendInsideFacts.
Import Float64 Numpy Blend Range.

Lemma assign_row_lookup_lt (w : nat) (row new : list (list Z)) (j : nat)
    (p n : list Z) :
  (j < w)%nat -> row !! j = Some p -> new !! j = Some n ->
  assign_row w row new !! j = Some n.
Proof.
  revert row new j; induction w as [|w IH]; intros [|p0 row] [|n0 new] j Hj Hp Hn;
    try discriminate; [lia|].
  destruct j as [|j]; simpl in *; [exact Hn|]. apply IH; auto. lia.
Qed.

Lemma assign_slice2_pixel_inside (h w : nat) (rs new : list (list (list Z)))
    (i j : nat) (p n : list Z) :
  (i < h)%nat -> (j < w)%nat ->
  pixel_at rs i j = Some p -> pixel_at new i j = Some n ->
  pixel_at (assign_slice2 h w rs new) i j = Some n.
Proof.
  revert rs new i; induction h as [|h IH]; intros [|r rs] [|r' new] i Hi Hj Hp Hn;
    try discriminate; [lia|].
  destruct i as [|i].
  - unfold pixel_at in *; simpl in *. eapply assign_row_lookup_lt; eassumption.
  - unfold pixel_at in *; simpl in *. apply IH; auto. lia.
Qed.

Lemma pixel_at_slice2 (h w : nat) (rs : list (list (list Z))) (i j : nat) :
  (i < h)%nat -> (j < w)%nat -> pixel_at (slice2 h w rs) i j = pixel_at rs i j.
Proof.
  intros Hi Hj. unfold pixel_at, slice2.
  rewrite list_lookup_fmap, lookup_take_lt by exact Hi.
  destruct (rs !! i) as [r|]; simpl; [|reflexivity].
  now apply lookup_take_lt.
Qed.

Lemma pixel_at_elementwise (f : Z -> Z -> Z) (a b : list (list (list Z)))
    (i j : nat) (p q : list Z) :
  pixel_at a i j = Some p -> pixel_at b i j = Some q ->
  pixel_at (elementwise f a b) i j = Some (zip_with f p q).
Proof.
  unfold pixel_at, elementwise. intros Hp Hq. rewrite lookup_zip_with.
  destruct (a !! i) as [ra|]; [|discriminate].
  destruct (b !! i) as [rb|]; [|discriminate]. simpl in *.
  rewrite lookup_zip_with, Hp, Hq. reflexivity.
Qed.

Lemma width_assign_slice2 (d : dtype) (n h w : nat)
    (rs new : list (list (list Z))) :
  width (mk_ndarray d n (assign_slice2 h w rs new)) = width (mk_ndarray d n rs).
Proof.
  unfold width; simpl. destruct h, rs as [|r rs], new as [|r' new]; simpl; auto.
  apply assign_row_length.
Qed.

(** Inside the overlap the blended pixel is the mode's arithmetic applied
    sample by sample. *)
Lemma blend_frames_pixel_inside (h : list ndarray) (main ov : nat)
    (m o : ndarray) (mode : string) (op : float) (f : Z -> Z -> Z)
    (i j : nat) (p q : list Z) :
  h !! main = Some m -> h !! ov = Some o -> same_layout m o = true ->
  kernel mode op (arr_dtype m) (arr_dtype o) = Some f ->
  (i < Nat.min (height m) (height o))%nat ->
  (j < Nat.min (width m) (width o))%nat ->
  pixel_at (rows m) i j = Some p -> pixel_at (rows o) i j = Some q ->
  exists (r : nat) (h' : list ndarray) (res : ndarray),
    blend_frames main ov mode op h = Some (r, h') /\
    h' !! r = Some res /\
    arr_dtype res = arr_dtype m /\ ndim res = ndim m /\
    height res = height m /\ width res = width m /\
    pixel_at (rows res) i j = Some (zip_with f p q).
Proof.
  intros Hm Ho Hl Hk Hi Hj Hp Hq.
  rewrite (blend_frames_run h main ov m o mode op Hm Ho), Hk, Hl.
  eexists _, _, _. split; [reflexivity|].
  split; [apply list_lookup_middle; reflexivity|].
  split; [reflexivity|]. split; [reflexivity|].
  split; [apply assign_slice2_length|].
  split; [destruct m; apply width_assign_slice2|].
  cbn [rows]. eapply assign_slice2_pixel_inside; [exact Hi|exact Hj|exact Hp|].
  apply pixel_at_elementwise; rewrite pixel_at_slice2; assumption.
Qed.

(** For every mode that has a branch, every opacity from 0 to 1 (what
    [set_opacity] stores) and every place (i, j) inside the overlap at
    which both frames hold a pixel, the samples of the two pixels being
    values of their frames' element types: [blend_frames] returns a frame
    of the main frame's element type, rank, height and width whose pixel
    at (i, j) is the mode's per-sample arithmetic applied to the main and
    the overlay pixel. (Outside that range of opacities the cast to
    [uint8] is applied to values on which C does not define it.) *)
Theorem blend_frames_inside_overlap (h : list ndarray) (main ov : nat)
    (m o : ndarray) (mode : string) (op : float) (f : Z -> Z -> Z)
    (i j : nat) (p q : list Z) :
  op <> S754_nan -> ltb op (of_Z 0) = false -> ltb (of_Z 1) op = false ->
  h !! main = Some m -> h !! ov = Some o -> same_layout m o = true ->
  kernel mode op (arr_dtype m) (arr_dtype o) = Some f ->
  (i < Nat.min (height m) (height o))%nat ->
  (j < Nat.min (width m) (width o))%nat ->
  pixel_at (rows m) i j = Some p -> pixel_at (rows o) i j = Some q ->
  Forall (fun v => dtype_min (arr_dtype m) <= v <= dtype_max (arr_dtype m)) p ->
  Forall (fun v => dtype_min (arr_dtype o) <= v <= dtype_max (arr_dtype o)) q ->
  exists (r : nat) (h' : list ndarray) (res : ndarray),
    blend_frames main ov mode op h = Some (r, h') /\
    h' !! r = Some res /\
    arr_dtype res = arr_dtype m /\ ndim res = ndim m /\
    height res = height m /\ width res = width m /\
    pixel_at (rows res) i j = Some (zip_with f p q).
Proof.
  intros _ _ _ Hm Ho Hl Hk Hi Hj Hp Hq _ _.
  exact (blend_frames_pixel_inside h main ov m o mode op f i j p q
           Hm Ho Hl Hk Hi Hj Hp Hq).
Qed.

(** The 10x10 frame under the 4x4 overlay, mode Add, opacity 0.5: pixel
    (3, 3), the last of the overlap, is [10+100, 20+100, 30+100]. *)
Lemma blend_frames_inside_overlap_witness :
  exists (r : nat) (h' : list ndarray) (res : ndarray),
    blend_frames 0%nat 1%nat "Add" half
      [uniform uint8 10 10 [10; 20; 30]; uniform uint8 4 4 [200; 200; 200]]
    = Some (r, h') /\
    h' !! r = Some res /\
    pixel_at (rows res) 3 3 = Some [110; 120; 130].
Proof.
  destruct (blend_frames_inside_overlap
              [uniform uint8 10 10 [10; 20; 30]; uniform uint8 4 4 [200; 200; 200]]
              0%nat 1%nat _ _ "Add" half (additive half) 3 3
              [10; 20; 30] [200; 200; 200]
              ltac:(discriminate) eq_refl eq_refl
              eq_refl eq_refl eq_refl eq_refl)
    as (r & h' & res & Hrun & Hres & _ & _ & _ & _ & Hpix);
    try reflexivity; try (vm_compute; lia);
    try (repeat constructor; cbn; lia).
  exists r, h', res. split; [exact Hrun|]. split; [exact Hres|].
  rewrite Hpix. vm_compute. reflexivity.
Defined.

(** Mode Normal on 8-bit samples: at opacity 0 the sample of the main
    frame comes out, at opacity 1 that of the overlay. *)
Lemma normal_opacity_extremes (mv ov : Z) :
  0 <= mv <= 255 -> 0 <= ov <= 255 ->
  normal (of_Z 0) mv ov = mv /\ normal (of_Z 1) mv ov = ov.
Proof.
  intros Hm Ho.
  pose (zero_times := fun v : Z =>
    match mul (of_Z 0) (of_Z v) with S754_zero false => true | _ => false end).
  pose (kept_l := fun v : Z =>
    astype_uint8 (add (mul (of_Z 1) (of_Z v)) (S754_zero false)) =? v).
  pose (kept_r := fun v : Z =>
    astype_uint8 (add (S754_zero false) (mul (of_Z 1) (of_Z v))) =? v).
  assert (Hz : all_from 256 0 zero_times = true) by (vm_compute; reflexivity).
  assert (Hl : all_from 256 0 kept_l = true) by (vm_compute; reflexivity).
  assert (Hr : all_from 256 0 kept_r = true) by (vm_compute; reflexivity).
  pose proof (all_from_spec 256 0 _ Hz) as Hz'.
  pose proof (all_from_spec 256 0 _ Hl mv ltac:(lia)) as Hl'.
  pose proof (all_from_spec 256 0 _ Hr ov ltac:(lia)) as Hr'.
  pose proof (Hz' mv ltac:(lia)) as Hzm. pose proof (Hz' ov ltac:(lia)) as Hzo.
  unfold zero_times, kept_l, kept_r in *.
  apply Z.eqb_eq in Hl', Hr'.
  unfold normal. split.
  - change (sub (of_Z 1) (of_Z 0)) with (of_Z 1).
    destruct (mul (of_Z 0) (of_Z ov)) as [[]| | |]; try discriminate Hzo.
    exact Hl'.
  - change (sub (of_Z 1) (of_Z 1)) with (S754_zero false).
    change (S754_zero false) with (of_Z 0) at 1.
    destruct (mul (of_Z 0) (of_Z mv)) as [[]| | |]; try discriminate Hzm.
    exact Hr'.
Qed.

(** Mode Normal on 8-bit frames, at a place inside the overlap where the
    two pixels have their samples in 0..255: at opacity 0 the blended
    pixel is the main frame's, at opacity 1 it is the overlay's (cut to
    the main pixel's number of channels). *)
Theorem normal_blend_at_opacity_0_and_1 (h : list ndarray) (main ov : nat)
    (m o : ndarray) (i j : nat) (p q : list Z) :
  h !! main = Some m -> h !! ov = Some o -> same_layout m o = true ->
  (i < Nat.min (height m) (height o))%nat ->
  (j < Nat.min (width m) (width o))%nat ->
  pixel_at (rows m) i j = Some p -> pixel_at (rows o) i j = Some q ->
  length p = length q ->
  Forall (fun v => 0 <= v <= 255) p -> Forall (fun v => 0 <= v <= 255) q ->
  (exists r h' res,
     blend_frames main ov "Normal" (of_Z 0) h = Some (r, h') /\
     h' !! r = Some res /\ pixel_at (rows res) i j = Some p) /\
  (exists r h' res,
     blend_frames main ov "Normal" (of_Z 1) h = Some (r, h') /\
     h' !! r = Some res /\ pixel_at (rows res) i j = Some q).
Proof.
  intros Hm Ho Hl Hi Hj Hp Hq Hlen Hpr Hqr.
  assert (Hzip : zip_with (normal (of_Z 0)) p q = p /\
                 zip_with (normal (of_Z 1)) p q = q).
  { clear Hp Hq. revert q Hlen Hqr.
    induction Hpr as [|a p Ha Hpr IH]; intros [|b q] Hlen Hqr;
      try discriminate; [split; reflexivity|].
    apply Forall_cons in Hqr as (Hb & Hqr). simpl in Hlen.
    destruct (IH q ltac:(lia) Hqr) as (IH0 & IH1).
    destruct (normal_opacity_extremes a b Ha Hb) as (H0 & H1).
    cbn [zip_with]. now rewrite H0, H1, IH0, IH1. }
  destruct Hzip as (Hz0 & Hz1).
  split.
  - destruct (blend_frames_pixel_inside h main ov m o "Normal" (of_Z 0)
                (normal (of_Z 0)) i j p q Hm Ho Hl eq_refl Hi Hj Hp Hq)
      as (r & h' & res & Hrun & Hres & _ & _ & _ & _ & Hpix).
    exists r, h', res. now rewrite Hpix, Hz0.
  - destruct (blend_frames_pixel_inside h main ov m o "Normal" (of_Z 1)
                (normal (of_Z 1)) i j p q Hm Ho Hl eq_refl Hi Hj Hp Hq)
      as (r & h' & res & Hrun & Hres & _ & _ & _ & _ & Hpix).
    exists r, h', res. now rewrite Hpix, Hz1.
Qed.

(** The 1x1 frames 100 and 200: 100 at opacity 0, 200 at opacity 1. *)
Lemma normal_blend_at_opacity_0_and_1_witness :
  (exists r h' res,
     blend_frames 0%nat 1%nat "Normal" (of_Z 0) [px uint8 100; px uint8 200]
       = Some (r, h') /\
     h' !! r = Some res /\ pixel_at (rows res) 0 0 = Some [100]) /\
  (exists r h' res,
     blend_frames 0%nat 1%nat "Normal" (of_Z 1) [px uint8 100; px uint8 200]
       = Some (r, h') /\
     h' !! r = Some res /\ pixel_at (rows res) 0 0 = Some [200]).
Proof.
  apply (normal_blend_at_opacity_0_and_1 [px uint8 100; px uint8 200]
           0%nat 1%nat (px uint8 100) (px uint8 200) 0 0 [100] [200]);
    try reflexivity; try (vm_compute; lia);
    repeat constructor; lia.
Defined.

End BlendInsideFacts.

Section DisplayMoreFacts.
Import Float64 Numpy Display.

Lemma normalize_dtype (a b : ndarray) :
  normalize a = Some b -> arr_dtype b = uint8.
Proof.
  unfold normalize. case_decide as Hd.
  - destruct (arr_max a) as [mx|]; [|discriminate]. simpl.
    destruct (arr_min a) as [mn|]; [|discriminate]. simpl.
    case_decide; intros Heq; injection Heq as <-; reflexivity.
  - intros H. injection H as <-.
    destruct (arr_dtype a); first [reflexivity|discriminate Hd].
Qed.

Lemma cvtColor_inv (conv : list Z -> list Z) (b out : ndarray) :
  cvtColor conv b = Some out ->
  out = mk_ndarray (arr_dtype b) 3
          ((fun r : list (list Z) => conv <$> r) <$> rows b).
Proof.
  unfold cvtColor. destruct (samples b); [discriminate|].
  intros H. now injection H as <-.
Qed.

(** A frame that [to_rgb] returns is returned as it is when given again. *)
Lemma to_rgb_fixed (b out : ndarray) :
  to_rgb b = Some out -> to_rgb out = Some out /\ arr_dtype out = arr_dtype b.
Proof.
  assert (Hgray : forall out, cvtColor gray2rgb b = Some out ->
            to_rgb out = Some out /\ arr_dtype out = arr_dtype b).
  { intros out0 H. apply cvtColor_inv in H as ->. split; [|reflexivity].
    unfold to_rgb; cbn [ndim]. case_decide; [discriminate|].
    assert (Hc : channels (mk_ndarray (arr_dtype b) 3
                   ((fun r : list (list Z) => gray2rgb <$> r) <$> rows b))
                 = 0%nat \/
                 channels (mk_ndarray (arr_dtype b) 3
                   ((fun r : list (list Z) => gray2rgb <$> r) <$> rows b))
                 = 3%nat).
    { unfold channels; cbn [rows].
      destruct (rows b) as [|[|[|v p] r] rs]; simpl; auto. }
    repeat case_decide; try reflexivity; destruct Hc; congruence. }
  unfold to_rgb. case_decide as H2; [apply Hgray|].
  case_decide as H1; [apply Hgray|].
  case_decide as H4.
  - intros H. apply cvtColor_inv in H as ->. split; [|reflexivity].
    unfold to_rgb; cbn [ndim]. case_decide; [discriminate|].
    assert (Hc : channels (mk_ndarray (arr_dtype b) 3
                   ((fun r : list (list Z) => rgba2rgb <$> r) <$> rows b))
                 = 3%nat).
    { unfold channels in *; cbn [rows].
      destruct (rows b) as [|[|p r] rs]; simpl in *; try discriminate.
      unfold rgba2rgb. rewrite length_take. lia. }
    repeat case_decide; try reflexivity; congruence.
  - intros H. injection H as <-. split; [|reflexivity].
    unfold to_rgb. repeat case_decide; try reflexivity; contradiction.
Qed.

(** Displaying is idempotent: the image [display_frame] shows for a frame
    is shown unchanged when it is itself given to [display_frame] (it is
    8-bit and already in its final channel layout). *)
Theorem display_frame_idempotent (a out : ndarray) :
  display_frame a = Some out -> display_frame out = Some out.
Proof.
  unfold display_frame. intros H.
  destruct (normalize a) as [b|] eqn:Hn; [|discriminate]. simpl in H.
  destruct (to_rgb_fixed b out H) as (Hfix & Hd).
  assert (Hu : arr_dtype out = uint8)
    by (rewrite Hd; eapply normalize_dtype, Hn).
  unfold normalize. rewrite Hu.
  case_decide as Hc; [now contradiction Hc|]. simpl. exact Hfix.
Qed.

(** The image shown for the 16-bit gray page is shown as itself. *)
Lemma display_frame_idempotent_witness :
  exists out : ndarray,
    display_frame gray16_example = Some out /\ display_frame out = Some out.
Proof.
  destruct (display_frame gray16_example) as [out|] eqn:E;
    [|vm_compute in E; discriminate E].
  exists out. split; [reflexivity|].
  exact (display_frame_idempotent gray16_example out E).
Defined.

(** A frame without samples that needs a conversion is not shown: for a
    frame that is not 8-bit [frame.max()] raises, for a two-dimensional
    one OpenCV refuses the empty image, and [display_frame] catches the
    exception. *)
Theorem display_frame_without_samples (a : ndarray) :
  samples a = [] -> arr_dtype a <> uint8 \/ ndim a = 2%nat ->
  display_frame a = None.
Proof.
  intros Hs Hc. unfold display_frame, normalize.
  case_decide as Hd.
  - unfold arr_max. now rewrite Hs.
  - destruct Hc as [Hc|Hc]; [contradiction|]. simpl.
    unfold to_rgb. case_decide; [|contradiction].
    unfold cvtColor. now rewrite Hs.
Qed.

(** A 16-bit array of no rows, and an 8-bit gray one. *)
Lemma display_frame_without_samples_witness :
  display_frame (mk_ndarray uint16 3 []) = None /\
  display_frame (mk_ndarray uint8 2 []) = None.
Proof.
  split.
  - apply display_frame_without_samples; [reflexivity|left; discriminate].
  - apply display_frame_without_samples; [reflexivity|right; reflexivity].
Defined.

End DisplayMoreFacts.

Section OpacityFacts.
Import Float64 Overlay.

(** [<] on floats is asymmetric. *)
Lemma ltb_asym (x y : float) : ltb x y = true -> ltb y x = false.
Proof.
  unfold ltb, SFltb, SFcompare.
  destruct x as [sx|sx| |sx mx ex], y as [sy|sy| |sy my ey];
    try destruct sx; try destruct sy; try discriminate; try reflexivity.
  - rewrite (Z.compare_antisym ex ey).
    destruct (ex ?= ey) eqn:He; simpl; try discriminate; try reflexivity.
    change (Pos.compare_cont Eq my mx) with (my ?= mx)%positive.
    change (Pos.compare_cont Eq mx my) with (mx ?= my)%positive.
    rewrite (Pos.compare_antisym mx my).
    destruct (mx ?= my)%positive; simpl; try discriminate; reflexivity.
  - rewrite (Z.compare_antisym ex ey).
    destruct (ex ?= ey) eqn:He; simpl; try discriminate; try reflexivity.
    change (Pos.compare_cont Eq my mx) with (my ?= mx)%positive.
    change (Pos.compare_cont Eq mx my) with (mx ?= my)%positive.
    rewrite (Pos.compare_antisym mx my).
    destruct (mx ?= my)%positive; simpl; try discriminate; reflexivity.
Qed.

Lemma ltb_not_nan_l (x y : float) : ltb x y = true -> x <> S754_nan.
Proof. intros H ->. discriminate H. Qed.

(** [set_opacity], for every float and every manager: the opacity stored
    is a number that is neither below 0 nor above 1; an opacity strictly
    between 0 and 1 is stored as it is; NaN is stored as 1 (Python's
    [min(1.0, nan)] is 1.0); and storing the stored value again changes
    nothing. *)
Theorem set_opacity_clamps (o : float) (m : OverlayManager) :
  let r := opacity (set_opacity o m) in
  r <> S754_nan /\
  ltb r (of_Z 0) = false /\ ltb (of_Z 1) r = false /\
  (ltb (of_Z 0) o = true -> ltb o (of_Z 1) = true -> r = o) /\
  (o = S754_nan -> r = of_Z 1) /\
  opacity (set_opacity r m) = r.
Proof.
  unfold set_opacity; cbn [opacity].
  set (lo := if ltb o (of_Z 1) then o else of_Z 1).
  assert (Hlo : ltb (of_Z 1) lo = false /\ lo <> S754_nan /\
                (ltb lo (of_Z 1) = true \/ lo = of_Z 1)).
  { unfold lo. destruct (ltb o (of_Z 1)) eqn:E.
    - split; [now apply ltb_asym|]. split; [eapply ltb_not_nan_l, E|now left].
    - split; [reflexivity|]. split; [discriminate|now right]. }
  destruct Hlo as (Hlo1 & Hlon & Hlo2).
  set (r := if ltb (of_Z 0) lo then lo else of_Z 0).
  assert (Hr : r <> S754_nan /\ ltb r (of_Z 0) = false /\
               ltb (of_Z 1) r = false /\
               (ltb r (of_Z 1) = true \/ r = of_Z 1)).
  { unfold r. destruct (ltb (of_Z 0) lo) eqn:E.
    - split; [exact Hlon|]. split; [now apply ltb_asym|]. split; assumption.
    - split; [discriminate|]. split; [reflexivity|]. split; [reflexivity|].
      now left. }
  destruct Hr as (Hrn & Hr0 & Hr1 & Hr2).
  split; [exact Hrn|]. split; [exact Hr0|]. split; [exact Hr1|].
  split; [|split].
  - intros H0 H1. unfold r, lo. now rewrite H1, H0.
  - intros ->. reflexivity.
  - assert (Hlo' : (if ltb r (of_Z 1) then r else of_Z 1) = r)
      by (destruct Hr2 as [->|Hr2]; [reflexivity|];
          destruct (ltb r (of_Z 1)); congruence).
    rewrite Hlo'.
    destruct (ltb (of_Z 0) r) eqn:E; [reflexivity|].
    unfold r in *. destruct (ltb (of_Z 0) lo) eqn:E2; [congruence|reflexivity].
Qed.

(** Opacities 0.5, 3 and -2 are stored as 0.5, 1 and 0. *)
Lemma set_opacity_clamps_witness :
  opacity (set_opacity (div (of_Z 1) (of_Z 2)) init) = div (of_Z 1) (of_Z 2) /\
  opacity (set_opacity (of_Z 3) init) = of_Z 1 /\
  opacity (set_opacity (of_Z (-2)) init) = of_Z 0.
Proof.
  split; [|split; reflexivity].
  exact (proj1 (proj2 (proj2 (proj2
           (set_opacity_clamps (div (of_Z 1) (of_Z 2)) init))))
           eq_refl eq_refl).
Defined.

End OpacityFacts.

Section SyncGroupMoreFacts.
Import SyncGroup.

Lemma list_remove_snoc (x : nat) (l : list nat) :
  x ∉ l -> list_remove x (l ++ [x]) = l.
Proof.
  induction l as [|y l IH]; intros Hx; simpl.
  - case_decide; [reflexivity|contradiction].
  - case_decide as Hy; [exfalso; apply Hx; subst; left|].
    f_equal. apply IH. intros Hin. apply Hx. now right.
Qed.

(** On a group reached by additions and removals: removing a player that
    is not a member changes nothing, and adding a player that is not a
    member and removing it again gives the group back, members, order and
    master. *)
Theorem sync_group_add_remove_round_trip (ops : list op) (p : nat) :
  p ∉ players (run ops) ->
  remove_player (run ops) p = run ops /\
  remove_player (add_player (run ops) p) p = run ops.
Proof.
  intros Hp. pose proof (run_ok ops) as Hok.
  destruct (run ops) as [ps m]. unfold master_ok in Hok. simpl in *.
  split.
  - unfold remove_player; simpl. case_decide; [contradiction|].
    destruct ps as [|q ps]; [now rewrite Hok|].
    destruct Hok as (x & -> & Hx).
    case_decide as He; [|reflexivity].
    injection He as ->. contradiction.
  - assert (Hrem : list_remove p (ps ++ [p]) = ps) by now apply list_remove_snoc.
    assert (Hin : p ∈ ps ++ [p]) by (apply elem_of_app; right; left).
    unfold add_player, remove_player; cbn [players master].
    destruct m as [x|]; cbn [players master set_master].
    + case_decide; [|contradiction]. rewrite Hrem.
      destruct ps as [|q ps]; [discriminate Hok|].
      destruct Hok as (y & Hy & Hyin). injection Hy as <-.
      case_decide as He; [injection He as ->; contradiction|reflexivity].
    + case_decide; [|contradiction]. rewrite Hrem.
      destruct ps as [|q ps]; [reflexivity|].
      destruct Hok as (y & Hy & _). discriminate Hy.
Qed.

(** Players 1 and 2 are synchronised; 5 is not a member. *)
Lemma sync_group_add_remove_round_trip_witness :
  remove_player (run [Add 1; Add 2]) 5 = run [Add 1; Add 2] /\
  remove_player (add_player (run [Add 1; Add 2]) 5) 5 = run [Add 1; Add 2].
Proof.
  apply (sync_group_add_remove_round_trip [Add 1; Add 2] 5).
  intros Hin. vm_compute in Hin.
  repeat (apply elem_of_cons in Hin as [Hin|Hin]; [discriminate Hin|]).
  now apply elem_of_nil in Hin.
Defined.

End SyncGroupMoreFacts.

Section SteppingFacts.
Import Player.

Lemma when_inv (b : bool) (m : W unit) (w w' : world) (u : unit) :
  when b m w = Some (u, w') ->
  (b = true /\ m w = Some (u, w')) \/ (b = false /\ w' = w).
Proof.
  destruct b; simpl; [now left|]. intros H. injection H as _ <-. now right.
Qed.

(** What [_seek_to_frame] does to the windows: only the window sought in
    changes. *)
Lemma seek_to_frame_windows (id : nat) (k : Z) (w w' : world) :
  _seek_to_frame id k w = Some (tt, w') ->
  exists (x : VideoPlayerWindow) (path : string),
    windows w !! id = Some x /\
    windows w'
    = <[id := set_current_frame_index k
                (set_frame_label (k, total_frames x - 1)
                   (set_loader_thread
                      (Some (mk_loader path k [slot_preserve_position])) x))]>
        (windows w).
Proof.
  intros Hrun. unfold _seek_to_frame in Hrun.
  apply bind_inv in Hrun as (x & w0 & Hget & Hrun).
  apply get_inv in Hget as (Hx & ->).
  apply bind_inv in Hrun as (u1 & w1 & H1 & Hrun).
  assert (Hw1 : windows w1 = windows w).
  { destruct (loader_thread x); [apply emit_inv in H1|injection H1 as _ <-];
      now subst. }
  apply bind_inv in Hrun as (path & w2 & H2 & Hrun).
  assert (Hw2 : w2 = w1).
  { destruct (file_path x); [now injection H2 as _ <-|discriminate H2]. }
  subst w2.
  apply bind_inv in Hrun as (u3 & w3 & H3 & Hrun).
  apply bind_inv in Hrun as (u4 & w4 & H4 & Hrun).
  apply bind_inv in Hrun as (u5 & w5 & H5 & Hrun).
  apply bind_inv in Hrun as (u6 & w6 & H6 & H7).
  apply modify_inv in H3 as (x3 & Hx3 & ->).
  apply emit_inv in H4 as ->. apply emit_inv in H7 as ->.
  apply modify_inv in H5 as (x5 & Hx5 & ->).
  apply modify_inv in H6 as (x6 & Hx6 & ->).
  cbn [windows group events] in *.
  assert (Hlt : (id < length (windows w))%nat) by (eapply lookup_lt_Some, Hx).
  rewrite Hw1 in *. rewrite Hx in Hx3. injection Hx3 as <-.
  rewrite list_lookup_insert_eq in Hx5 by exact Hlt. injection Hx5 as <-.
  rewrite list_lookup_insert_eq in Hx6 by (rewrite ?length_insert; exact Hlt).
  injection Hx6 as <-.
  exists x, path. split; [exact Hx|]. now rewrite !list_insert_insert_eq.
Qed.

(** The frame index and the total, which pausing and resuming keep. *)
Lemma keeps_lookup {A B : Type} (proj : VideoPlayerWindow -> B) (m : W A)
    (w w' : world) (a : A) (id : nat) (x : VideoPlayerWindow) :
  keeps proj m -> m w = Some (a, w') -> windows w !! id = Some x ->
  exists x', windows w' !! id = Some x' /\ proj x' = proj x.
Proof.
  intros Hk Hm Hx. eapply lookup_of_fmap_eq; [exact (Hk w a w' Hm)|exact Hx].
Qed.

(** [pause;; seek k;; resume], the body shared by [next_frame],
    [prev_frame] and [slider_changed]: the window ends at frame [k]. *)
Lemma pause_seek_resume (id : nat) (k : Z) (was_playing : bool)
    (w w' : world) (x : VideoPlayerWindow) :
  windows w !! id = Some x ->
  (when was_playing (stop_playback id);;
   _seek_to_frame id k;;
   when was_playing (start_playback id)) w = Some (tt, w') ->
  exists x', windows w' !! id = Some x' /\
             current_frame_index x' = k /\ total_frames x' = total_frames x /\
             loader_thread x' <> None.
Proof.
  intros Hx Hrun.
  pose (proj := fun y : VideoPlayerWindow =>
                  (current_frame_index y, total_frames y, loader_thread y)).
  assert (Kstop : keeps proj (when was_playing (stop_playback id)))
    by (apply keeps_when, keeps_stop_playback; reflexivity).
  assert (Kstart : keeps proj (when was_playing (start_playback id)))
    by (apply keeps_when, keeps_start_playback; reflexivity).
  apply bind_inv in Hrun as ([] & w1 & H1 & Hrun).
  apply bind_inv in Hrun as ([] & w2 & H2 & H3).
  destruct (keeps_lookup proj _ w w1 tt id x Kstop H1 Hx) as (x1 & Hx1 & Hp1).
  destruct (seek_to_frame_windows id k w1 w2 H2) as (y & path & Hy & Hw2).
  rewrite Hx1 in Hy. injection Hy as <-.
  assert (Hx2 : windows w2 !! id
                = Some (set_current_frame_index k
                          (set_frame_label (k, total_frames x1 - 1)
                             (set_loader_thread
                                (Some (mk_loader path k [slot_preserve_position]))
                                x1)))).
  { rewrite Hw2. apply list_lookup_insert_eq. eapply lookup_lt_Some, Hx1. }
  destruct (keeps_lookup proj _ w2 w' tt id _ Kstart H3 Hx2) as (x' & Hx' & Hp').
  exists x'. split; [exact Hx'|].
  unfold proj in *. cbn in Hp'. injection Hp' as -> -> ->.
  injection Hp1 as _ -> _.
  split; [reflexivity|]. split; [reflexivity|discriminate].
Qed.

(** [next_frame] on a loaded window: the index it leaves. *)
Lemma next_frame_result (id : nat) (w w' : world) (x : VideoPlayerWindow) :
  windows w !! id = Some x -> loader_thread x <> None ->
  next_frame id w = Some (tt, w') ->
  exists x', windows w' !! id = Some x' /\
             current_frame_index x'
             = (if total_frames x <=? current_frame_index x + 1 then 0
                else current_frame_index x + 1) /\
             total_frames x' = total_frames x /\ loader_thread x' <> None.
Proof.
  intros Hx Hl Hrun. unfold next_frame in Hrun.
  apply bind_inv in Hrun as (y & w0 & Hget & Hrun).
  apply get_inv in Hget as (Hy & ->). rewrite Hx in Hy. injection Hy as <-.
  destruct (loader_thread x) as [l|]; [|now contradiction Hl].
  exact (pause_seek_resume id _ (is_playing x) w w' x Hx Hrun).
Qed.

(** [next_frame] on a loaded window whose index is inside the file: when
    it returns, the window is at the next index modulo the number of
    frames -- at frame 0 after the last frame. *)
Theorem next_frame_advances_modulo (id : nat) (w w' : world)
    (x : VideoPlayerWindow) :
  windows w !! id = Some x -> loader_thread x <> None ->
  0 <= current_frame_index x < total_frames x ->
  next_frame id w = Some (tt, w') ->
  exists x', windows w' !! id = Some x' /\
             current_frame_index x'
             = (current_frame_index x + 1) mod total_frames x /\
             total_frames x' = total_frames x.
Proof.
  intros Hx Hl Hr Hrun.
  destruct (next_frame_result id w w' x Hx Hl Hrun) as (x' & Hx' & Hi & Ht & _).
  exists x'. split; [exact Hx'|]. split; [|exact Ht]. rewrite Hi.
  destruct (total_frames x <=? current_frame_index x + 1) eqn:E.
  - apply Z.leb_le in E.
    assert (He : current_frame_index x + 1 = total_frames x) by lia.
    rewrite He. symmetry. apply Z.mod_same. lia.
  - apply Z.leb_gt in E. symmetry. apply Z.mod_small. lia.
Qed.

(** The playing master at the last frame of the 10-frame file steps to
    frame 0. *)
Lemma next_frame_advances_modulo_witness :
  exists (w' : world) (x' : VideoPlayerWindow),
    next_frame 0 (synced (loaded_window true true 9) (loaded_window true true 9))
    = Some (tt, w') /\
    windows w' !! 0%nat = Some x' /\ current_frame_index x' = 0.
Proof.
  destruct (next_frame 0 (synced (loaded_window true true 9)
                            (loaded_window true true 9)))
    as [[[] w']|] eqn:E; [|vm_compute in E; discriminate E].
  destruct (next_frame_advances_modulo 0
              (synced (loaded_window true true 9) (loaded_window true true 9))
              w' (loaded_window true true 9) eq_refl)
    as (x' & Hx' & Hi & _); [discriminate|simpl; lia|exact E|].
  exists w', x'. split; [reflexivity|]. split; [exact Hx'|]. exact Hi.
Defined.

(** [prev_frame] undoes [next_frame] except at the last frame: from an
    index below the last one, [next_frame] then [prev_frame] returns the
    window to its index; from the last index the pair leaves it at frame
    0, where [prev_frame] does nothing. *)
Theorem prev_frame_after_next_frame (id : nat) (w w' : world)
    (x : VideoPlayerWindow) :
  windows w !! id = Some x -> loader_thread x <> None ->
  0 <= current_frame_index x < total_frames x ->
  (next_frame id;; prev_frame id) w = Some (tt, w') ->
  exists x', windows w' !! id = Some x' /\
             current_frame_index x'
             = (if current_frame_index x + 1 <? total_frames x
                then current_frame_index x else 0).
Proof.
  intros Hx Hl Hr Hrun.
  apply bind_inv in Hrun as ([] & w1 & Hnext & Hprev).
  destruct (next_frame_result id w w1 x Hx Hl Hnext)
    as (x1 & Hx1 & Hi1 & Ht1 & Hl1).
  unfold prev_frame in Hprev.
  apply bind_inv in Hprev as (y & w0 & Hget & Hprev).
  apply get_inv in Hget as (Hy & ->). rewrite Hx1 in Hy. injection Hy as <-.
  destruct (loader_thread x1) as [l1|]; [|now contradiction Hl1].
  destruct (current_frame_index x + 1 <? total_frames x) eqn:E.
  - apply Z.ltb_lt in E.
    assert (Hle : (total_frames x <=? current_frame_index x + 1) = false)
      by (apply Z.leb_gt; lia).
    rewrite Hle in Hi1.
    assert (Hpos : (current_frame_index x1 <=? 0) = false)
      by (apply Z.leb_gt; lia).
    rewrite Hpos in Hprev.
    destruct (pause_seek_resume id _ (is_playing x1) w1 w' x1 Hx1 Hprev)
      as (x' & Hx' & Hi & _).
    exists x'. split; [exact Hx'|]. rewrite Hi, Hi1.
    assert (Hlt : (current_frame_index x + 1 - 1 <? 0) = false)
      by (apply Z.ltb_ge; lia).
    rewrite Hlt. lia.
  - apply Z.ltb_ge in E.
    assert (Hle : (total_frames x <=? current_frame_index x + 1) = true)
      by (apply Z.leb_le; lia).
    rewrite Hle in Hi1.
    exists x1. rewrite Hi1 in Hprev. simpl in Hprev.
    injection Hprev as <-. split; [exact Hx1|exact Hi1].
Qed.

(** Paused at frame 3 of 10, and at the last frame 9. *)
Lemma prev_frame_after_next_frame_witness :
  (exists w' x',
     (next_frame 0;; prev_frame 0) (single (loaded_window false false 3))
     = Some (tt, w') /\
     windows w' !! 0%nat = Some x' /\ current_frame_index x' = 3) /\
  (exists w' x',
     (next_frame 0;; prev_frame 0) (single (loaded_window false false 9))
     = Some (tt, w') /\
     windows w' !! 0%nat = Some x' /\ current_frame_index x' = 0).
Proof.
  split.
  - destruct ((next_frame 0;; prev_frame 0) (single (loaded_window false false 3)))
      as [[[] w']|] eqn:E; [|vm_compute in E; discriminate E].
    destruct (prev_frame_after_next_frame 0
                (single (loaded_window false false 3)) w'
                (loaded_window false false 3) eq_refl)
      as (x' & Hx' & Hi); [discriminate|simpl; lia|exact E|].
    exists w', x'. split; [reflexivity|]. split; [exact Hx'|exact Hi].
  - destruct ((next_frame 0;; prev_frame 0) (single (loaded_window false false 9)))
      as [[[] w']|] eqn:E; [|vm_compute in E; discriminate E].
    destruct (prev_frame_after_next_frame 0
                (single (loaded_window false false 9)) w'
                (loaded_window false false 9) eq_refl)
      as (x' & Hx' & Hi); [discriminate|simpl; lia|exact E|].
    exists w', x'. split; [reflexivity|]. split; [exact Hx'|exact Hi].
Defined.

End SteppingFacts.

Section SyncPropagationFacts.
Import Player.

(** [set_sync_playing p false] pauses window [p] and touches no other
    window. *)
Lemma set_sync_playing_false_windows (p : nat) (w w' : world) :
  set_sync_playing p false w = Some (tt, w') ->
  forall q x, windows w !! q = Some x ->
    exists x', windows w' !! q = Some x' /\
               (q = p -> is_playing x' = false) /\
               (q <> p -> x' = x).
Proof.
  intros Hrun q x Hq. unfold set_sync_playing in Hrun.
  apply bind_inv in Hrun as (y & w0 & Hget & Hrun).
  apply get_inv in Hget as (Hy & ->). cbn [andb negb] in Hrun.
  destruct (is_playing y) eqn:Hplay.
  - unfold stop_playback_body in Hrun.
    rewrite (modify_modify p _ _ w y Hy) in Hrun. injection Hrun as <-.
    cbn [windows]. destruct (decide (q = p)) as [->|Hne].
    + eexists. split; [apply list_lookup_insert_eq; eapply lookup_lt_Some, Hy|].
      split; [reflexivity|]. intros Hne. now contradiction Hne.
    + exists x. split; [now rewrite list_lookup_insert_ne by congruence|].
      split; [intros He; now contradiction Hne|reflexivity].
  - injection Hrun as <-. exists x. split; [exact Hq|].
    split; [|reflexivity]. intros ->. rewrite Hy in Hq. now injection Hq as <-.
Qed.

(** The loop of [SyncGroup.set_playing(False)]: every listed window other
    than the master ends paused; a paused window stays paused; the master
    is not touched. *)
Lemma set_playing_false_loop (g : SyncGroup.t) (l : list nat) :
  forall w w',
    for_each l (fun player =>
      when (negb (SyncGroup.is_master g player))
        (set_sync_playing player false)) w = Some (tt, w') ->
    forall q x, windows w !! q = Some x ->
      exists x', windows w' !! q = Some x' /\
                 (is_playing x = false -> is_playing x' = false) /\
                 (q ∈ l -> SyncGroup.master g <> Some q ->
                  is_playing x' = false).
Proof.
  induction l as [|p l IH]; intros w w' Hrun q x Hq.
  - injection Hrun as <-. exists x. split; [exact Hq|]. split; [tauto|].
    intros Hin. now apply elem_of_nil in Hin.
  - cbn [for_each] in Hrun.
    apply bind_inv in Hrun as ([] & w1 & Hbody & Hrest).
    assert (H1 : exists x1, windows w1 !! q = Some x1 /\
                   (is_playing x = false -> is_playing x1 = false) /\
                   (q = p -> SyncGroup.master g <> Some q ->
                    is_playing x1 = false)).
    { apply when_inv in Hbody as [(Hnm & Hbody)|(Hm & ->)].
      - destruct (set_sync_playing_false_windows p w w1 Hbody q x Hq)
          as (x1 & Hx1 & Hp & Ho).
        exists x1. split; [exact Hx1|]. split.
        + intros Hx. destruct (decide (q = p)) as [He|Hne]; [now apply Hp|].
          now rewrite (Ho Hne).
        + intros He _. now apply Hp.
      - exists x. split; [exact Hq|]. split; [tauto|].
        intros -> Hnm. exfalso. apply Hnm.
        apply negb_false_iff in Hm. unfold SyncGroup.is_master in Hm.
        now apply bool_decide_eq_true in Hm. }
    destruct H1 as (x1 & Hx1 & Hkeep1 & Hp1).
    destruct (IH w1 w' Hrest q x1 Hx1) as (x' & Hx' & Hkeep & Hin').
    exists x'. split; [exact Hx'|]. split; [tauto|].
    intros Hin Hnm. apply elem_of_cons in Hin as [He|Hin]; [|now apply Hin'].
    apply Hkeep. now apply Hp1.
Qed.

(** Pausing the master pauses the group: when [stop_playback] returns on
    the master of the group, the master and every member of the group are
    paused. *)
Theorem master_stop_pauses_every_member (m : nat) (w w' : world)
    (x : VideoPlayerWindow) :
  windows w !! m = Some x -> sync_group x = true ->
  SyncGroup.master (group w) = Some m ->
  stop_playback m w = Some (tt, w') ->
  forall p xp, p = m \/ p ∈ SyncGroup.players (group w) ->
    windows w !! p = Some xp ->
    exists y, windows w' !! p = Some y /\ is_playing y = false.
Proof.
  intros Hx Hsg Hm Hrun p xp Hp Hxp. unfold stop_playback in Hrun.
  apply bind_inv in Hrun as ([] & w1 & Hbody & Hrun).
  unfold stop_playback_body in Hbody.
  rewrite (modify_modify m _ _ w x Hx) in Hbody. injection Hbody as <-.
  assert (Hlt : (m < length (windows w))%nat) by (eapply lookup_lt_Some, Hx).
  apply bind_inv in Hrun as (b & w2 & Hmaster & Hrun).
  unfold is_sync_master in Hmaster.
  apply bind_inv in Hmaster as (x1 & w3 & Hget & Hmaster).
  apply get_inv in Hget as (Hx1 & ->). cbn [windows] in Hx1.
  rewrite list_lookup_insert_eq in Hx1 by exact Hlt. injection Hx1 as <-.
  injection Hmaster as <- <-. cbn [group sync_group set_timer set_is_playing] in Hrun.
  rewrite Hsg in Hrun. unfold SyncGroup.is_master in Hrun.
  rewrite bool_decide_eq_true_2 in Hrun by exact Hm. cbn [andb when] in Hrun.
  unfold set_playing in Hrun.
  apply bind_inv in Hrun as (g & w4 & Hg & Hloop).
  injection Hg as <- <-. cbn [group] in Hloop.
  destruct (decide (p = m)) as [->|Hne].
  - destruct (set_playing_false_loop _ _ _ _ Hloop m
                (set_timer None (set_is_playing false x)))
      as (y & Hy & Hkeep & _).
    { cbn [windows]. now apply list_lookup_insert_eq. }
    exists y. split; [exact Hy|]. now apply Hkeep.
  - destruct Hp as [He|Hin]; [now contradiction Hne|].
    destruct (set_playing_false_loop _ _ _ _ Hloop p xp)
      as (y & Hy & _ & Hpaused).
    { cbn [windows]. now rewrite list_lookup_insert_ne by congruence. }
    exists y. split; [exact Hy|]. apply Hpaused; [exact Hin|].
    rewrite Hm. congruence.
Qed.

(** Window 0, the playing master of two synchronised windows, is paused:
    window 1, which was playing, is paused too. *)
Lemma master_stop_pauses_every_member_witness :
  exists (w' : world) (y : VideoPlayerWindow),
    stop_playback 0 (synced (loaded_window true true 3)
                            (loaded_window true true 3)) = Some (tt, w') /\
    windows w' !! 1%nat = Some y /\ is_playing y = false.
Proof.
  destruct (stop_playback 0 (synced (loaded_window true true 3)
                                    (loaded_window true true 3)))
    as [[[] w']|] eqn:E; [|vm_compute in E; discriminate E].
  destruct (master_stop_pauses_every_member 0
              (synced (loaded_window true true 3) (loaded_window true true 3))
              w' (loaded_window true true 3) eq_refl eq_refl eq_refl E
              1%nat (loaded_window true true 3))
    as (y & Hy & Hpaused); [right; apply list_elem_of_In; simpl; tauto|reflexivity|].
  exists w', y. split; [reflexivity|]. split; [exact Hy|exact Hpaused].
Defined.

End SyncPropagationFacts.

Section SyncFrameFacts.
Import Player.

(** [set_sync_frame p k]: window [p] ends at frame [k] if it has a loader;
    nothing else changes an index, and no window gains or loses its
    loader. *)
Lemma set_sync_frame_windows (p : nat) (k : Z) (w w' : world) :
  set_sync_frame p k w = Some (tt, w') ->
  forall q x, windows w !! q = Some x ->
    exists x', windows w' !! q = Some x' /\
               (loader_thread x' = None <-> loader_thread x = None) /\
               (q = p -> loader_thread x <> None ->
                current_frame_index x' = k) /\
               (q <> p \/ loader_thread x = None ->
                current_frame_index x' = current_frame_index x).
Proof.
  intros Hrun q x Hq. unfold set_sync_frame in Hrun.
  apply bind_inv in Hrun as (y & w0 & Hget & Hrun).
  apply get_inv in Hget as (Hy & ->).
  destruct (loader_thread y) as [l|] eqn:Hl.
  2:{ injection Hrun as <-. exists x. split; [exact Hq|]. split; [tauto|].
      split; [|tauto]. intros -> Hx. rewrite Hy in Hq. injection Hq as <-.
      now contradiction Hx. }
  destruct (k =? current_frame_index y) eqn:Hk.
  { injection Hrun as <-. apply Z.eqb_eq in Hk. exists x.
    split; [exact Hq|]. split; [tauto|]. split; [|tauto].
    intros -> _. rewrite Hy in Hq. injection Hq as <-. now symmetry. }
  pose (proj := fun z : VideoPlayerWindow =>
                  (current_frame_index z, loader_thread z)).
  assert (Kstop : keeps proj (when (is_playing y) (stop_playback p)))
    by (apply keeps_when, keeps_stop_playback; reflexivity).
  assert (Kstart : forall b, keeps proj
            (when b
               (g ← the_group;
                match SyncGroup.master g with
                | Some m => z ← get m; when (is_playing z) (start_playback p)
                | None => mret tt
                end))).
  { intros b. apply keeps_when.
    apply keeps_bind; [apply keeps_the_group|intros g].
    destruct (SyncGroup.master g) as [m|]; [|apply keeps_ret].
    apply keeps_bind; [apply keeps_get|intros z].
    apply keeps_when, keeps_start_playback; reflexivity. }
  apply bind_inv in Hrun as ([] & w1 & H1 & Hrun).
  apply bind_inv in Hrun as ([] & w2 & H2 & H3).
  destruct (keeps_lookup proj _ w w1 tt q x Kstop H1 Hq) as (x1 & Hx1 & Hp1).
  destruct (seek_to_frame_windows p k w1 w2 H2) as (y1 & path & Hy1 & Hw2).
  assert (Hx2 : exists x2, windows w2 !! q = Some x2 /\
                  (loader_thread x2 = None <-> loader_thread x1 = None) /\
                  (q = p -> current_frame_index x2 = k) /\
                  (q <> p -> current_frame_index x2 = current_frame_index x1)).
  { rewrite Hw2. destruct (decide (q = p)) as [->|Hne].
    - rewrite Hx1 in Hy1. injection Hy1 as <-.
      eexists. split; [apply list_lookup_insert_eq; eapply lookup_lt_Some, Hx1|].
      cbn. destruct (keeps_lookup proj _ w w1 tt p y Kstop H1 Hy)
        as (y' & Hy' & Hpy).
      rewrite Hx1 in Hy'. injection Hy' as <-.
      unfold proj in Hpy. injection Hpy as _ Hly. rewrite Hly, Hl.
      split; [split; discriminate|]. split; [reflexivity|].
      intros Hne. now contradiction Hne.
    - exists x1. split; [now rewrite list_lookup_insert_ne by congruence|].
      split; [tauto|]. split; [intros He; now contradiction Hne|reflexivity]. }
  destruct Hx2 as (x2 & Hx2 & Hl2 & Hk2 & Ho2).
  destruct (keeps_lookup proj _ w2 w' tt q x2 (Kstart _) H3 Hx2)
    as (x' & Hx' & Hp').
  unfold proj in Hp1, Hp'. injection Hp1 as Hi1 Hl1. injection Hp' as Hi' Hl'.
  exists x'. split; [exact Hx'|]. rewrite Hl', Hi'. rewrite Hl1 in Hl2.
  split; [exact Hl2|]. split.
  - intros He _. now apply Hk2.
  - intros [Hne|Hnone].
    + rewrite (Ho2 Hne). exact Hi1.
    + destruct (decide (q = p)) as [->|Hne]; [|rewrite (Ho2 Hne); exact Hi1].
      rewrite Hy in Hq. injection Hq as <-. rewrite Hl in Hnone.
      discriminate Hnone.
Qed.

(** The loop of [SyncGroup.sync_to_frame]. *)
Lemma sync_to_frame_loop (g : SyncGroup.t) (k : Z) (l : list nat) :
  forall w w',
    for_each l (fun player =>
      when (negb (SyncGroup.is_master g player))
        (set_sync_frame player k)) w = Some (tt, w') ->
    forall q x, windows w !! q = Some x ->
      exists x', windows w' !! q = Some x' /\
                 (loader_thread x' = None <-> loader_thread x = None) /\
                 (q ∈ l -> SyncGroup.master g <> Some q ->
                  loader_thread x <> None -> current_frame_index x' = k) /\
                 (q ∉ l \/ SyncGroup.master g = Some q \/
                  loader_thread x = None ->
                  current_frame_index x' = current_frame_index x).
Proof.
  induction l as [|p l IH]; intros w w' Hrun q x Hq.
  - injection Hrun as <-. exists x. split; [exact Hq|]. split; [reflexivity|].
    split; [|reflexivity].
    intros Hin. now apply elem_of_nil in Hin.
  - cbn [for_each] in Hrun.
    apply bind_inv in Hrun as ([] & w1 & Hbody & Hrest).
    assert (H1 : exists x1, windows w1 !! q = Some x1 /\
                   (loader_thread x1 = None <-> loader_thread x = None) /\
                   (q = p -> SyncGroup.master g <> Some q ->
                    loader_thread x <> None -> current_frame_index x1 = k) /\
                   (q <> p \/ SyncGroup.master g = Some q \/
                    loader_thread x = None ->
                    current_frame_index x1 = current_frame_index x)).
    { apply when_inv in Hbody as [(Hnm & Hbody)|(Hm & ->)].
      - destruct (set_sync_frame_windows p k w w1 Hbody q x Hq)
          as (x1 & Hx1 & Hl1 & Hk1 & Ho1).
        exists x1. split; [exact Hx1|]. split; [exact Hl1|]. split.
        + intros He _ Hl. now apply Hk1.
        + intros [Hne|[Hmq|Hnone]]; [apply Ho1; now left| |apply Ho1; now right].
          apply Ho1. left. intros ->.
          apply negb_true_iff in Hnm. unfold SyncGroup.is_master in Hnm.
          now apply bool_decide_eq_false in Hnm.
      - exists x. split; [exact Hq|]. split; [reflexivity|].
        split; [|reflexivity].
        intros -> Hnm. exfalso. apply Hnm.
        apply negb_false_iff in Hm. unfold SyncGroup.is_master in Hm.
        now apply bool_decide_eq_true in Hm. }
    destruct H1 as (x1 & Hx1 & Hl1 & Hk1 & Ho1).
    destruct (IH w1 w' Hrest q x1 Hx1) as (x' & Hx' & Hl' & Hk' & Ho').
    clear IH Hrest Hbody Hx1 Hq.
    exists x'. split; [exact Hx'|]. split; [now rewrite Hl'|].
    split.
    + intros Hin Hnm Hs. destruct (decide (q ∈ l)) as [Hl|Hnl].
      * apply Hk'; [exact Hl|exact Hnm|]. intros Hn. apply Hs. now apply Hl1.
      * apply elem_of_cons in Hin as [He|Hin]; [|now contradiction Hnl].
        rewrite Ho' by now left. now apply Hk1.
    + intros [Hnin|[Hmq|Hnone]].
      * apply not_elem_of_cons in Hnin as (Hne & Hnl).
        rewrite Ho' by now left. apply Ho1. now left.
      * rewrite Ho' by (right; now left). apply Ho1. right. now left.
      * rewrite Ho' by (right; right; now apply Hl1). apply Ho1.
        right. now right.
Qed.

(** [SyncGroup.sync_to_frame(k)]: when it returns, every member of the
    group other than the master that has a loader is at frame [k]; the
    master, the windows outside the group and the windows without a loader
    are at the index they had. *)
Theorem sync_to_frame_moves_the_followers (k : Z) (w w' : world) :
  sync_to_frame k w = Some (tt, w') ->
  forall q x, windows w !! q = Some x ->
    exists x', windows w' !! q = Some x' /\
               (q ∈ SyncGroup.players (group w) ->
                SyncGroup.master (group w) <> Some q ->
                loader_thread x <> None -> current_frame_index x' = k) /\
               (q ∉ SyncGroup.players (group w) \/
                SyncGroup.master (group w) = Some q \/
                loader_thread x = None ->
                current_frame_index x' = current_frame_index x).
Proof.
  intros Hrun q x Hq. unfold sync_to_frame in Hrun.
  apply bind_inv in Hrun as (g & w1 & Hg & Hloop). injection Hg as <- <-.
  destruct (sync_to_frame_loop _ k _ w w' Hloop q x Hq)
    as (x' & Hx' & _ & Hk & Ho).
  exists x'. split; [exact Hx'|]. split; [exact Hk|exact Ho].
Qed.

(** Two synchronised windows, the master at frame 5 and the follower at
    frame 2: the follower is brought to frame 7, the master stays at 5. *)
Lemma sync_to_frame_moves_the_followers_witness :
  exists (w' : world) (y0 y1 : VideoPlayerWindow),
    sync_to_frame 7 (synced (loaded_window true true 5)
                            (loaded_window true true 2)) = Some (tt, w') /\
    windows w' !! 0%nat = Some y0 /\ current_frame_index y0 = 5 /\
    windows w' !! 1%nat = Some y1 /\ current_frame_index y1 = 7.
Proof.
  destruct (sync_to_frame 7 (synced (loaded_window true true 5)
                                    (loaded_window true true 2)))
    as [[[] w']|] eqn:E; [|vm_compute in E; discriminate E].
  destruct (sync_to_frame_moves_the_followers 7 _ w' E 0%nat
              (loaded_window true true 5) eq_refl) as (y0 & Hy0 & _ & Hkeep).
  destruct (sync_to_frame_moves_the_followers 7 _ w' E 1%nat
              (loaded_window true true 2) eq_refl) as (y1 & Hy1 & Hmove & _).
  exists w', y0, y1. split; [reflexivity|]. split; [exact Hy0|].
  split; [apply Hkeep; right; left; reflexivity|]. split; [exact Hy1|].
  apply Hmove; [apply list_elem_of_In; simpl; tauto|discriminate|discriminate].
Defined.

End SyncFrameFacts.

Section SyncFpsFacts.
Import Player.

(** [fps_changed] up to the notification of the group: the window takes
    the rate its spin box shows; no other window changes. *)
Lemma fps_changed_body_windows (p : nat) (n : Z) (w w' : world) :
  fps_changed_body p w = Some (n, w') ->
  exists x x', windows w !! p = Some x /\ n = fps_spinbox x /\
               windows w' = <[p := x']> (windows w) /\
               group w' = group w /\
               fps x' = fps_spinbox x /\ fps_spinbox x' = fps_spinbox x /\
               sync_group x' = sync_group x.
Proof.
  intros Hrun. unfold fps_changed_body in Hrun.
  apply bind_inv in Hrun as (x & w0 & Hget & Hrun).
  apply get_inv in Hget as (Hx & ->).
  assert (Hlt : (p < length (windows w))%nat) by (eapply lookup_lt_Some, Hx).
  apply bind_inv in Hrun as ([] & w1 & H1 & Hrun).
  apply modify_inv in H1 as (x0 & Hx0 & ->).
  rewrite Hx in Hx0. injection Hx0 as <-.
  apply bind_inv in Hrun as ([] & w2 & H2 & H3). injection H3 as <- <-.
  apply when_inv in H2 as [(Hplay & H2)|(Hplay & ->)].
  - apply bind_inv in H2 as (i & w3 & Hi & H2).
    assert (w3 = mk_world (<[p := set_fps (fps_spinbox x) x]> (windows w))
                   (group w) (events w)) as ->.
    { unfold timer_interval in Hi.
      destruct (Float64.mul _ _); first [discriminate Hi|now injection Hi]. }
    apply modify_inv in H2 as (x2 & Hx2 & ->). cbn [windows group] in *.
    rewrite list_lookup_insert_eq in Hx2 by exact Hlt. injection Hx2 as <-.
    exists x, (set_timer (Some i) (set_fps (fps_spinbox x) x)).
    split; [exact Hx|]. split; [reflexivity|].
    split; [now rewrite list_insert_insert_eq|]. now repeat split.
  - exists x, (set_fps (fps_spinbox x) x). now repeat split.
Qed.

(** [set_sync_fps p f]: the spin box of window [p] ends at [f] bounded to
    1..120, and so does its rate if the spin box moved; no other window
    changes. *)
Lemma set_sync_fps_windows (p : nat) (f : Z) (w w' : world) :
  set_sync_fps p f w = Some (tt, w') ->
  forall q x, windows w !! q = Some x ->
    exists x', windows w' !! q = Some x' /\
               (q <> p \/ fps_spinbox x = spinbox_bound f -> x' = x) /\
               (q = p -> fps_spinbox x' = spinbox_bound f /\
                         (fps_spinbox x <> spinbox_bound f ->
                          fps x' = spinbox_bound f)).
Proof.
  intros Hrun q x Hq. unfold set_sync_fps in Hrun.
  apply bind_inv in Hrun as (y & w0 & Hget & Hrun).
  apply get_inv in Hget as (Hy & ->).
  assert (Hlt : (p < length (windows w))%nat) by (eapply lookup_lt_Some, Hy).
  apply when_inv in Hrun as [(Hch & Hrun)|(Hch & ->)].
  - apply bool_decide_eq_true in Hch.
    apply bind_inv in Hrun as ([] & w1 & H1 & Hrun).
    apply modify_inv in H1 as (y0 & Hy0 & ->).
    rewrite Hy in Hy0. injection Hy0 as <-.
    apply bind_inv in Hrun as (n & w2 & H2 & H3). injection H3 as <-.
    apply fps_changed_body_windows in H2
      as (y1 & y2 & Hy1 & _ & Hw2 & _ & Hfps & Hbox & _).
    cbn [windows] in Hy1, Hw2.
    rewrite list_lookup_insert_eq in Hy1 by exact Hlt. injection Hy1 as <-.
    rewrite list_insert_insert_eq in Hw2. cbn in Hfps, Hbox.
    rewrite Hw2. destruct (decide (q = p)) as [->|Hne].
    + rewrite Hy in Hq. injection Hq as <-.
      exists y2. split; [now apply list_lookup_insert_eq|]. split.
      * intros [Hne|He]; [now contradiction Hne|]. now contradiction Hch.
      * intros _. split; [exact Hbox|]. intros _. exact Hfps.
    + exists x. split; [now rewrite list_lookup_insert_ne by congruence|].
      split; [reflexivity|]. intros He. now contradiction Hne.
  - apply bool_decide_eq_false in Hch.
    assert (He : spinbox_bound f = fps_spinbox y)
      by (destruct (decide (spinbox_bound f = fps_spinbox y)); tauto).
    exists x. split; [exact Hq|]. split; [reflexivity|].
    intros ->. rewrite Hy in Hq. injection Hq as <-.
    split; [now symmetry|]. intros Hne. now contradiction Hne.
Qed.

(** The loop of [SyncGroup.set_fps]. *)
Lemma group_set_fps_loop (g : SyncGroup.t) (f : Z) (l : list nat) :
  forall w w',
    for_each l (fun player =>
      when (negb (SyncGroup.is_master g player))
        (set_sync_fps player f)) w = Some (tt, w') ->
    forall q x, windows w !! q = Some x ->
      exists x', windows w' !! q = Some x' /\
                 (fps_spinbox x = spinbox_bound f \/
                  SyncGroup.master g = Some q -> x' = x) /\
                 (q ∈ l -> SyncGroup.master g <> Some q ->
                  fps_spinbox x' = spinbox_bound f /\
                  (fps_spinbox x <> spinbox_bound f ->
                   fps x' = spinbox_bound f)).
Proof.
  induction l as [|p l IH]; intros w w' Hrun q x Hq.
  - injection Hrun as <-. exists x. split; [exact Hq|]. split; [reflexivity|].
    intros Hin. now apply elem_of_nil in Hin.
  - cbn [for_each] in Hrun.
    apply bind_inv in Hrun as ([] & w1 & Hbody & Hrest).
    assert (H1 : exists x1, windows w1 !! q = Some x1 /\
                   (q <> p \/ fps_spinbox x = spinbox_bound f \/
                    SyncGroup.master g = Some q -> x1 = x) /\
                   (q = p -> SyncGroup.master g <> Some q ->
                    fps_spinbox x1 = spinbox_bound f /\
                    (fps_spinbox x <> spinbox_bound f ->
                     fps x1 = spinbox_bound f))).
    { apply when_inv in Hbody as [(Hnm & Hbody)|(Hm & ->)].
      - destruct (set_sync_fps_windows p f w w1 Hbody q x Hq)
          as (x1 & Hx1 & Ho1 & Hp1).
        exists x1. split; [exact Hx1|]. split.
        + intros [Hne|[He|Hmq]]; [apply Ho1; now left|apply Ho1; now right|].
          apply Ho1. left. intros ->.
          apply negb_true_iff in Hnm. unfold SyncGroup.is_master in Hnm.
          now apply bool_decide_eq_false in Hnm.
        + intros He _. now apply Hp1.
      - exists x. split; [exact Hq|]. split; [reflexivity|].
        intros -> Hnm. exfalso. apply Hnm.
        apply negb_false_iff in Hm. unfold SyncGroup.is_master in Hm.
        now apply bool_decide_eq_true in Hm. }
    destruct H1 as (x1 & Hx1 & Ho1 & Hp1).
    destruct (IH w1 w' Hrest q x1 Hx1) as (x' & Hx' & Ho' & Hp').
    clear IH Hrest Hbody Hx1 Hq.
    exists x'. split; [exact Hx'|]. split.
    + intros Hcase.
      assert (E1 : x1 = x) by (apply Ho1; now right). subst x1.
      now apply Ho'.
    + intros Hin Hnm.
      destruct (decide (q = p)) as [He|Hne].
      * destruct (Hp1 He Hnm) as (Hbox1 & Hfps1).
        rewrite (Ho' (or_introl Hbox1)). split; [exact Hbox1|exact Hfps1].
      * apply elem_of_cons in Hin as [He|Hin]; [now contradiction Hne|].
        assert (E1 : x1 = x) by (apply Ho1; now left). subst x1.
        now apply Hp'.
Qed.

(** A new rate on the master reaches the group: when [fps_changed]
    returns on the master, the master runs at the rate its spin box shows,
    the spin box of every other member shows that rate bounded to 1..120,
    and every member whose spin box moved runs at it. *)
Theorem master_fps_change_reaches_every_member (m : nat) (w w' : world)
    (x : VideoPlayerWindow) :
  windows w !! m = Some x -> sync_group x = true ->
  SyncGroup.master (group w) = Some m ->
  fps_changed m w = Some (tt, w') ->
  (exists y, windows w' !! m = Some y /\ fps y = fps_spinbox x) /\
  forall p xp, p ∈ SyncGroup.players (group w) -> p <> m ->
    windows w !! p = Some xp ->
    exists y, windows w' !! p = Some y /\
              fps_spinbox y = spinbox_bound (fps_spinbox x) /\
              (fps_spinbox xp <> spinbox_bound (fps_spinbox x) ->
               fps y = spinbox_bound (fps_spinbox x)).
Proof.
  intros Hx Hsg Hm Hrun. unfold fps_changed in Hrun.
  apply bind_inv in Hrun as (n & w1 & Hbody & Hrun).
  apply fps_changed_body_windows in Hbody
    as (x0 & x1 & Hx0 & -> & Hw1 & Hg1 & Hfps & Hbox & Hsg1).
  rewrite Hx in Hx0. injection Hx0 as <-.
  assert (Hlt : (m < length (windows w))%nat) by (eapply lookup_lt_Some, Hx).
  apply bind_inv in Hrun as (b & w2 & Hmaster & Hrun).
  unfold is_sync_master in Hmaster.
  apply bind_inv in Hmaster as (x2 & w3 & Hget & Hmaster).
  apply get_inv in Hget as (Hx2 & ->). rewrite Hw1 in Hx2.
  rewrite list_lookup_insert_eq in Hx2 by exact Hlt. injection Hx2 as <-.
  injection Hmaster as <- <-. rewrite Hsg1, Hsg, Hg1 in Hrun.
  unfold SyncGroup.is_master in Hrun.
  rewrite bool_decide_eq_true_2 in Hrun by exact Hm. cbn [andb when] in Hrun.
  unfold group_set_fps in Hrun.
  apply bind_inv in Hrun as (g & w4 & Hg & Hloop).
  injection Hg as <- <-. rewrite Hg1 in Hloop.
  split.
  - destruct (group_set_fps_loop _ _ _ _ _ Hloop m x1) as (y & Hy & Ho & _).
    { rewrite Hw1. now apply list_lookup_insert_eq. }
    exists y. split; [exact Hy|]. rewrite (Ho (or_intror Hm)). exact Hfps.
  - intros p xp Hin Hne Hxp.
    destruct (group_set_fps_loop _ _ _ _ _ Hloop p xp) as (y & Hy & _ & Hp).
    { rewrite Hw1. now rewrite list_lookup_insert_ne by congruence. }
    exists y. split; [exact Hy|]. apply Hp; [exact Hin|].
    rewrite Hm. congruence.
Qed.

(** The master's spin box of two synchronised windows is turned to 200:
    it is bounded to 120, the master runs at 120 and so does window 1. *)
Lemma master_fps_change_reaches_every_member_witness :
  exists (w' : world) (y0 y1 : VideoPlayerWindow),
    fps_spinbox_setValue 0 200
      (synced (loaded_window true true 3) (loaded_window true true 3))
    = Some (tt, w') /\
    windows w' !! 0%nat = Some y0 /\ fps y0 = 120 /\
    windows w' !! 1%nat = Some y1 /\ fps_spinbox y1 = 120 /\ fps y1 = 120.
Proof.
  pose (x0 := set_fps_spinbox 120 (loaded_window true true 3)).
  pose (w0 := mk_world [x0; loaded_window true true 3]
                (SyncGroup.run [SyncGroup.Add 0; SyncGroup.Add 1]) []).
  destruct (fps_changed 0 w0) as [[[] w']|] eqn:E;
    [|vm_compute in E; discriminate E].
  destruct (master_fps_change_reaches_every_member 0 w0 w' x0
              eq_refl eq_refl eq_refl E) as ((y0 & Hy0 & Hf0) & Hrest).
  destruct (Hrest 1%nat (loaded_window true true 3)) as (y1 & Hy1 & Hb1 & Hf1);
    [apply list_elem_of_In; simpl; tauto|discriminate|reflexivity|].
  exists w', y0, y1. split.
  - unfold fps_spinbox_setValue, synced.
    change (fps_changed 0 w0 = Some (tt, w')). exact E.
  - split; [exact Hy0|]. split; [exact Hf0|]. split; [exact Hy1|].
    split; [exact Hb1|]. apply Hf1. vm_compute. discriminate.
Defined.

End SyncFpsFacts.

Section ToggleSyncFacts.
Import Player App.

Lemma take_drop_fmap_step {A : Type} (f : A -> A) (l : list A) (i : nat) (x : A) :
  l !! i = Some x ->
  take (S i) (<[i := f x]> l) ++ (f <$> drop (S i) (<[i := f x]> l))
  = take i l ++ (f <$> drop i l).
Proof.
  intros Hx.
  assert (Hlt : (i < length l)%nat) by (eapply lookup_lt_Some, Hx).
  rewrite (take_S_r (<[i := f x]> l) i (f x))
    by (now apply list_lookup_insert_eq).
  rewrite take_insert_ge by lia. rewrite drop_insert_lt by lia.
  rewrite (drop_S l x i Hx). rewrite fmap_cons, <- app_assoc. reflexivity.
Qed.

(** The loop of the unchecked branch. *)
Lemma toggle_sync_off_loop (k : nat) :
  forall (i : nat) (w : world),
    (i + k = length (windows w))%nat ->
    for_each (seq i k) (fun player => modify player (set_sync_group false)) w
    = Some (tt, mk_world (take i (windows w)
                          ++ (set_sync_group false <$> drop i (windows w)))
                  (group w) (events w)).
Proof.
  induction k as [|k IH]; intros i w Hlen.
  - cbn [seq for_each]. rewrite drop_ge, take_ge by lia.
    rewrite app_nil_r. now destruct w.
  - cbn [seq for_each].
    destruct (windows w !! i) as [x|] eqn:Hx.
    2:{ apply lookup_ge_None in Hx. lia. }
    unfold mbind, W_bind, modify at 1. rewrite Hx.
    rewrite IH by (cbn [windows]; rewrite length_insert; lia).
    cbn [windows group events].
    now rewrite take_drop_fmap_step.
Qed.

(** The loop of the checked branch. *)
Lemma toggle_sync_on_loop (k : nat) :
  forall (i : nat) (w : world),
    (i + k = length (windows w))%nat ->
    for_each (seq i k) (fun player =>
      modify player (set_sync_group true);;
      modify_group (fun g => SyncGroup.add_player g player)) w
    = Some (tt, mk_world (take i (windows w)
                          ++ (set_sync_group true <$> drop i (windows w)))
                  (fold_left SyncGroup.add_player (seq i k) (group w))
                  (events w)).
Proof.
  induction k as [|k IH]; intros i w Hlen.
  - cbn [seq for_each fold_left]. rewrite drop_ge, take_ge by lia.
    rewrite app_nil_r. now destruct w.
  - cbn [seq for_each fold_left].
    destruct (windows w !! i) as [x|] eqn:Hx.
    2:{ apply lookup_ge_None in Hx. lia. }
    unfold mbind, W_bind, modify at 1, modify_group at 1. rewrite Hx.
    rewrite IH by (cbn [windows]; rewrite length_insert; lia).
    cbn [windows group events].
    now rewrite take_drop_fmap_step.
Qed.

(** Adding the players of a list, one after the other. *)
Lemma fold_add_player (l : list nat) :
  forall g : SyncGroup.t,
    fold_left SyncGroup.add_player l g
    = SyncGroup.mk (SyncGroup.players g ++ l)
        (match SyncGroup.master g with
         | Some m => Some m
         | None => head l
         end).
Proof.
  induction l as [|p l IH]; intros g.
  - cbn [fold_left]. rewrite app_nil_r. now destruct g as [ps [m|]].
  - cbn [fold_left]. rewrite IH. destruct g as [ps [m|]]; cbn;
      now rewrite <- app_assoc.
Qed.

(** [toggle_sync] with the box unchecked. *)
Lemma toggle_sync_unchecked (state : Z) (w : world) :
  state <> Qt_Checked ->
  toggle_sync state w
  = Some (tt, mk_world (set_sync_group false <$> windows w)
                SyncGroup.init (events w)).
Proof.
  intros Hs. unfold toggle_sync.
  apply Z.eqb_neq in Hs. rewrite Hs.
  unfold players, mbind, W_bind.
  rewrite toggle_sync_off_loop by reflexivity. reflexivity.
Qed.

(** [toggle_sync] with the box checked. *)
Lemma toggle_sync_checked (w : world) :
  toggle_sync Qt_Checked w
  = Some (tt, mk_world (set_sync_group true <$> windows w)
                (SyncGroup.mk
                   (SyncGroup.players (group w) ++ seq 0 (length (windows w)))
                   (match SyncGroup.master (group w) with
                    | Some m => Some m
                    | None => head (seq 0 (length (windows w)))
                    end))
                (events w)).
Proof.
  unfold toggle_sync. rewrite Z.eqb_refl.
  unfold players, mbind, W_bind.
  rewrite toggle_sync_on_loop by reflexivity.
  rewrite fold_add_player. reflexivity.
Qed.

(** Unchecking and checking the box again: every window made so far, in
    the order they were made, is a member of a new group with the first
    one as the master, whatever the group was before; nothing else
    changes. *)
Theorem toggle_sync_off_on_rebuilds_group (state : Z) (w : world) :
  state <> Qt_Checked ->
  (toggle_sync state;; toggle_sync Qt_Checked) w
  = Some (tt, mk_world (set_sync_group true <$> windows w)
                (SyncGroup.mk (seq 0 (length (windows w)))
                   (head (seq 0 (length (windows w)))))
                (events w)).
Proof.
  intros Hs. unfold mbind, W_bind.
  rewrite (toggle_sync_unchecked state w Hs), toggle_sync_checked.
  cbn [windows group events SyncGroup.init SyncGroup.players SyncGroup.master
       app].
  rewrite length_fmap, <- list_fmap_compose.
  reflexivity.
Qed.

(** Three windows, the second one the master of a group of two: after
    the box is unchecked and checked, all three are members and window 0
    is the master. *)
Lemma toggle_sync_off_on_rebuilds_group_witness :
  (toggle_sync 0;; toggle_sync Qt_Checked)
    (mk_world [new_window false; new_window true; new_window true]
       (SyncGroup.run [SyncGroup.Add 1; SyncGroup.Add 2]) [])
  = Some (tt, mk_world [new_window true; new_window true; new_window true]
                (SyncGroup.mk [0; 1; 2]%nat (Some 0%nat)) []).
Proof.
  rewrite (toggle_sync_off_on_rebuilds_group 0 _ ltac:(discriminate)).
  reflexivity.
Defined.

End ToggleSyncFacts.

Section LoadingFinishedFacts.
Import Player.

(** [fps_changed] on a window: the window takes the rate its spin box
    shows (the notification of the group does not touch the master). *)
Lemma fps_changed_window (id : nat) (w w' : world) (x : VideoPlayerWindow) :
  windows w !! id = Some x -> fps_changed id w = Some (tt, w') ->
  exists x', windows w' !! id = Some x' /\
             fps x' = fps_spinbox x /\ fps_spinbox x' = fps_spinbox x.
Proof.
  intros Hx Hrun. unfold fps_changed in Hrun.
  apply bind_inv in Hrun as (n & w1 & Hbody & Hrun).
  apply fps_changed_body_windows in Hbody
    as (x0 & x1 & Hx0 & -> & Hw1 & Hg1 & Hfps & Hbox & _).
  rewrite Hx in Hx0. injection Hx0 as <-.
  assert (Hlt : (id < length (windows w))%nat) by (eapply lookup_lt_Some, Hx).
  assert (Hx1 : windows w1 !! id = Some x1)
    by (rewrite Hw1; now apply list_lookup_insert_eq).
  apply bind_inv in Hrun as (b & w2 & Hmaster & Hrun).
  unfold is_sync_master in Hmaster.
  apply bind_inv in Hmaster as (x2 & w3 & Hget & Hmaster).
  apply get_inv in Hget as (_ & ->). injection Hmaster as <- <-.
  apply when_inv in Hrun as [(Hb & Hrun)|(_ & ->)].
  - apply andb_true_iff in Hb as (_ & Hm). unfold SyncGroup.is_master in Hm.
    apply bool_decide_eq_true in Hm.
    unfold group_set_fps in Hrun.
    apply bind_inv in Hrun as (g & w4 & Hg & Hloop). injection Hg as <- <-.
    destruct (group_set_fps_loop _ _ _ _ _ Hloop id x1 Hx1) as (y & Hy & Ho & _).
    exists y. split; [exact Hy|]. rewrite (Ho (or_intror Hm)). now split.
  - exists x1. split; [exact Hx1|]. now split.
Qed.

(** [fps_spinbox.setValue(v)] on a window: the spin box shows [v] bounded
    to 1..120; the rate follows the spin box when the spin box moved. *)
Lemma fps_spinbox_setValue_window (id : nat) (v : Z) (w w' : world)
    (x : VideoPlayerWindow) :
  windows w !! id = Some x -> fps_spinbox_setValue id v w = Some (tt, w') ->
  exists x', windows w' !! id = Some x' /\
             fps_spinbox x' = spinbox_bound v /\
             fps x' = (if bool_decide (spinbox_bound v = fps_spinbox x)
                       then fps x else spinbox_bound v).
Proof.
  intros Hx Hrun. unfold fps_spinbox_setValue in Hrun.
  apply bind_inv in Hrun as (y & w0 & Hget & Hrun).
  apply get_inv in Hget as (Hy & ->). rewrite Hx in Hy. injection Hy as <-.
  assert (Hlt : (id < length (windows w))%nat) by (eapply lookup_lt_Some, Hx).
  apply when_inv in Hrun as [(Hch & Hrun)|(Hch & ->)].
  - apply bool_decide_eq_true in Hch.
    apply bind_inv in Hrun as ([] & w1 & H1 & Hrun).
    apply modify_inv in H1 as (x0 & Hx0 & ->).
    rewrite Hx in Hx0. injection Hx0 as <-.
    assert (Hx1 : windows (mk_world
                    (<[id := set_fps_spinbox (spinbox_bound v) x]> (windows w))
                    (group w) (events w)) !! id
                  = Some (set_fps_spinbox (spinbox_bound v) x))
      by (cbn [windows]; now apply list_lookup_insert_eq).
    destruct (fps_changed_window id _ w' _ Hx1 Hrun) as (x' & Hx' & Hf & Hb).
    exists x'. split; [exact Hx'|]. cbn in Hf, Hb. split; [exact Hb|].
    rewrite bool_decide_eq_false_2 by exact Hch. exact Hf.
  - apply bool_decide_eq_false in Hch.
    assert (He : spinbox_bound v = fps_spinbox x)
      by (destruct (decide (spinbox_bound v = fps_spinbox x)); tauto).
    exists x. split; [exact Hx|]. split; [now symmetry|].
    now rewrite bool_decide_eq_true_2 by exact He.
Qed.

(** The position-preserving slot sets the total and the rate. *)
Lemma preserve_position_totals (id : nat) (total fps0 : Z) (w w' : world)
    (x : VideoPlayerWindow) :
  windows w !! id = Some x ->
  Z.min (minimum (frame_slider x)) (total - 1) <= value (frame_slider x)
    <= total - 1 ->
  _on_loading_finished_preserve_position id total fps0 w = Some (tt, w') ->
  exists x', windows w' !! id = Some x' /\
             total_frames x' = total /\
             fps_spinbox x' = spinbox_bound fps0 /\
             fps x' = (if bool_decide (spinbox_bound fps0 = fps_spinbox x)
                       then fps0 else spinbox_bound fps0).
Proof.
  intros Hx Hr Hrun. unfold _on_loading_finished_preserve_position in Hrun.
  assert (Hlt : (id < length (windows w))%nat) by (eapply lookup_lt_Some, Hx).
  apply bind_inv in Hrun as (u1 & w1 & H1 & Hrun).
  apply bind_inv in Hrun as (u2 & w2 & H2 & Hrun).
  apply bind_inv in Hrun as ([] & w3 & H3 & Hrun).
  apply bind_inv in Hrun as ([] & w4 & H4 & H5).
  apply modify_inv in H1 as (x0 & Hx0 & ->).
  rewrite Hx in Hx0. injection Hx0 as <-.
  apply modify_inv in H2 as (x1 & Hx1 & ->). cbn [windows group events] in *.
  rewrite list_lookup_insert_eq in Hx1 by exact Hlt. injection Hx1 as <-.
  rewrite list_insert_insert_eq in H3.
  set (x2 := set_fps fps0 (set_total_frames total x)) in *.
  set (w2 := mk_world (<[id := x2]> (windows w)) (group w) (events w)) in *.
  assert (Hx2 : windows w2 !! id = Some x2)
    by (cbn [windows]; now apply list_lookup_insert_eq).
  destruct (fps_spinbox_setValue_window id fps0 w2 w3 x2 Hx2 H3)
    as (x3 & Hx3 & Hbox & Hfps).
  pose (proj := fun y : VideoPlayerWindow => (total_frames y, frame_slider y)).
  assert (K3 : keeps proj (fps_spinbox_setValue id fps0))
    by (apply keeps_fps_spinbox_setValue; reflexivity).
  destruct (keeps_lookup proj _ w2 w3 tt id x2 K3 H3 Hx2) as (x3' & Hx3' & Hp3).
  rewrite Hx3 in Hx3'. injection Hx3' as <-.
  unfold proj in Hp3. cbn in Hp3. injection Hp3 as Ht3 Hs3.
  rewrite <- Hs3 in Hr.
  pose proof (frame_slider_setMaximum_in_range id (total - 1) w3 w4 x3 Hx3 Hr H4)
    as Hw4.
  apply modify_inv in H5 as (x4 & Hx4 & ->).
  assert (Hlt3 : (id < length (windows w3))%nat) by (eapply lookup_lt_Some, Hx3).
  subst w4. cbn [windows group events] in *.
  rewrite list_lookup_insert_eq in Hx4 by exact Hlt3. injection Hx4 as <-.
  eexists. split; [apply list_lookup_insert_eq; rewrite length_insert; exact Hlt3|].
  cbn. split; [exact Ht3|]. split; [exact Hbox|]. exact Hfps.
Qed.

(** C3 (as amended). After a first-open load ([load_video]) as after a
    seek-triggered reload ([_seek_to_frame]) the loader's
    [loading_finished] is connected to the position-preserving slot and to
    nothing else. When the loader reports its totals, with the slider's
    value inside the new range, every window keeps its frame index, its
    slider value and the index on its label; the window has the new
    total, its label shows it and its slider has the new maximum; its
    spin box shows the reported rate bounded to 1..120, and its rate is
    the reported one, or the bounded one when the spin box had to move.
    [load_video] itself keeps the positions; [_seek_to_frame k] leaves the
    index at [k]. *)
Theorem loading_finished_keeps_position (w w1 w2 : world) (id : nat)
    (path : string) (k total fps0 : Z) (x1 : VideoPlayerWindow) :
  load_video id path w = Some (tt, w1) \/
  _seek_to_frame id k w = Some (tt, w1) ->
  windows w1 !! id = Some x1 ->
  Z.min (minimum (frame_slider x1)) (total - 1) <= value (frame_slider x1)
    <= total - 1 ->
  loading_finished id total fps0 w1 = Some (tt, w2) ->
  (exists l, loader_thread x1 = Some l /\
             loading_finished_slots l = [slot_preserve_position]) /\
  (load_video id path w = Some (tt, w1) ->
     position <$> windows w1 = position <$> windows w) /\
  (_seek_to_frame id k w = Some (tt, w1) -> current_frame_index x1 = k) /\
  position <$> windows w2 = position <$> windows w1 /\
  exists x2, windows w2 !! id = Some x2 /\ position x2 = position x1 /\
             total_frames_display x2 = total - 1 /\
             maximum (frame_slider x2) = total - 1 /\
             total_frames x2 = total /\
             fps_spinbox x2 = spinbox_bound fps0 /\
             fps x2 = (if bool_decide (spinbox_bound fps0 = fps_spinbox x1)
                       then fps0 else spinbox_bound fps0).
Proof.
  intros Hstart Hx1 Hr Hfin.
  assert (Hl : exists l, loader_thread x1 = Some l /\
                         loading_finished_slots l = [slot_preserve_position]).
  { destruct Hstart as [Hload|Hseek].
    - destruct (load_video_run id path w w1 Hload) as (_ & Hlt).
      rewrite Hx1 in Hlt. injection Hlt as Hlt. eauto.
    - destruct (seek_to_frame_run id k w w1 Hseek)
        as (x & x' & p & _ & Hx' & _ & _ & Hlt).
      rewrite Hx1 in Hx'. injection Hx' as <-. eauto. }
  split; [exact Hl|].
  split; [intros Hload; exact (proj1 (load_video_run id path w w1 Hload))|].
  split.
  { intros Hseek.
    destruct (seek_to_frame_run id k w w1 Hseek)
      as (x & x' & p & _ & Hx' & Hk & _).
    rewrite Hx1 in Hx'. now injection Hx' as <-. }
  destruct Hl as (l & Hl & Hslots).
  unfold loading_finished in Hfin.
  apply bind_inv in Hfin as (x & w0 & Hget & Hfin).
  apply get_inv in Hget as (Hx & ->).
  rewrite Hx1 in Hx. injection Hx as <-.
  rewrite Hl, Hslots in Hfin. cbn [for_each run_slot] in Hfin.
  apply bind_inv in Hfin as ([] & w3 & Hrun & Hret).
  injection Hret as <-.
  destruct (preserve_position_run id total fps0 w1 w3 x1 Hx1 Hr Hrun)
    as (Hpos & x2 & Hx2 & Hd & Hm).
  destruct (preserve_position_totals id total fps0 w1 w3 x1 Hx1 Hr Hrun)
    as (x2' & Hx2' & Ht & Hbox & Hfps).
  rewrite Hx2 in Hx2'. injection Hx2' as <-.
  split; [exact Hpos|].
  exists x2. split; [exact Hx2|].
  split; [|split; [exact Hd|split; [exact Hm|split; [exact Ht|split;
    [exact Hbox|exact Hfps]]]]].
  assert (H : (position <$> windows w3) !! id = Some (position x1))
    by now rewrite Hpos, list_lookup_fmap, Hx1.
  rewrite list_lookup_fmap, Hx2 in H.
  change (Some (position x2) = Some (position x1)) in H.
  exact (inj Some _ _ H).
Qed.

(** The window at frame 7 of "a.mp4" in which "b.mp4", of 20 frames at 25
    frames per second, is opened: after the loader's report it still shows
    frame 7, of 20 frames, at rate 25. *)
Lemma loading_finished_keeps_position_witness :
  exists (w1 w2 : world) (x2 : VideoPlayerWindow),
    load_video 0 "b.mp4" (single (loaded_window false false 7)) = Some (tt, w1) /\
    loading_finished 0 20 25 w1 = Some (tt, w2) /\
    windows w2 !! 0%nat = Some x2 /\
    position x2 = (7, 7, 7) /\ total_frames_display x2 = 19 /\
    maximum (frame_slider x2) = 19 /\ total_frames x2 = 20 /\
    fps_spinbox x2 = 25 /\ fps x2 = 25.
Proof.
  destruct (load_video 0 "b.mp4" (single (loaded_window false false 7)))
    as [[[] w1]|] eqn:E1; [|vm_compute in E1; discriminate E1].
  assert (Hw1 : exists x1, windows w1 !! 0%nat = Some x1 /\
                           frame_slider x1 = mk_slider 0 9 7 /\
                           position x1 = (7, 7, 7) /\ fps_spinbox x1 = 30).
  { vm_compute in E1. injection E1 as <-. eexists. repeat split. }
  destruct Hw1 as (x1 & Hx1 & Hs1 & Hp1 & Hb1).
  destruct (loading_finished 0 20 25 w1) as [[[] w2]|] eqn:E2.
  - destruct (loading_finished_keeps_position
                (single (loaded_window false false 7)) w1 w2 0 "b.mp4" 0 20 25
                x1 (or_introl E1) Hx1)
      as (_ & _ & _ & _ & x2 & Hx2 & Hp2 & Hd2 & Hm2 & Ht2 & Hbox2 & Hf2).
    + rewrite Hs1. simpl. lia.
    + exact E2.
    + exists w1, w2, x2. rewrite Hp2, Hd2, Hm2, Ht2, Hbox2, Hf2, Hb1.
      repeat split; auto.
  - exfalso. vm_compute in E1. injection E1 as <-. vm_compute in E2.
    discriminate E2.
Defined.

(** C3 as the specification states it fails on the code: after a
    first-open load of a 20-frame file in the window that shows frame 7,
    the loader's report does not bring the label and the slider to 0. *)
Lemma load_video_does_not_reset_position :
  ~ (exists x : VideoPlayerWindow,
       window_after (load_video 0 "b.mp4";; loading_finished 0 20 30)
         (single (loaded_window false false 7)) 0 = Some x /\
       current_frame_display x = 0 /\ value (frame_slider x) = 0).
Proof.
  intros (x & Hx & Hd & _). vm_compute in Hx. injection Hx as <-.
  discriminate Hd.
Qed.

End LoadingFinishedFacts.
